(** * EzGM ground-motion processing toolbox (GMProc.py): a shallow embedding

    The development follows [src/GMProc.py] function by function:
    [baseline_correction], [butterworth_filter], [sdof_ltha],
    [get_parameters] and [RotDxx_spectrum].  Functions of numpy and scipy
    that stay within rational arithmetic are defined ([np.linspace],
    [np.cumsum], [np.trapz], [cumtrapz], [np.percentile], ...); the others
    ([np.polyfit], [butter], [filtfilt], [fft], [np.sqrt], [np.cos], ...) are
    parameters of the functions that call them.

    Numbers.  numpy's float64 values are embedded as exact rationals
    extended with the IEEE special values: [Fin q], [PInf], [NInf], [NaN].
    The arithmetic on finite values is exact (rounding and overflow are
    idealised away, and the two zeros are identified, a division by zero
    taking the zero as positive); the special values follow IEEE 754, which
    is what numpy does where Python itself would raise: a numpy division by
    zero yields an infinity or a NaN and carries on.  Where a property
    rests on the rounding itself, the solver is embedded a second time,
    in binary64, with Rocq's primitive floats ([sdof64]).

    Errors.  Python exceptions are values of [exn]; a function that can
    raise returns a [result]. *)

From Stdlib Require Import QArith Qround Qabs Lqa Sorting.Sorted Sorting.Permutation.
From Stdlib Require Import Floats.
From stdpp Require Import gmap strings list fin_maps sorting.

Local Open Scope Q_scope.

(** ** Extended numbers *)

Inductive num : Type :=
| Fin (q : Q)
| PInf
| NInf
| NaN.

#[global] Instance num_inhabited : Inhabited num := populate (Fin 0).

Declare Scope num_scope.
Delimit Scope num_scope with num.
Bind Scope num_scope with num.

(** The sign of a number as a [comparison] with zero; [Eq] for zero and NaN. *)
Definition sgn (x : num) : comparison :=
  match x with
  | Fin q => q ?= 0
  | PInf => Gt
  | NInf => Lt
  | NaN => Eq
  end.

Definition sign_mul (a b : comparison) : comparison :=
  match a, b with
  | Eq, _ | _, Eq => Eq
  | Gt, s | s, Gt => s
  | Lt, Lt => Gt
  end.

(** The infinity of a given sign; a zero sign stands for an invalid
    operation (0 * inf, 0 / 0). *)
Definition inf_of_sign (s : comparison) : num :=
  match s with
  | Gt => PInf
  | Lt => NInf
  | Eq => NaN
  end.

Definition nneg (x : num) : num :=
  match x with
  | Fin q => Fin (- q)
  | PInf => NInf
  | NInf => PInf
  | NaN => NaN
  end.

Definition nadd (x y : num) : num :=
  match x, y with
  | NaN, _ | _, NaN => NaN
  | Fin a, Fin b => Fin (a + b)
  | Fin _, i | i, Fin _ => i
  | PInf, PInf => PInf
  | NInf, NInf => NInf
  | _, _ => NaN
  end.

Definition nsub (x y : num) : num := nadd x (nneg y).

Definition nmul (x y : num) : num :=
  match x, y with
  | NaN, _ | _, NaN => NaN
  | Fin a, Fin b => Fin (a * b)
  | _, _ => inf_of_sign (sign_mul (sgn x) (sgn y))
  end.

Definition ndiv (x y : num) : num :=
  match x, y with
  | NaN, _ | _, NaN => NaN
  | Fin a, Fin b => if Qeq_bool b 0 then inf_of_sign (a ?= 0) else Fin (a / b)
  | Fin _, _ => Fin 0
  | _, Fin b => inf_of_sign (sign_mul (sgn x) (if Qeq_bool b 0 then Gt else b ?= 0))
  | _, _ => NaN
  end.

Definition nabs (x : num) : num :=
  match x with
  | Fin q => Fin (Qabs q)
  | PInf | NInf => PInf
  | NaN => NaN
  end.

(** [x ** 2] *)
Definition nsq (x : num) : num := nmul x x.

(** Comparison; [None] when one side is NaN (every test is then false). *)
Definition ncompare (x y : num) : option comparison :=
  match x, y with
  | NaN, _ | _, NaN => None
  | Fin a, Fin b => Some (a ?= b)
  | PInf, PInf | NInf, NInf => Some Eq
  | PInf, _ | _, NInf => Some Gt
  | _, PInf | NInf, _ => Some Lt
  end.

Definition nltb (x y : num) : bool :=
  match ncompare x y with Some Lt => true | _ => false end.
Definition nleb (x y : num) : bool :=
  match ncompare x y with Some Lt | Some Eq => true | _ => false end.
Definition ngtb (x y : num) : bool := nltb y x.
Definition ngeb (x y : num) : bool := nleb y x.
Definition neqb (x y : num) : bool :=
  match ncompare x y with Some Eq => true | _ => false end.

(** Equality of numbers up to the representation of the rational. *)
Definition num_eq (x y : num) : Prop :=
  match x, y with
  | Fin a, Fin b => a == b
  | PInf, PInf | NInf, NInf | NaN, NaN => True
  | _, _ => False
  end.

Definition is_fin (x : num) : bool :=
  match x with Fin _ => true | _ => false end.

Notation "x + y" := (nadd x y) : num_scope.
Notation "x - y" := (nsub x y) : num_scope.
Notation "x * y" := (nmul x y) : num_scope.
Notation "x / y" := (ndiv x y) : num_scope.
Notation "- x" := (nneg x) : num_scope.
Notation "x >? y" := (ngtb x y) (at level 70) : num_scope.
Notation "x >=? y" := (ngeb x y) (at level 70) : num_scope.
Notation "x <? y" := (nltb x y) : num_scope.
Notation "x <=? y" := (nleb x y) : num_scope.
Notation "x =? y" := (neqb x y) : num_scope.
Notation "x ≈ y" := (num_eq x y) (at level 70) : num_scope.

(** Literals of the source, as numbers. *)
Coercion Fin : Q >-> num.

(** [np.pi] is the binary64 number nearest to π, itself a rational. *)
Definition np_pi : num := Fin (884279719003555 # 281474976710656).

(** ** Python exceptions *)

Inductive exn : Type :=
| ValueError (msg : string)
| TypeError
| IndexError
| NameError
| UnboundLocalError
| OverflowError
| ZeroDivisionError.

Inductive result (A : Type) : Type :=
| Ok (a : A)
| Raise (e : exn).
Arguments Ok {A} a.
Arguments Raise {A} e.

Definition rbind {A B : Type} (r : result A) (k : A → result B) : result B :=
  match r with
  | Ok a => k a
  | Raise e => Raise e
  end.

Notation "'let*' x := r 'in' k" := (rbind r (fun x => k))
  (at level 10, x name, r at level 200, k at level 200).
Notation "'let*' ' p := r 'in' k" := (rbind r (fun x => match x with p => k end))
  (at level 10, p strict pattern, r at level 200, k at level 200).

(** [try: body except: handler] with a bare [except]. *)
Definition try_except {A} (body : result A) (handler : A) : A :=
  match body with
  | Ok a => a
  | Raise _ => handler
  end.

(** ** numpy arrays

    A one-dimensional array is a [list num], a two-dimensional one the list
    of its rows.  Elementwise operations on arrays of one shape: *)

Abbreviation vec := (list num).
Abbreviation mat := (list (list num)).

Definition vadd (x y : vec) : vec := zip_with nadd x y.
Definition vsub (x y : vec) : vec := zip_with nsub x y.
Definition vmul (x y : vec) : vec := zip_with nmul x y.
Definition vdiv (x y : vec) : vec := zip_with ndiv x y.

(** [np.zeros(n)], [np.ones(n)] and [np.zeros((n1, n2))] *)
Definition zeros (n : nat) : vec := replicate n (Fin 0).
Definition ones (n : nat) : vec := replicate n (Fin 1).
Definition zeros2 (n1 n2 : nat) : mat := replicate n1 (zeros n2).

(** [a[i]] where the index is known to be in range. *)
Definition at_ {A} `{Inhabited A} (a : list A) (i : nat) : A := a !!! i.

(** Column [j] of a matrix: [a[:, j]]. *)
Definition col (a : mat) (j : nat) : vec := (λ row, at_ row j) <$> a.

(** [np.linspace(start, stop, num)] *)
Definition linspace (start stop : num) (n : nat) : vec :=
  let div := Fin (inject_Z (Z.of_nat n - 1)) in
  let delta := (stop - start)%num in
  let step := (delta / div)%num in
  let y := (λ i : nat,
    let i := Fin (inject_Z (Z.of_nat i)) in
    if decide (1 < n)%nat
    then (if (step =? 0)%num then i / div * delta else i * step) + start
    else i * delta + start)%num <$> seq 0 n in
  if decide (1 < n)%nat then <[(n - 1)%nat := stop]> y else y.

(** [np.sum] and [np.mean]; the mean of an empty array is [0 / 0], a NaN. *)
Definition np_sum (x : vec) : num := foldl nadd (Fin 0) x.
Definition np_mean (x : vec) : num := (np_sum x / Fin (inject_Z (Z.of_nat (length x))))%num.

(** Division of Python floats: a zero divisor raises. *)
Definition py_div (x y : num) : result num :=
  if (y =? 0)%num then Raise ZeroDivisionError else Ok (x / y)%num.

(** ** [baseline_correction] *)

Module baseline.

Section numpy.
(** [np.polyfit(x, y, deg)], which can refuse its arguments, and
    [np.polyval(p, x)] are library functions. *)
Context {poly : Type}.
Context (polyfit : vec → vec → nat → result poly).
Context (polyval : poly → vec → vec).

Definition baseline_correction (values : vec) (dt : num) (polynomial_type : string)
    : result vec :=
  (* the degree [n] stays unbound when no name matches *)
  let n :=
    if decide (polynomial_type = "Constant") then Some 0%nat
    else if decide (polynomial_type = "Linear") then Some 1%nat
    else if decide (polynomial_type = "Quadratic") then Some 2%nat
    else if decide (polynomial_type = "Cubic") then Some 3%nat
    else None in
  (* t = np.linspace(0, (len(values) - 1) * dt, len(values)) *)
  let t :=
    linspace 0 (Fin (inject_Z (Z.of_nat (length values) - 1)) * dt)%num (length values) in
  let* n := match n with Some n => Ok n | None => Raise UnboundLocalError end in
  let* P := polyfit t values n in
  let po_va := polyval P t in
  Ok (vsub values po_va).
End numpy.

End baseline.

(** ** [butterworth_filter] *)

Module filter.

(** The [btype] handed to [scipy.signal.butter]. *)
Inductive btype : Type := band | low | high.

(** The argument [cut_off]: a list or tuple whose items are numbers or
    [None], or an object of another type. *)
Inductive cut_off_arg : Type :=
| Seq (items : list (option num))
| NotSeq.

(** [cut_off] once the type of the filter is chosen: an array of the two
    frequencies, or one item of the pair as it is. *)
Inductive cut_off_val : Type :=
| Both (lo hi : num)
| Item (f : option num).

(** The keyword arguments, each absent or given; [gibbs_extra] and
    [gibbs_range] are counts, taken in [nat]. *)
Record kwargs : Type := Kwargs {
  kw_filter_order : option Z;
  kw_remove_gibbs : option string;
  kw_gibbs_extra : option nat;
  kw_gibbs_range : option nat
}.

Definition no_kwargs : kwargs := Kwargs None None None None.

(** Lines 96-110: validation of [cut_off] and choice of the filter type. *)
Definition select (cut_off : cut_off_arg) : result (btype * cut_off_val) :=
  match cut_off with
  | NotSeq => Raise (ValueError "cut_off must be list or tuple.")
  | Seq items =>
      if decide (length items ≠ 2%nat) then Raise (ValueError "cut_off must be length 2.")
      else
        match items !! 0%nat, items !! 1%nat with
        | Some (Some lo), Some (Some hi) =>
            (* cut_off[0] is not None and cut_off[1] is not None *)
            Ok (band, Both lo hi)
        | Some None, Some c1 =>
            (* cut_off[0] is None *)
            Ok (low, Item c1)
        | Some c0, _ =>
            Ok (high, Item c0)
        | None, _ => Raise IndexError
        end
  end.

(** [int(np.ceil(np.log2(n)))]; the logarithm of 0 is [-inf], which [int]
    refuses. *)
Definition ceil_log2 (n : nat) : result nat :=
  if decide (n = 0%nat) then Raise OverflowError else Ok (Nat.log2_up n).

(** [x[-g:]] and [x[:g]] *)
Definition last_items (g : nat) (x : vec) : vec :=
  if decide (g = 0%nat) then x else drop (length x - g) x.
Definition first_items (g : nat) (x : vec) : vec := take g x.

(** Lines 122-145: the padded signal with the bounds [s_len], [f_len] of the
    original one inside it. *)
Definition pad (values : vec) (remove_gibbs : option string)
    (gibbs_extra gibbs_range : nat) : result (vec * nat * nat) :=
  let org_len := length values in
  match remove_gibbs with
  | Some mode =>
      let* l2 := ceil_log2 (length values) in
      let nindex := (l2 + gibbs_extra)%nat in
      let new_len := (2 ^ nindex)%nat in
      let diff_len := (new_len - org_len)%nat in
      let s_len :=
        if decide (mode = "start") then 0%nat
        else if decide (mode = "end") then diff_len
        else (diff_len / 2)%nat in
      let f_len := (s_len + org_len)%nat in
      let end_value := np_mean (last_items gibbs_range values) in
      let start_value := np_mean (first_items gibbs_range values) in
      (* temp = start_value * np.ones(new_len) *)
      let temp := (λ o, start_value * o)%num <$> ones new_len in
      (* temp[f_len:] = end_value *)
      let temp := take f_len temp ++ replicate (new_len - f_len) end_value in
      (* temp[s_len:f_len] = values_filtered *)
      let temp := take s_len temp ++ values ++ drop f_len temp in
      Ok (temp, s_len, f_len)
  | None => Ok (values, 0%nat, org_len)
  end.

(** What [scipy.signal.butter] receives as critical frequencies. *)
Inductive Wn : Type :=
| Wn_scalar (w : num)
| Wn_pair (lo hi : num).

(** [wp = cut_off / nyq]: an array divided by a float, or a Python division,
    which has no meaning for [None]. *)
Definition normalise (cut_off : cut_off_val) (nyq : num) : result Wn :=
  match cut_off with
  | Both lo hi => Ok (Wn_pair (lo / nyq) (hi / nyq))
  | Item (Some f) => let* w := py_div f nyq in Ok (Wn_scalar w)
  | Item None => Raise TypeError
  end.

Section scipy.
(** [scipy.signal.butter] and [scipy.signal.filtfilt] are library
    functions: the design of the filter, which can refuse its arguments,
    and its forward-backward application. *)
Context {coeffs : Type}.
Context (butter : Z → Wn → btype → result coeffs).
Context (filtfilt : coeffs → vec → result vec).

(** Lines 112-153, for a chosen filter type. *)
Definition run (values : vec) (dt : num) (filter_type : btype)
    (cut_off : cut_off_val) (kw : kwargs) : result vec :=
  let filter_order := default 4%Z (kw_filter_order kw) in
  let remove_gibbs := kw_remove_gibbs kw in
  let gibbs_extra := default 1%nat (kw_gibbs_extra kw) in
  let gibbs_range := default 50%nat (kw_gibbs_range kw) in
  let* sampling_rate := py_div 1 dt in
  let nyq := (sampling_rate * 0.5)%num in
  let* '(values_filtered, s_len, f_len) := pad values remove_gibbs gibbs_extra gibbs_range in
  let* wp := normalise cut_off nyq in
  let* ba := butter filter_order wp filter_type in
  let* values_filtered := filtfilt ba values_filtered in
  (* values_filtered[s_len:f_len] *)
  Ok (take (f_len - s_len) (drop s_len values_filtered)).

Definition butterworth_filter (values : vec) (dt : num) (cut_off : cut_off_arg)
    (kw : kwargs) : result vec :=
  let* '(filter_type, cut_off) := select cut_off in
  run values dt filter_type cut_off kw.
End scipy.

End filter.

(** ** [sdof_ltha]: linear time-history analysis of SDOF systems

    Newmark's method, for all the periods of [T] at once.  The arrays of the
    source that hold one value per period (shape [(1, n2)]) are vectors of
    length [n2]; the four histories have shape [(n1, n2)]. *)

Module sdof.

Section coefficients.
Context (dt : num) (T : vec) (xi m : num).

Definition n2 : nat := length T.

(** [fn = 1 / T] *)
Definition fn : vec := (λ Tj, 1 / Tj)%num <$> T.
(** [wn = 2 * np.pi * fn] *)
Definition wn : vec := (λ f, 2 * np_pi * f)%num <$> fn.
(** [k = m * wn ** 2] *)
Definition k : vec := (λ w, m * nsq w)%num <$> wn.
(** [c = 2 * m * wn * xi] *)
Definition c : vec := (λ w, 2 * m * w * xi)%num <$> wn.

(** [Gamma = np.ones((1, n2)) * (1 / 2)] *)
Definition Gamma : vec := (λ o, o * Fin (1 / 2))%num <$> ones n2.
(** [Beta = np.ones((1, n2)) * 1 / 6] *)
Definition Beta0 : vec := (λ o, o * 1 / 6)%num <$> ones n2.
(** [Beta[np.where(dt / T > 0.55)] = 1 / 4] *)
Definition Beta : vec :=
  zip_with (λ b Tj, if (dt / Tj >? 0.55)%num then Fin (1 / 4) else b) Beta0 T.

(** [a1 = Gamma / (Beta * dt)] *)
Definition a1 : vec := zip_with (λ g b, g / (b * dt))%num Gamma Beta.
(** [a2 = 1 / (Beta * dt ** 2)] *)
Definition a2 : vec := (λ b, 1 / (b * nsq dt))%num <$> Beta.
(** [a3 = 1 / (Beta * dt)] *)
Definition a3 : vec := (λ b, 1 / (b * dt))%num <$> Beta.
(** [a4 = Gamma / Beta] *)
Definition a4 : vec := vdiv Gamma Beta.
(** [a5 = 1 / (2 * Beta)] *)
Definition a5 : vec := (λ b, 1 / (2 * b))%num <$> Beta.
(** [a6 = (Gamma / (2 * Beta) - 1) * dt] *)
Definition a6 : vec := zip_with (λ g b, (g / (2 * b) - 1) * dt)%num Gamma Beta.
(** [kf = k + a1 * c + a2 * m] *)
Definition kf : vec := vadd (vadd k (vmul a1 c)) ((λ x, x * m)%num <$> a2).
(** [a = a3 * m + a4 * c] *)
Definition a : vec := vadd ((λ x, x * m)%num <$> a3) (vmul a4 c).
(** [b = a5 * m + a6 * c] *)
Definition b : vec := vadd ((λ x, x * m)%num <$> a5) (vmul a6 c).
End coefficients.

(** The four history arrays [u, v, ac, ac_tot]. *)
Record hist : Type := Hist { u : mat; v : mat; ac : mat; ac_tot : mat }.

Section solver.
Context (Ag : vec) (dt : num) (T : vec) (xi m : num).

Definition n1 : nat := length Ag.

(** [p = -m * Ag] *)
Definition p : vec := (λ g, (- m) * g)%num <$> Ag.

(** The arrays after "Set the Initial Conditions". *)
Definition init : hist :=
  let u := zeros2 n1 (n2 T) in
  let v := zeros2 n1 (n2 T) in
  let ac := zeros2 n1 (n2 T) in
  let ac_tot := zeros2 n1 (n2 T) in
  (* u[0] = 0 *)
  let u := <[0%nat := zeros (n2 T)]> u in
  (* v[0] = 0 *)
  let v := <[0%nat := zeros (n2 T)]> v in
  (* ac[0] = (p[0] - c * v[0] - k * u[0]) / m *)
  let ac := <[0%nat :=
    (λ x, x / m)%num <$>
      vsub ((λ x, at_ p 0 - x)%num <$> vmul (c T xi m) (at_ v 0))
           (vmul (k T m) (at_ u 0))]> ac in
  (* ac_tot[0] = ac[0] + Ag[0] *)
  let ac_tot := <[0%nat := (λ x, x + at_ Ag 0)%num <$> at_ ac 0]> ac_tot in
  Hist u v ac ac_tot.

(** One turn of [for i in range(n1 - 1)]. *)
Definition step (h : hist) (i : nat) : hist :=
  (* dpf = (p[i + 1] - p[i]) + a * v[i] + b * ac[i] *)
  let dpf :=
    vadd ((λ x, (at_ p (i + 1) - at_ p i) + x)%num <$> vmul (a dt T xi m) (at_ (v h) i))
         (vmul (b dt T xi m) (at_ (ac h) i)) in
  (* du = dpf / kf *)
  let du := vdiv dpf (kf dt T xi m) in
  (* dv = a1 * du - a4 * v[i] - a6 * ac[i] *)
  let dv :=
    vsub (vsub (vmul (a1 dt T) du) (vmul (a4 dt T) (at_ (v h) i)))
         (vmul (a6 dt T) (at_ (ac h) i)) in
  (* da = a2 * du - a3 * v[i] - a5 * ac[i] *)
  let da :=
    vsub (vsub (vmul (a2 dt T) du) (vmul (a3 dt T) (at_ (v h) i)))
         (vmul (a5 dt T) (at_ (ac h) i)) in
  let u' := <[(i + 1)%nat := vadd (at_ (u h) i) du]> (u h) in
  let v' := <[(i + 1)%nat := vadd (at_ (v h) i) dv]> (v h) in
  let ac' := <[(i + 1)%nat := vadd (at_ (ac h) i) da]> (ac h) in
  let ac_tot' :=
    <[(i + 1)%nat := (λ x, x + at_ Ag (i + 1))%num <$> at_ ac' (i + 1)]> (ac_tot h) in
  Hist u' v' ac' ac_tot'.

Definition loop (h : hist) : hist := foldl step h (seq 0 (n1 - 1)).

(** [u[0] = 0] on an array without rows raises [IndexError]; nothing else
    in the function can raise: numpy divisions by zero give infinities
    and NaNs. *)
Definition sdof_ltha : result hist :=
  if decide (n1 = 0)%nat then Raise IndexError else Ok (loop init).
End solver.

End sdof.

(** ** More of numpy and scipy *)

(** [np.max], which propagates NaN, and [np.abs]. *)
Definition nmax (x y : num) : num :=
  match x, y with
  | NaN, _ | _, NaN => NaN
  | _, _ => if (x <? y)%num then y else x
  end.

Definition np_max (x : vec) : result num :=
  match x with
  | [] => Raise (ValueError "zero-size array to reduction operation maximum which has no identity")
  | x0 :: xs => Ok (foldl nmax x0 xs)
  end.

(** [np.max(a, axis=0)] for an array of rows. *)
Definition np_max_axis0 (a : mat) : result vec :=
  match a with
  | [] => Raise (ValueError "zero-size array to reduction operation maximum which has no identity")
  | r0 :: rs => Ok (foldl (zip_with nmax) r0 rs)
  end.

(** Python's builtin [max] over the items of an array. *)
Definition py_max (x : vec) : result num :=
  match x with
  | [] => Raise (ValueError "max() arg is an empty sequence")
  | x0 :: xs => Ok (foldl (λ m y, if (y >? m)%num then y else m) x0 xs)
  end.

(** [x[0]] and [x[-1]] *)
Definition first_item {A} (x : list A) : result A :=
  match x with
  | [] => Raise IndexError
  | x0 :: _ => Ok x0
  end.
Definition last_item {A} (x : list A) : result A :=
  match last x with
  | None => Raise IndexError
  | Some y => Ok y
  end.

(** [x[i1:i2]] for indices within bounds *)
Definition slice {A} (i1 i2 : nat) (x : list A) : list A := take (i2 - i1) (drop i1 x).

(** [x[mask]] and [np.where(mask)[0]] *)
Definition select_mask {A} (mask : list bool) (x : list A) : list A :=
  snd <$> filter (λ bx, fst bx = true) (zip mask x).
Definition np_where (mask : list bool) : list nat :=
  select_mask mask (seq 0 (length mask)).

(** [np.diff(x)]: [x[1:] - x[:-1]] *)
Definition np_diff (x : vec) : vec := zip_with nsub (drop 1 x) x.

(** [np.cumsum] *)
Fixpoint cumsum_from (acc : num) (x : vec) : vec :=
  match x with
  | [] => []
  | y :: x' => (acc + y)%num :: cumsum_from (acc + y)%num x'
  end.
Definition np_cumsum (x : vec) : vec :=
  match x with
  | [] => []
  | y :: x' => y :: cumsum_from y x'
  end.

(** The trapezoids [d * (y[1:] + y[:-1]) / 2.0] with [d = np.diff(x)]. *)
Definition trapezoids (y x : vec) : vec :=
  zip_with (λ d s, d * s / 2)%num (np_diff x) (zip_with nadd (drop 1 y) y).

(** [np.trapz(y, x)] *)
Definition np_trapz (y x : vec) : num := np_sum (trapezoids y x).

(** [scipy.integrate.cumtrapz(y, x, initial=0)] for one-dimensional arrays;
    the lengths of [x] and [y] must agree. *)
Definition cumtrapz (y x : vec) : result vec :=
  if decide (Z.of_nat (length (np_diff x)) ≠ Z.of_nat (length y) - 1)%Z
  then Raise (ValueError "If given, length of x along axis must be the same as y.")
  else Ok (Fin 0 :: np_cumsum (trapezoids y x)).

(** [cumtrapz(y, x, axis=0, initial=0)[-1]] for two-dimensional [x] and [y]
    of one shape [(n1, n2)], [n1 >= 1]: the sum, along the first axis, of
    the rows of trapezoids, or the row of initial zeros when there is none. *)
Definition cumtrapz_axis0_last (y x : mat) (n2 : nat) : vec :=
  let d := zip_with vsub (drop 1 x) x in
  let s := zip_with vadd (drop 1 y) y in
  let traps := zip_with (zip_with (λ d s, d * s / 2)%num) d s in
  match traps with
  | [] => zeros n2
  | r0 :: rs => foldl vadd r0 rs
  end.

(** Rounding to the nearest integer, the even one at a tie. *)
Definition rint (q : Q) : Z :=
  let f := Qfloor q in
  match Qcompare (q - inject_Z f) (1 # 2) with
  | Lt => f
  | Gt => (f + 1)%Z
  | Eq => if Z.even f then f else (f + 1)%Z
  end.

(** [round(x, d)] and [np.round(x, d)] for a float64 [x]: the nearest
    multiple of [10 ** -d]. *)
Definition round_to (d : nat) (x : num) : num :=
  match x with
  | Fin q => Fin (inject_Z (rint (q * inject_Z (10 ^ Z.of_nat d))) / inject_Z (10 ^ Z.of_nat d))
  | _ => x
  end.

(** [np.fft.fftshift] and [np.fft.fftfreq] *)
Definition fftshift {A} (x : list A) : list A :=
  let shift := (length x / 2)%nat in
  drop (length x - shift) x ++ take (length x - shift) x.

Definition fftfreq (n : nat) (d : num) : result vec :=
  let* val := py_div 1 (Fin (inject_Z (Z.of_nat n)) * d)%num in
  let N1 := ((n - 1) / 2 + 1)%nat in
  let p1 := (λ i : nat, Fin (inject_Z (Z.of_nat i))) <$> seq 0 N1 in
  let p2 := (λ i : nat, Fin (inject_Z (Z.of_nat i - Z.of_nat (n / 2)))) <$> seq 0 (n / 2) in
  Ok ((λ r, r * val)%num <$> (p1 ++ p2)).

(** ** [get_parameters] *)

(** The values held by the dictionary [param]. *)
Inductive pyval : Type :=
| PyFloat (x : num)
| PyArray (a : vec)
| PyArray2 (a : mat)
| PyStr (s : string)
| PyPair (t1 t2 : num)
| PyListOfArray (a : vec).

Module gm.

Definition NA : pyval := PyStr "N.A.".

(** [np.where(T == x)[0][0]] *)
Definition index_of (T : vec) (x : num) : result nat :=
  first_item (np_where ((λ Tj, Tj =? x)%num <$> T)).

(** [np.cumsum(Ag ** 2) * np.pi * dt / (2 * 9.81)] *)
Definition arias_curve (Ag : vec) (dt : num) : vec :=
  (λ s, s * np_pi * dt / (2 * 9.81)%Q)%num <$> np_cumsum (nsq <$> Ag).

(** The blocks "SIGNIFICANT DURATION": the rounded ends [t1], [t2] of the
    window where [Aint] lies between 5% and the fraction [hi] of its last
    value, and the rounded length of the window. *)
Definition significant_duration (Aint t : vec) (hi : num) : result (num * num * num) :=
  let* Aint_end := last_item Aint in
  (* mask = (Aint >= 0.05 * Aint[-1]) * (Aint <= hi * Aint[-1]) *)
  let mask :=
    zip_with andb ((λ x, x >=? 0.05 * Aint_end)%num <$> Aint)
                  ((λ x, x <=? hi * Aint_end)%num <$> Aint) in
  let timed := select_mask mask t in
  let* t0 := first_item timed in
  let t1 := round_to 3 t0 in
  let* t0 := last_item timed in
  let t2 := round_to 3 t0 in
  Ok (t1, t2, round_to 3 (t2 - t1)%num).

(** The block "BRACKETED DURATION (0.05g)" inside its [try]. *)
Definition bracketed_duration (Ag t : vec) : result (num * num * num) :=
  let mask := (λ x, nabs x >=? (0.05 * 9.81)%Q)%num <$> Ag in
  let indices := np_where mask in
  let* i0 := first_item indices in
  let t1 := round_to 3 (at_ t i0) in
  let* i1 := last_item indices in
  let t2 := round_to 3 (at_ t i1) in
  Ok (t1, t2, round_to 3 (t2 - t1)%num).

(** The block "UNIFORM DURATION (0.05g)": nothing in it raises. *)
Definition uniform_duration (Ag t : vec) (dt : num) : vec * num :=
  let mask := (λ x, nabs x >=? (0.05 * 9.81)%Q)%num <$> Ag in
  let indices := np_where mask in
  let t_treshold := (λ i, at_ t i) <$> indices in
  let temp := round_to 8 <$> np_diff t_treshold in
  (t_treshold, round_to 3 (np_sum (filter (λ x, (x =? dt)%num = true) temp))).

Section library.
(** Library functions outside rational arithmetic: the discrete Fourier
    transform [scipy.fft.fft(x, n)] with the modulus of its complex
    values, [np.sqrt], and the power [x ** y] of floats. *)
Context {complex : Type}.
Context (fft : vec → nat → list complex).
Context (np_abs_complex : complex → num).
Context (np_sqrt : num → num).
Context (np_power : num → num → num).

(** The block "GET FOURIER AMPLITUDE AND POWER AMPLITUDE SPECTRUM":
    the arrays [freq], [Famp] and [Pamp]. *)
Definition fourier (Ag : vec) (dt t_end aRMS : num) : result (vec * vec * vec) :=
  let* l2 := filter.ceil_log2 (length Ag) in
  let N := (2 ^ l2)%nat in
  let Famp := fft Ag N in
  let Famp := (λ z, np_abs_complex z * dt)%num <$> fftshift Famp in
  let* freq := fftfreq N dt in
  let freq := fftshift freq in
  let Famp := select_mask ((λ f, f >? 0)%num <$> freq) Famp in
  let freq := filter (λ f, (f >? 0)%num = true) freq in
  let Pamp := (λ F, nsq F / (np_pi * t_end * nsq aRMS))%num <$> Famp in
  Ok (freq, Famp, Pamp).

Definition get_parameters (Ag : vec) (dt : num) (T : vec) (xi : num)
    : result (gmap string pyval) :=
  (* INITIALIZATION *)
  let T := filter (λ Tj, (Tj =? 0)%num ≠ true) T in
  let param : gmap string pyval := {[ "Periods" := PyArray T ]} in
  (* GET SPECTRAL VALUES *)
  let n1 := length Ag in
  let n2 := length T in
  let t := linspace 0 (Fin (inject_Z (Z.of_nat n1 - 1)) * dt)%num n1 in
  let* Vg := cumtrapz Ag t in
  let* Dg := cumtrapz Vg t in
  let m : num := 1 in
  let* h := sdof.sdof_ltha Ag dt T xi m in
  let* Sd := np_max_axis0 ((λ row : vec, nabs <$> row) <$> sdof.u h) in
  let param := <["Sd" := PyArray Sd]> param in
  let* Sv := np_max_axis0 ((λ row : vec, nabs <$> row) <$> sdof.v h) in
  let param := <["Sv" := PyArray Sv]> param in
  let* Sa := np_max_axis0 ((λ row : vec, nabs <$> row) <$> sdof.ac_tot h) in
  let param := <["Sa" := PyArray Sa]> param in
  let PSv := zip_with (λ Tj sd, 2 * np_pi / Tj * sd)%num T Sd in
  let param := <["PSv" := PyArray PSv]> param in
  let PSa := zip_with (λ Tj sd, nsq (2 * np_pi / Tj) * sd)%num T Sd in
  let param := <["PSa" := PyArray PSa]> param in
  let ei_r :=
    (λ x, x * m)%num <$>
      cumtrapz_axis0_last ((λ g, replicate n2 (- g)%num) <$> Ag) (sdof.u h) n2 in
  let ei_a :=
    (λ x, x * m)%num <$>
      cumtrapz_axis0_last ((λ g, replicate n2 (- g)%num) <$> Dg) (sdof.ac_tot h) n2 in
  let param := <["Ei_r" := PyArray ei_r]> param in
  let param := <["Ei_a" := PyArray ei_a]> param in
  (* GET PEAK GROUND ACCELERATION, VELOCITY AND DISPLACEMENT *)
  let* PGA := np_max (nabs <$> Ag) in
  let param := <["PGA" := PyFloat PGA]> param in
  let* PGV := np_max (nabs <$> Vg) in
  let param := <["PGV" := PyFloat PGV]> param in
  let* PGD := np_max (nabs <$> Dg) in
  let param := <["PGD" := PyFloat PGD]> param in
  (* GET ARIAS INTENSITY *)
  let Aint := arias_curve Ag dt in
  let* Arias := last_item Aint in
  let param := <["Arias" := PyFloat Arias]> param in
  let temp := zip_with (λ ti Ai, [ti; Ai]) t Aint in
  let param := <["Aint" := PyArray2 temp]> param in
  (* GET HOUSNER INTENSITY *)
  let index1 := index_of T 0.1 in
  let index2 := let* _ := index1 in index_of T 2.5 in
  let param :=
    <["HI" := try_except
        (let* i1 := index1 in let* i2 := index2 in
         Ok (PyFloat (np_trapz (slice i1 i2 PSv) (slice i1 i2 T))))
        NA]> param in
  (* SIGNIFICANT DURATION (5%-75% Ia) *)
  let* '(t1, t2, D) := significant_duration Aint t 0.75 in
  let param := <["t_5_75" := PyPair t1 t2]> param in
  let param := <["D_5_75" := PyFloat D]> param in
  (* SIGNIFICANT DURATION (5%-95% Ia) *)
  let* '(t1, t2, D) := significant_duration Aint t 0.95 in
  let param := <["t_5_95" := PyPair t1 t2]> param in
  let param := <["D_5_95" := PyFloat D]> param in
  (* BRACKETED DURATION (0.05g) *)
  let param :=
    match bracketed_duration Ag t with
    | Ok (t1, t2, D) => <["D_bracketed" := PyFloat D]> (<["t_bracketed" := PyPair t1 t2]> param)
    | Raise _ => <["D_bracketed" := NA]> (<["t_bracketed" := NA]> param)
    end in
  (* UNIFORM DURATION (0.05g) *)
  let '(t_treshold, D) := uniform_duration Ag t dt in
  let param := <["t_uniform" := PyListOfArray t_treshold]> param in
  let param := <["D_uniform" := PyFloat D]> param in
  (* CUMULATVE ABSOLUTE VELOCITY *)
  let param := <["CAV" := PyFloat (np_trapz (nabs <$> Ag) t)]> param in
  (* CHARACTERISTIC INTENSITY, ROOT MEAN SQUARE OF ACC, VEL, DISP *)
  let* Td := last_item t in
  let aRMS := np_sqrt (np_trapz (nsq <$> Ag) t / Td)%num in
  let param := <["aRMS" := PyFloat aRMS]> param in
  let param := <["vRMS" := PyFloat (np_sqrt (np_trapz (nsq <$> Vg) t / Td)%num)]> param in
  let param := <["dRMS" := PyFloat (np_sqrt (np_trapz (nsq <$> Dg) t / Td)%num)]> param in
  let param := <["Ic" := PyFloat (np_power aRMS 1.5 * np_sqrt Td)%num]> param in
  (* ACCELERATION AND VELOCITY SPECTRUM INTENSITY *)
  let index3 := index_of T 0.5 in
  let param :=
    <["ASI" := try_except
        (let* i3 := index3 in
         let* i1 := match index1 with Ok i => Ok i | Raise _ => Raise NameError end in
         Ok (PyFloat (np_trapz (slice i1 i3 Sa) (slice i1 i3 T))))
        NA]> param in
  let param :=
    match index1, index2 with
    | Ok i1, Ok i2 =>
        <["VSI" := PyFloat (np_trapz (slice i1 i2 Sv) (slice i1 i2 T))]>
          (<["MASI" := PyFloat (np_trapz (slice i1 i2 Sa) (slice i1 i2 T))]> param)
    | _, _ => <["VSI" := NA]> (<["MASI" := NA]> param)
    end in
  (* GET FOURIER AMPLITUDE AND POWER AMPLITUDE SPECTRUM *)
  let* '(freq, Famp, Pamp) := fourier Ag dt Td aRMS in
  let FAS := zip_with (λ f F, [f; F]) freq Famp in
  let PAS := zip_with (λ f P, [f; P]) freq Pamp in
  let param := <["FAS" := PyArray2 FAS]> param in
  let param := <["PAS" := PyArray2 FAS]> param in
  (* MEAN PERIOD *)
  let mask := (λ f, (f >? 0.25) && (f <? 20))%num <$> freq in
  let fi := select_mask mask freq in
  let Ci := select_mask mask Famp in
  let param :=
    <["Tm" := PyFloat (np_sum (zip_with (λ C f, nsq C / f)%num Ci fi)
                       / np_sum (nsq <$> Ci))%num]> param in
  (* PREDOMINANT PERIOD *)
  let* Sa_max := py_max Sa in
  let mask := (λ x, x =? Sa_max)%num <$> Sa in
  let param := <["Tp" := PyArray (select_mask mask T)]> param in
  Ok param.
End library.

End gm.

(** ** [RotDxx_spectrum] *)

(** The order of [np.sort] and [np.partition]: the usual one, NaN last. *)
Definition sort_leb (x y : num) : bool :=
  match y with
  | NaN => true
  | _ => (x <=? y)%num
  end.
Definition sort_le (x y : num) : Prop := sort_leb x y = true.

#[global] Instance sort_le_dec x y : Decision (sort_le x y).
Proof. unfold sort_le. apply _. Defined.

Definition np_sort (a : vec) : vec := merge_sort sort_le a.

(** [np.min], which propagates NaN. *)
Definition nmin (x y : num) : num :=
  match x, y with
  | NaN, _ | _, NaN => NaN
  | _, _ => if (y <? x)%num then y else x
  end.

Definition np_min (x : vec) : result num :=
  match x with
  | [] => Raise (ValueError "zero-size array to reduction operation minimum which has no identity")
  | x0 :: xs => Ok (foldl nmin x0 xs)
  end.

Module rotd.

(** numpy's linear interpolation [_lerp(a, b, t)] *)
Definition lerp (a b t : num) : num :=
  let diff_b_a := (b - a)%num in
  if (t >=? 0.5)%num then (b - diff_b_a * (1 - t))%num else (a + diff_b_a * t)%num.

(** [np.percentile] divides [q] by 100 and refuses a quantile outside
    [0, 1], NaN included, before it looks at the data. *)
Definition quantile (q : num) : result Q :=
  match (q / 100)%num with
  | Fin qq =>
      if Qle_bool 0 qq && Qle_bool qq 1 then Ok qq
      else Raise (ValueError "Percentiles must be in the range [0, 100]")
  | _ => Raise (ValueError "Percentiles must be in the range [0, 100]")
  end.

(** The quantile [qq] of a one-dimensional array with the default (linear)
    method: the array is sorted, the virtual index [(n - 1) * qq] falls
    between two neighbours, [previous] and [next] (both the last item once
    the index reaches [n - 1], where numpy takes the index -1), and the
    result is interpolated between them.  An array holding a NaN gives
    NaN. *)
Definition quantile_1d (a : vec) (qq : Q) : num :=
  let n := Z.of_nat (length a) in
  let virtual_index := (inject_Z (n - 1) * qq)%Q in
  let above := Qle_bool (inject_Z (n - 1)) virtual_index in
  let previous_index := if above then (-1)%Z else Qfloor virtual_index in
  let next_index := if above then (-1)%Z else (Qfloor virtual_index + 1)%Z in
  let arr := np_sort a in
  let item (i : Z) := at_ arr (Z.to_nat (if (i <? 0)%Z then n + i else i)) in
  let gamma := Fin (virtual_index - inject_Z previous_index) in
  match last arr with
  | Some NaN => NaN
  | _ => lerp (item previous_index) (item next_index) gamma
  end.

(** [np.percentile(a, q)] for a one-dimensional array *)
Definition percentile (a : vec) (q : num) : result num :=
  let* qq := quantile q in
  Ok (quantile_1d a qq).

(** [for x in xs: s = body(s, x)] with a body that can raise. *)
Fixpoint for_each {S X : Type} (xs : list X) (body : S → X → result S) (s : S) : result S :=
  match xs with
  | [] => Ok s
  | x :: xs' => let* s' := body s x in for_each xs' body s'
  end.

Section library.
(** [np.cos(np.deg2rad(theta))] and [np.sin(np.deg2rad(theta))] for an
    integer angle [theta] in degrees. *)
Context (cos_deg sin_deg : nat → num).

(** The row [Rot_Disp[theta]]:
    [np.max(np.abs(u1 * cos + u2 * sin), axis=0)] *)
Definition rot_disp_row (u1 u2 : mat) (theta : nat) : result vec :=
  np_max_axis0
    (zip_with (λ r1 r2,
       nabs <$> vadd ((λ x, x * cos_deg theta)%num <$> r1)
                     ((λ x, x * sin_deg theta)%num <$> r2)) u1 u2).

(** [Rot_Disp] after the loop over the angles. *)
Definition Rot_Disp (u1 u2 : mat) (n2 : nat) : result mat :=
  for_each (seq 0 180)
    (λ RD theta, let* row := rot_disp_row u1 u2 theta in Ok (<[theta := row]> RD))
    (zeros2 180 n2).

(** [Rot_Acc = Rot_Disp * (2 * np.pi / T) ** 2] *)
Definition Rot_Acc (RD : mat) (T : vec) : mat :=
  (λ row, zip_with (λ d Tj, d * nsq (2 * np_pi / Tj))%num row T) <$> RD.

(** [np.percentile(a, q, axis=0)] for an array of rows of length [n2]:
    the percentile of each column. *)
Definition percentile_axis0 (a : mat) (n2 : nat) (q : num) : result vec :=
  let* qq := quantile q in
  Ok ((λ j, quantile_1d (col a j) qq) <$> seq 0 n2).

Definition RotDxx_spectrum (Ag1 Ag2 : vec) (dt : num) (T : vec) (xi xx : num)
    : result vec :=
  (* Verify if the length of arrays are the same *)
  let '(Ag1, Ag2) :=
    if decide (length Ag1 = length Ag2) then (Ag1, Ag2)
    else if decide (length Ag2 < length Ag1)%nat
      then (Ag1, Ag2 ++ zeros (length Ag1 - length Ag2))
      else (Ag1 ++ zeros (length Ag2 - length Ag1), Ag2) in
  let n2 := length T in
  let m : num := 1 in
  let* h1 := sdof.sdof_ltha Ag1 dt T xi m in
  let u1 := sdof.u h1 in
  let* h2 := sdof.sdof_ltha Ag2 dt T xi m in
  let u2 := sdof.u h2 in
  let* Rot_Disp := Rot_Disp u1 u2 n2 in
  let Rot_Acc := Rot_Acc Rot_Disp T in
  let* Sa_RotDxx := percentile_axis0 Rot_Acc n2 xx in
  Ok Sa_RotDxx.
End library.

End rotd.

(** ** Library functions on small inputs

    Executable stand-ins for the library functions that the models above
    take as parameters, used to run the models on concrete records: the
    discrete Fourier transform on 1, 2 or 4 points, whose roots of unity are
    rational; a square root that is exact on squares of rationals and
    truncated to 15 decimals elsewhere; and Bhaskara's rational
    approximation of the sine. *)

Module small.

(** Complex numbers with rational parts. *)
Definition complex : Type := Q * Q.

(** [(-i) ** j] *)
Definition minus_i_pow (j : nat) : complex :=
  match (j mod 4)%nat with
  | 0%nat => (1, 0)
  | 1%nat => (0, -1)
  | 2%nat => (-1, 0)
  | _ => (0, 1)
  end.

Definition cadd (z w : complex) : complex := (fst z + fst w, snd z + snd w).
Definition cscale (x : Q) (z : complex) : complex := (x * fst z, x * snd z).

Definition to_Q (x : num) : Q := match x with Fin q => q | _ => 0 end.

(** [fft(x, N)] for [N] in 1, 2, 4: [x] is cut or padded with zeros to [N]
    points and [X[k] = sum_n x[n] * exp(-2 pi i n k / N)], where
    [exp(-2 pi i / N) = (-i) ** (4 / N)]. *)
Definition fft (x : vec) (N : nat) : list complex :=
  let xs := take N (x ++ zeros N) in
  (λ k : nat,
     foldl cadd (0, 0)
       (imap (λ n xn, cscale (to_Q xn) (minus_i_pow (4 / N * n * k))) xs))
  <$> seq 0 N.

Definition is_square (n : Z) : bool := (Z.sqrt n * Z.sqrt n =? n)%Z.

Definition qsqrt (q : Q) : Q :=
  let r := Qred q in
  if is_square (Qnum r) && is_square (Zpos (Qden r))
  then Qmake (Z.sqrt (Qnum r)) (Z.to_pos (Z.sqrt (Zpos (Qden r))))
  else Qred (Qmake (Z.sqrt (Qnum r * 10 ^ 30 / Zpos (Qden r))) (10 ^ 15)).

Definition np_sqrt (x : num) : num :=
  match x with
  | Fin q => if Qle_bool 0 q then Fin (qsqrt q) else NaN
  | PInf => PInf
  | _ => NaN
  end.

(** [np.abs] of a complex number *)
Definition np_abs_complex (z : complex) : num :=
  np_sqrt (Fin (fst z * fst z + snd z * snd z)).

(** [x ** 1.5] *)
Definition np_power (x y : num) : num :=
  if (y =? 1.5)%num then (x * np_sqrt x)%num else NaN.

(** Bhaskara's approximation of the sine of an angle of [0 .. 180]
    degrees. *)
Definition sin_bhaskara (theta : Z) : Q :=
  let p := (theta * (180 - theta))%Z in
  Qred (inject_Z (4 * p) / inject_Z (40500 - p)).

Definition sin_deg (theta : nat) : num := Fin (sin_bhaskara (Z.of_nat theta)).
Definition cos_deg (theta : nat) : num :=
  if decide (theta ≤ 90)%nat
  then Fin (sin_bhaskara (90 - Z.of_nat theta))
  else Fin (- sin_bhaskara (Z.of_nat theta - 90)).

End small.

(** ** A record to run the models on

    Four samples at 100 Hz and one period, with 5% damping;
    the library functions are those of [small]. *)

Module example.

Definition Aq : list Q := [1; 2; 1; 0].
Definition Ag : vec := Fin <$> Aq.
Definition dt : Q := 0.01.
Definition Tq : list Q := [0.5].
Definition T : vec := Fin <$> Tq.
Definition xi : Q := 0.05.

Definition get_parameters : result (gmap string pyval) :=
  gm.get_parameters small.fft small.np_abs_complex small.np_sqrt small.np_power
    Ag (Fin dt) T (Fin xi).

(** The dictionary that [get_parameters] returns on this record. *)
Definition param : gmap string pyval :=
  match get_parameters with
  | Ok p => p
  | Raise _ => ∅
  end.

End example.

Definition is_ok {A} (r : result A) : bool :=
  match r with
  | Ok _ => true
  | Raise _ => false
  end.

(** Numbers and values with the rationals in lowest terms. *)
Definition canon (x : num) : num :=
  match x with
  | Fin q => Fin (Qred q)
  | _ => x
  end.

Definition canon_val (v : pyval) : pyval :=
  match v with
  | PyFloat x => PyFloat (canon x)
  | PyArray a => PyArray (canon <$> a)
  | PyArray2 a => PyArray2 ((λ row : vec, canon <$> row) <$> a)
  | PyPair a b => PyPair (canon a) (canon b)
  | PyListOfArray a => PyListOfArray (canon <$> a)
  | PyStr s => PyStr s
  end.

(** ** Stand-ins for the filter design and the polynomial fit

    An all-pass filter: [butter] keeps its arguments as the coefficients and
    [filtfilt] returns the signal; and the fit of the zero polynomial. *)

Module small_scipy.
Definition butter (order : Z) (wn : filter.Wn) (bt : filter.btype)
    : result (Z * filter.Wn * filter.btype) := Ok (order, wn, bt).
Definition filtfilt (ba : Z * filter.Wn * filter.btype) (x : vec) : result vec := Ok x.
Definition polyfit (x y : vec) (deg : nat) : result vec := Ok (zeros (deg + 1)).
Definition polyval (p x : vec) : vec := zeros (length x).
End small_scipy.

(** ** More records

    A record that stays below 0.05 g, a grid with the period 2.5 before
    the period 0.1 and a grid with a zero period, for the stand-ins of
    [small]. *)

Module example2.

Abbreviation run Aq Tq :=
  (gm.get_parameters small.fft small.np_abs_complex small.np_sqrt small.np_power
     (Fin <$> Aq) (Fin example.dt) (Fin <$> Tq) (Fin example.xi)).



End example2.

(** ** The solver in binary64

    The arithmetic of [sdof_ltha] as numpy and Python carry it out: every
    number is an IEEE 754 binary64 value, every operation is rounded to
    nearest, ties to even, and overflows to an infinity.  The powers
    [dt ** 2] (of a Python float, C's [pow]) and [wn ** 2] (of an array,
    numpy's [power]) are library functions. *)

Module sdof64.
#[local] Set Warnings "-inexact-float".
Local Open Scope float_scope.

Abbreviation fvec := (list float).
Abbreviation fmat := (list (list float)).

#[global] Instance float_inhabited : Inhabited float := populate 0.

(** [np.pi] *)
Definition np_pi : float := 0x1.921fb54442d18p+1.

Definition zeros (n : nat) : fvec := replicate n 0.
Definition ones (n : nat) : fvec := replicate n 1.
Definition zeros2 (n1 n2 : nat) : fmat := replicate n1 (zeros n2).

Definition vadd (x y : fvec) : fvec := zip_with PrimFloat.add x y.
Definition vsub (x y : fvec) : fvec := zip_with PrimFloat.sub x y.
Definition vmul (x y : fvec) : fvec := zip_with PrimFloat.mul x y.
Definition vdiv (x y : fvec) : fvec := zip_with PrimFloat.div x y.

Section library.
Context (float_pow : float → float → float).
Context (np_power : float → float → float).

Section coefficients.
Context (dt : float) (T : fvec) (xi m : float).

Definition n2 : nat := length T.

(** [fn = 1 / T] *)
Definition fn : fvec := (λ Tj, 1 / Tj) <$> T.
(** [wn = 2 * np.pi * fn] *)
Definition wn : fvec := (λ f, 2 * np_pi * f) <$> fn.
(** [k = m * wn ** 2] *)
Definition k : fvec := (λ w, m * np_power w 2) <$> wn.
(** [c = 2 * m * wn * xi] *)
Definition c : fvec := (λ w, 2 * m * w * xi) <$> wn.

(** [Gamma = np.ones((1, n2)) * (1 / 2)] *)
Definition Gamma : fvec := (λ o, o * (1 / 2)) <$> ones n2.
(** [Beta = np.ones((1, n2)) * 1 / 6] *)
Definition Beta0 : fvec := (λ o, o * 1 / 6) <$> ones n2.
(** [Beta[np.where(dt / T > 0.55)] = 1 / 4] *)
Definition Beta : fvec :=
  zip_with (λ b Tj, if 0.55 <? dt / Tj then 1 / 4 else b) Beta0 T.

(** [a1 = Gamma / (Beta * dt)] *)
Definition a1 : fvec := zip_with (λ g b, g / (b * dt)) Gamma Beta.
(** [a2 = 1 / (Beta * dt ** 2)] *)
Definition a2 : fvec := (λ b, 1 / (b * float_pow dt 2)) <$> Beta.
(** [a3 = 1 / (Beta * dt)] *)
Definition a3 : fvec := (λ b, 1 / (b * dt)) <$> Beta.
(** [a4 = Gamma / Beta] *)
Definition a4 : fvec := vdiv Gamma Beta.
(** [a5 = 1 / (2 * Beta)] *)
Definition a5 : fvec := (λ b, 1 / (2 * b)) <$> Beta.
(** [a6 = (Gamma / (2 * Beta) - 1) * dt] *)
Definition a6 : fvec := zip_with (λ g b, (g / (2 * b) - 1) * dt) Gamma Beta.
(** [kf = k + a1 * c + a2 * m] *)
Definition kf : fvec := vadd (vadd k (vmul a1 c)) ((λ x, x * m) <$> a2).
(** [a = a3 * m + a4 * c] *)
Definition a : fvec := vadd ((λ x, x * m) <$> a3) (vmul a4 c).
(** [b = a5 * m + a6 * c] *)
Definition b : fvec := vadd ((λ x, x * m) <$> a5) (vmul a6 c).
End coefficients.

(** The four history arrays [u, v, ac, ac_tot]. *)
Record hist : Type := Hist { u : fmat; v : fmat; ac : fmat; ac_tot : fmat }.

Section solver.
Context (Ag : fvec) (dt : float) (T : fvec) (xi m : float).

Definition n1 : nat := length Ag.

(** [p = -m * Ag] *)
Definition p : fvec := (λ g, (- m) * g) <$> Ag.

(** The arrays after "Set the Initial Conditions". *)
Definition init : hist :=
  let u := zeros2 n1 (n2 T) in
  let v := zeros2 n1 (n2 T) in
  let ac := zeros2 n1 (n2 T) in
  let ac_tot := zeros2 n1 (n2 T) in
  (* u[0] = 0 *)
  let u := <[0%nat := zeros (n2 T)]> u in
  (* v[0] = 0 *)
  let v := <[0%nat := zeros (n2 T)]> v in
  (* ac[0] = (p[0] - c * v[0] - k * u[0]) / m *)
  let ac := <[0%nat :=
    (λ x, x / m) <$>
      vsub ((λ x, at_ p 0 - x) <$> vmul (c T xi m) (at_ v 0))
           (vmul (k T m) (at_ u 0))]> ac in
  (* ac_tot[0] = ac[0] + Ag[0] *)
  let ac_tot := <[0%nat := (λ x, x + at_ Ag 0) <$> at_ ac 0]> ac_tot in
  Hist u v ac ac_tot.

(** One turn of [for i in range(n1 - 1)]. *)
Definition step (h : hist) (i : nat) : hist :=
  (* dpf = (p[i + 1] - p[i]) + a * v[i] + b * ac[i] *)
  let dpf :=
    vadd ((λ x, (at_ p (i + 1) - at_ p i) + x) <$> vmul (a dt T xi m) (at_ (v h) i))
         (vmul (b dt T xi m) (at_ (ac h) i)) in
  (* du = dpf / kf *)
  let du := vdiv dpf (kf dt T xi m) in
  (* dv = a1 * du - a4 * v[i] - a6 * ac[i] *)
  let dv :=
    vsub (vsub (vmul (a1 dt T) du) (vmul (a4 dt T) (at_ (v h) i)))
         (vmul (a6 dt T) (at_ (ac h) i)) in
  (* da = a2 * du - a3 * v[i] - a5 * ac[i] *)
  let da :=
    vsub (vsub (vmul (a2 dt T) du) (vmul (a3 dt T) (at_ (v h) i)))
         (vmul (a5 dt T) (at_ (ac h) i)) in
  let u' := <[(i + 1)%nat := vadd (at_ (u h) i) du]> (u h) in
  let v' := <[(i + 1)%nat := vadd (at_ (v h) i) dv]> (v h) in
  let ac' := <[(i + 1)%nat := vadd (at_ (ac h) i) da]> (ac h) in
  let ac_tot' :=
    <[(i + 1)%nat := (λ x, x + at_ Ag (i + 1)) <$> at_ ac' (i + 1)]> (ac_tot h) in
  Hist u' v' ac' ac_tot'.

Definition loop (h : hist) : hist := foldl step h (seq 0 (n1 - 1)).

(** [u[0] = 0] on an array without rows raises [IndexError]. *)
Definition sdof_ltha : result hist :=
  if decide (n1 = 0)%nat then Raise IndexError else Ok (loop init).
End solver.
End library.

(** The square, for both powers where a stand-in is wanted. *)
Definition square_pow (x y : float) : float := x * x.

End sdof64.

(** * Properties *)

(** ** Arithmetic of extended numbers *)

Lemma Qeq_bool_false (x y : Q) : ¬ x == y → Qeq_bool x y = false.
Proof.
  intros Hne. destruct (Qeq_bool x y) eqn:E; [|done].
  by apply Qeq_bool_eq in E.
Qed.

Lemma ndiv_fin (x y : Q) : ¬ y == 0 → (Fin x / Fin y)%num = Fin (x / y).
Proof. intros Hy. simpl. by rewrite Qeq_bool_false. Qed.

Lemma nleb_not_gtb (x y : num) : (x <=? y)%num = true → (x >? y)%num = false.
Proof.
  unfold nleb, ngtb, nltb.
  destruct x as [a| | |], y as [b| | |]; simpl; try done.
  rewrite <- (Qcompare_antisym a b).
  by destruct (a ?= b).
Qed.

Lemma ngtb_not_leb (x y : num) : (x >? y)%num = true → (x <=? y)%num = false.
Proof.
  intros H. destruct (x <=? y)%num eqn:E; [|done].
  apply nleb_not_gtb in E. congruence.
Qed.

(** ** The SDOF solver *)

Module sdof_facts.
Import sdof.

(** *** Shapes *)

Ltac len :=
  repeat first
    [ rewrite length_fmap | rewrite length_zip_with | rewrite length_replicate
    | rewrite length_insert | rewrite length_seq ];
  try lia.

Section shapes.
Context (dt : num) (T : vec) (xi m : num).

Lemma length_Gamma : length (Gamma T) = length T.
Proof. unfold Gamma, ones, n2. len. Qed.
Lemma length_Beta : length (Beta dt T) = length T.
Proof. unfold Beta, Beta0, ones, n2. len. Qed.
Lemma length_k : length (k T m) = length T.
Proof. unfold k, wn, fn. len. Qed.
Lemma length_c : length (c T xi m) = length T.
Proof. unfold c, wn, fn. len. Qed.
Lemma length_a1 : length (a1 dt T) = length T.
Proof. unfold a1. rewrite length_zip_with, length_Gamma, length_Beta. lia. Qed.
Lemma length_a2 : length (a2 dt T) = length T.
Proof. unfold a2. by rewrite length_fmap, length_Beta. Qed.
Lemma length_a3 : length (a3 dt T) = length T.
Proof. unfold a3. by rewrite length_fmap, length_Beta. Qed.
Lemma length_a4 : length (a4 dt T) = length T.
Proof. unfold a4, vdiv. rewrite length_zip_with, length_Gamma, length_Beta. lia. Qed.
Lemma length_a5 : length (a5 dt T) = length T.
Proof. unfold a5. by rewrite length_fmap, length_Beta. Qed.
Lemma length_a6 : length (a6 dt T) = length T.
Proof. unfold a6. rewrite length_zip_with, length_Gamma, length_Beta. lia. Qed.
Lemma length_kf : length (kf dt T xi m) = length T.
Proof.
  unfold kf, vadd, vmul.
  rewrite !length_zip_with, length_fmap, length_k, length_a1, length_c, length_a2. lia.
Qed.
Lemma length_a : length (a dt T xi m) = length T.
Proof.
  unfold a, vadd, vmul.
  rewrite !length_zip_with, length_fmap, length_a3, length_a4, length_c. lia.
Qed.
Lemma length_b : length (b dt T xi m) = length T.
Proof.
  unfold b, vadd, vmul.
  rewrite !length_zip_with, length_fmap, length_a5, length_a6, length_c. lia.
Qed.
End shapes.

(** An array of shape [(r, s)]. *)
Definition shape (r s : nat) (M : mat) : Prop :=
  length M = r ∧ Forall (λ row, length row = s) M.

Lemma shape_zeros2 r s : shape r s (zeros2 r s).
Proof.
  split; unfold zeros2; [by rewrite length_replicate|].
  apply Forall_replicate. unfold zeros. by rewrite length_replicate.
Qed.

Lemma shape_insert r s M i row :
  shape r s M → length row = s → shape r s (<[i:=row]> M).
Proof.
  intros [HM HF] Hrow. split; [by rewrite length_insert|].
  by apply Forall_insert.
Qed.

Lemma shape_at r s M i : shape r s M → (i < r)%nat → length (at_ M i) = s.
Proof.
  intros [HM HF] Hi. unfold at_.
  destruct (lookup_lt_is_Some_2 M i) as [row Hrow]; [lia|].
  rewrite (list_lookup_total_correct _ _ _ Hrow).
  by eapply (Forall_lookup_1 _ _ _ _ HF).
Qed.

Lemma shape_col r s M j : shape r s M → length (col M j) = r.
Proof. intros [HM _]. unfold col. by rewrite length_fmap. Qed.

(** All four histories have shape [(r, s)]. *)
Definition hist_shape (r s : nat) (h : hist) : Prop :=
  shape r s (u h) ∧ shape r s (v h) ∧ shape r s (ac h) ∧ shape r s (ac_tot h).

Section run.
Context (Ag : vec) (dt : num) (T : vec) (xi m : num).

Lemma init_shape :
  (0 < length Ag)%nat → hist_shape (length Ag) (length T) (init Ag T xi m).
Proof.
  intros Hn. unfold init, n1, n2.
  set (z := zeros2 (length Ag) (length T)).
  assert (Hz : shape (length Ag) (length T) z) by apply shape_zeros2.
  assert (Hz0 : length (zeros (length T)) = length T)
    by (unfold zeros; by rewrite length_replicate).
  assert (H0 : at_ (<[0%nat:=zeros (length T)]> z) 0 = zeros (length T)).
  { unfold at_. apply list_lookup_total_correct, list_lookup_insert_eq.
    destruct Hz as [-> _]. lia. }
  assert (Hac : shape (length Ag) (length T)
    (<[0%nat := (λ x, x / m)%num <$>
      vsub ((λ x, at_ (p Ag m) 0 - x)%num <$>
              vmul (c T xi m) (at_ (<[0%nat:=zeros (length T)]> z) 0))
           (vmul (k T m) (at_ (<[0%nat:=zeros (length T)]> z) 0))]> z)).
  { apply shape_insert; [done|]. rewrite H0. unfold vsub, vmul.
    rewrite length_fmap, !length_zip_with, length_fmap, length_zip_with.
    rewrite length_c, length_k, Hz0. lia. }
  assert (Hat : length (at_ (<[0%nat := (λ x, x / m)%num <$>
      vsub ((λ x, at_ (p Ag m) 0 - x)%num <$>
              vmul (c T xi m) (at_ (<[0%nat:=zeros (length T)]> z) 0))
           (vmul (k T m) (at_ (<[0%nat:=zeros (length T)]> z) 0))]> z) 0)
          = length T)
    by (eapply shape_at; [apply Hac|lia]).
  split; [|split; [|split]]; simpl.
  - by apply shape_insert.
  - by apply shape_insert.
  - apply Hac.
  - apply shape_insert; [done|]. by rewrite length_fmap.
Qed.

Lemma step_shape h i :
  (i + 1 < length Ag)%nat →
  hist_shape (length Ag) (length T) h →
  hist_shape (length Ag) (length T) (step Ag dt T xi m h i).
Proof.
  intros Hi (Hu & Hv & Hac & Htot).
  assert (Lu := shape_at _ _ _ i Hu ltac:(lia)).
  assert (Lv := shape_at _ _ _ i Hv ltac:(lia)).
  assert (Lac := shape_at _ _ _ i Hac ltac:(lia)).
  unfold step. cbv zeta.
  set (dpf := vadd (_ <$> _) _).
  assert (Ldpf : length dpf = length T).
  { unfold dpf, vadd, vmul.
    rewrite length_zip_with, length_fmap, !length_zip_with, length_a, length_b, Lv, Lac. lia. }
  set (du := vdiv dpf _).
  assert (Ldu : length du = length T).
  { unfold du, vdiv. rewrite length_zip_with, Ldpf, length_kf. lia. }
  assert (Hac' : shape (length Ag) (length T)
    (<[(i + 1)%nat := vadd (at_ (ac h) i)
        (vsub (vsub (vmul (a2 dt T) du) (vmul (a3 dt T) (at_ (v h) i)))
              (vmul (a5 dt T) (at_ (ac h) i)))]> (ac h))).
  { apply shape_insert; [done|]. unfold vadd, vsub, vmul.
    rewrite !length_zip_with, length_a2, length_a3, length_a5, Ldu, Lv, Lac. lia. }
  repeat split; simpl; try apply Hac'.
  - rewrite length_insert. apply Hu.
  - apply Forall_insert; [apply Hu|]. unfold vadd.
    rewrite length_zip_with, Lu, Ldu. lia.
  - rewrite length_insert. apply Hv.
  - apply Forall_insert; [apply Hv|]. unfold vadd, vsub, vmul.
    rewrite !length_zip_with, length_a1, length_a4, length_a6, Ldu, Lv, Lac. lia.
  - rewrite length_insert. apply Htot.
  - apply Forall_insert; [apply Htot|].
    rewrite length_fmap. eapply shape_at; [apply Hac'|lia].
Qed.

Lemma steps_shape (ix : list nat) h :
  Forall (λ i, i + 1 < length Ag)%nat ix →
  hist_shape (length Ag) (length T) h →
  hist_shape (length Ag) (length T) (foldl (step Ag dt T xi m) h ix).
Proof.
  revert h. induction ix as [|i ix IH]; intros h Hall Hh; simpl; [done|].
  inversion Hall; subst. apply IH; [done|]. by apply step_shape.
Qed.

Lemma loop_shape h :
  hist_shape (length Ag) (length T) h →
  hist_shape (length Ag) (length T) (loop Ag dt T xi m h).
Proof.
  intros Hh. apply steps_shape; [|done].
  apply Forall_forall. intros i Hi.
  apply list_elem_of_In, in_seq in Hi. unfold n1 in Hi. lia.
Qed.

(** The loop writes rows [1 ..] only: row [0] stays as initialised. *)
Lemma step_row0 h i :
  at_ (ac_tot (step Ag dt T xi m h i)) 0 = at_ (ac_tot h) 0
  ∧ at_ (ac (step Ag dt T xi m h i)) 0 = at_ (ac h) 0.
Proof.
  unfold step, at_; simpl. split; apply list_lookup_total_insert_ne; lia.
Qed.

Lemma loop_row0 h :
  at_ (ac_tot (loop Ag dt T xi m h)) 0 = at_ (ac_tot h) 0
  ∧ at_ (ac (loop Ag dt T xi m h)) 0 = at_ (ac h) 0.
Proof.
  unfold loop. generalize (seq 0 (n1 Ag - 1)). intros ix. revert h.
  induction ix as [|i ix IH]; intros h; simpl; [done|].
  destruct (IH (step Ag dt T xi m h i)) as [-> ->]. apply step_row0.
Qed.
End run.

(** C9. [sdof_ltha] on a non-empty record of length [n] returns four
    histories of shape [(n, n2)]: for every period [j] the relative
    displacement, relative velocity, relative acceleration and total
    acceleration histories have length exactly [n]. *)
Theorem sdof_ltha_history_lengths (Ag : vec) (dt : num) (T : vec) (xi m : num) :
  Ag ≠ [] →
  ∃ h, sdof_ltha Ag dt T xi m = Ok h
    ∧ hist_shape (length Ag) (length T) h
    ∧ ∀ j, (j < length T)%nat →
        length (col (u h) j) = length Ag ∧ length (col (v h) j) = length Ag
        ∧ length (col (ac h) j) = length Ag ∧ length (col (ac_tot h) j) = length Ag.
Proof.
  intros Hne.
  assert (Hn : (0 < length Ag)%nat) by (destruct Ag; [done|simpl; lia]).
  exists (loop Ag dt T xi m (init Ag T xi m)).
  assert (Hs := loop_shape Ag dt T xi m _ (init_shape Ag T xi m Hn)).
  split; [|split; [done|]].
  - unfold sdof_ltha, n1. case_decide; [lia|done].
  - destruct Hs as (Hu & Hv & Hac & Htot). intros j _.
    rewrite !(shape_col (length Ag) (length T)); done.
Qed.

(** The record of five samples of the end-to-end scenario, at one period. *)
Lemma sdof_ltha_history_lengths_witness :
  ∃ h, sdof_ltha [Fin 0; Fin 9.81; Fin 0; Fin (-9.81); Fin 0] (Fin 0.01)
         [Fin 0.5] (Fin 0.05) (Fin 1) = Ok h
    ∧ hist_shape 5 1 h
    ∧ ∀ j, (j < 1)%nat →
        length (col (u h) j) = 5%nat ∧ length (col (v h) j) = 5%nat
        ∧ length (col (ac h) j) = 5%nat ∧ length (col (ac_tot h) j) = 5%nat.
Proof.
  apply (sdof_ltha_history_lengths
           [Fin 0; Fin 9.81; Fin 0; Fin (-9.81); Fin 0] (Fin 0.01)
           [Fin 0.5] (Fin 0.05) (Fin 1)).
  discriminate.
Defined.

(** *** Newmark parameters *)

Lemma Gamma_lookup (T : vec) j Tj :
  T !! j = Some Tj → Gamma T !! j = Some (Fin (1 # 2)).
Proof.
  intros HT. unfold Gamma, ones, n2.
  rewrite list_lookup_fmap, lookup_replicate_2; [done|].
  by eapply lookup_lt_Some.
Qed.

Lemma Beta_lookup (dt : num) (T : vec) j Tj :
  T !! j = Some Tj →
  Beta dt T !! j = Some (if (dt / Tj >? 0.55)%num then Fin (1 # 4) else Fin (1 # 6)).
Proof.
  intros HT. unfold Beta, Beta0, ones, n2.
  rewrite lookup_zip_with, list_lookup_fmap, lookup_replicate_2, HT;
    [done|by eapply lookup_lt_Some].
Qed.

(** C1. For every time step and period grid the solver's [Gamma] is 1/2 at
    every period, and its [Beta] is chosen period by period: 1/6 at a period
    [Tj] with [dt / Tj <= 0.55] and 1/4 at a period with [dt / Tj > 0.55];
    one grid can hold periods of both kinds, so that [Beta] takes both
    values in one invocation. *)
Theorem newmark_parameters_per_period :
  (∀ (dt : num) (T : vec) (j : nat) (Tj : num),
      T !! j = Some Tj →
      Gamma T !! j = Some (Fin (1 # 2))
      ∧ ((dt / Tj <=? 0.55)%num = true → Beta dt T !! j = Some (Fin (1 # 6)))
      ∧ ((dt / Tj >? 0.55)%num = true → Beta dt T !! j = Some (Fin (1 # 4))))
  ∧ Beta (Fin 0.01) [Fin 0.5; Fin 0.01] = [Fin (1 # 6); Fin (1 # 4)].
Proof.
  split; [|reflexivity].
  intros dt T j Tj HT. split; [by eapply Gamma_lookup|].
  rewrite (Beta_lookup dt T j Tj HT). split; intros H.
  - by rewrite (nleb_not_gtb _ _ H).
  - by rewrite H.
Qed.

(** At [dt = 0.01] the period 0.5 takes 1/6 and the period 0.01 takes 1/4. *)
Lemma newmark_parameters_per_period_witness :
  Gamma [Fin 0.5; Fin 0.01] !! 1%nat = Some (Fin (1 # 2))
  ∧ Beta (Fin 0.01) [Fin 0.5; Fin 0.01] !! 0%nat = Some (Fin (1 # 6))
  ∧ Beta (Fin 0.01) [Fin 0.5; Fin 0.01] !! 1%nat = Some (Fin (1 # 4)).
Proof.
  destruct newmark_parameters_per_period as [H _].
  destruct (H (Fin 0.01) [Fin 0.5; Fin 0.01] 0%nat (Fin 0.5) eq_refl) as (_ & H0 & _).
  destruct (H (Fin 0.01) [Fin 0.5; Fin 0.01] 1%nat (Fin 0.01) eq_refl) as (G1 & _ & H1).
  split; [exact G1|]. split; [apply H0|apply H1]; reflexivity.
Defined.

(** *** The first sample *)

Definition finite (x : num) : Prop := is_fin x = true.

Section first_sample.
Context (Tq : list Q) (xi m : Q).
Hypothesis Tpos : Forall (λ t, 0 < t) Tq.

Lemma wn_finite : Forall finite (wn (Fin <$> Tq)).
Proof.
  unfold wn, fn. rewrite !Forall_fmap.
  eapply Forall_impl; [exact Tpos|]. intros t Ht. unfold finite. simpl in *.
  rewrite Qeq_bool_false; [done|]. intros E. rewrite E in Ht. by apply Qlt_irrefl in Ht.
Qed.

Lemma c_finite : Forall finite (c (Fin <$> Tq) (Fin xi) (Fin m)).
Proof.
  unfold c. rewrite Forall_fmap.
  eapply Forall_impl; [exact wn_finite|]. by intros [w| | |] Hw.
Qed.

Lemma k_finite : Forall finite (k (Fin <$> Tq) (Fin m)).
Proof.
  unfold k. rewrite Forall_fmap.
  eapply Forall_impl; [exact wn_finite|]. by intros [w| | |] Hw.
Qed.
End first_sample.

Lemma init_row0 (Ag T : vec) (xi m : num) :
  (0 < length Ag)%nat →
  let ac0 := (λ x, x / m)%num <$>
      vsub ((λ x, at_ (p Ag m) 0 - x)%num <$> vmul (c T xi m) (zeros (length T)))
           (vmul (k T m) (zeros (length T))) in
  at_ (ac (init Ag T xi m)) 0 = ac0
  ∧ at_ (ac_tot (init Ag T xi m)) 0 = (λ x, x + at_ Ag 0)%num <$> ac0.
Proof.
  intros Hn ac0. unfold init, n1, n2, at_; simpl.
  assert (Hz : (0 < length (zeros2 (length Ag) (length T)))%nat)
    by (unfold zeros2; rewrite length_replicate; lia).
  rewrite !list_lookup_total_insert_eq by done. done.
Qed.

(** The first relative and total accelerations, for a finite first sample
    [a0], finite positive periods and a finite non-zero mass. *)
Lemma first_sample_rows (a0 : Q) (rest : vec) (Tq : list Q) (xi m : Q) :
  Forall (λ t, 0 < t) Tq → ¬ m == 0 →
  let h0 := init (Fin a0 :: rest) (Fin <$> Tq) (Fin xi) (Fin m) in
  Forall (λ x, x ≈ Fin (- a0))%num (at_ (ac h0) 0)
  ∧ Forall (λ x, x ≈ Fin 0)%num (at_ (ac_tot h0) 0).
Proof.
  intros Tpos Hm h0.
  destruct (init_row0 (Fin a0 :: rest) (Fin <$> Tq) (Fin xi) (Fin m)) as [Hac Htot];
    [simpl; lia|].
  fold h0 in Hac, Htot. rewrite Htot, Hac. clear Hac Htot h0.
  assert (Hrow : ∀ j x,
    ((λ x, x / Fin m)%num <$>
      vsub ((λ x, at_ (p (Fin a0 :: rest) (Fin m)) 0 - x)%num <$>
              vmul (c (Fin <$> Tq) (Fin xi) (Fin m)) (zeros (length (Fin <$> Tq))))
           (vmul (k (Fin <$> Tq) (Fin m)) (zeros (length (Fin <$> Tq))))) !! j = Some x →
    ∃ q, x = Fin q ∧ q == - a0).
  { intros j x Hx. unfold vsub, vmul in Hx.
    apply list_lookup_fmap_Some in Hx as (y & -> & Hy).
    apply lookup_zip_with_Some in Hy as (y1 & y2 & -> & Hy1 & Hy2).
    apply list_lookup_fmap_Some in Hy1 as (y3 & -> & Hy3).
    apply lookup_zip_with_Some in Hy3 as (cj & z1 & -> & Hcj & Hz1).
    apply lookup_zip_with_Some in Hy2 as (kj & z2 & -> & Hkj & Hz2).
    apply lookup_replicate in Hz1 as [-> _]. apply lookup_replicate in Hz2 as [-> _].
    assert (Hc := Forall_lookup_1 _ _ _ _ (c_finite Tq xi m Tpos) Hcj).
    assert (Hk := Forall_lookup_1 _ _ _ _ (k_finite Tq m Tpos) Hkj).
    destruct cj as [cq| | |], kj as [kq| | |]; try done.
    unfold at_, p; simpl. rewrite Qeq_bool_false by done.
    eexists; split; [done|]. field. done. }
  split.
  - apply Forall_lookup_2. intros j x Hx.
    destruct (Hrow j x Hx) as (q & -> & Hq). done.
  - apply Forall_lookup_2. intros j x Hx.
    apply list_lookup_fmap_Some in Hx as (y & -> & Hy).
    destruct (Hrow j y Hy) as (q & -> & Hq). simpl. rewrite Hq. lra.
Qed.

(** In exact arithmetic: for every record with a finite first sample [a0],
    every time step, every grid of finite strictly positive periods, every
    finite damping ratio and every finite mass other than zero, the first
    relative acceleration is [-a0] and the first total acceleration is zero,
    at every period.  In binary64 this holds for the mass 1; see
    [sdof64_facts]. *)
Lemma first_total_acceleration_zero_exact
    (a0 : Q) (rest : vec) (dt : num) (Tq : list Q) (xi m : Q) :
  Forall (λ t, 0 < t) Tq → ¬ m == 0 →
  ∃ h row_ac row_tot,
    sdof_ltha (Fin a0 :: rest) dt (Fin <$> Tq) (Fin xi) (Fin m) = Ok h
    ∧ ac h !! 0%nat = Some row_ac ∧ ac_tot h !! 0%nat = Some row_tot
    ∧ length row_ac = length Tq ∧ length row_tot = length Tq
    ∧ Forall (λ x, x ≈ Fin (- a0))%num row_ac
    ∧ Forall (λ x, x ≈ Fin 0)%num row_tot.
Proof.
  intros Tpos Hm.
  set (Ag := Fin a0 :: rest). set (T := Fin <$> Tq).
  assert (Hn : (0 < length Ag)%nat) by (simpl; lia).
  set (h := loop Ag dt T (Fin xi) (Fin m) (init Ag T (Fin xi) (Fin m))).
  destruct (loop_shape Ag dt T (Fin xi) (Fin m) _ (init_shape Ag T (Fin xi) (Fin m) Hn))
    as (_ & _ & Hac & Htot).
  fold h in Hac, Htot.
  destruct (loop_row0 Ag dt T (Fin xi) (Fin m) (init Ag T (Fin xi) (Fin m))) as [Rtot Rac].
  fold h in Rtot, Rac.
  destruct (first_sample_rows a0 rest Tq xi m Tpos Hm) as [Fac Ftot].
  fold Ag T in Fac, Ftot. rewrite <- Rac in Fac. rewrite <- Rtot in Ftot.
  exists h, (at_ (ac h) 0), (at_ (ac_tot h) 0).
  split; [unfold sdof_ltha, n1; case_decide; [lia|done]|].
  split; [apply list_lookup_lookup_total_lt; destruct Hac as [-> _]; lia|].
  split; [apply list_lookup_lookup_total_lt; destruct Htot as [-> _]; lia|].
  split; [rewrite (shape_at _ _ _ 0 Hac Hn); unfold T; by rewrite length_fmap|].
  split; [rewrite (shape_at _ _ _ 0 Htot Hn); unfold T; by rewrite length_fmap|].
  done.
Qed.

End sdof_facts.

(** ** The Butterworth filter *)

Module filter_facts.
Import filter.

Section scipy.
Context {coeffs : Type}.
Context (butter : Z → Wn → btype → result coeffs).
Context (filtfilt : coeffs → vec → result vec).

Lemma py_div_Ok_inv (x y z : num) :
  py_div x y = Ok z → (y =? 0)%num = false ∧ z = (x / y)%num.
Proof. unfold py_div. destruct (y =? 0)%num; [done|]. by intros [= <-]. Qed.

(** [run] for a missing cut-off never reaches the design of the filter:
    it stops at the division by [dt], in the padding, or at the
    normalisation of the cut-off. *)
Lemma run_Item_None (values : vec) (dt : num) (ft : btype) (kw : kwargs) :
  run butter filtfilt values dt ft (Item None) kw = Raise ZeroDivisionError
  ∨ run butter filtfilt values dt ft (Item None) kw = Raise OverflowError
  ∨ run butter filtfilt values dt ft (Item None) kw = Raise TypeError.
Proof.
  unfold run. destruct (py_div 1 dt) as [sr|e] eqn:Hsr; simpl.
  - destruct (pad values _ _ _) as [[[vf s] f]|e] eqn:Hpad; simpl; [by right; right|].
    right; left. unfold pad in Hpad.
    destruct (kw_remove_gibbs kw); [|done].
    unfold ceil_log2 in Hpad. case_decide; simpl in Hpad; congruence.
  - left. unfold py_div in Hsr. destruct (dt =? 0)%num; congruence.
Qed.

(** C2. The pair [(None, None)] passes the validation of [cut_off], which
    takes it for a lowpass filter with the cut-off [None]; whatever the
    signal, the time step and the keyword arguments, the call then fails,
    never with the [ValueError] of the validation: with [TypeError] when
    [None] is divided by the Nyquist frequency, after the sampling rate and
    the padded signal have been computed, unless the division by [dt] or the
    padding has failed before. *)
Theorem cut_off_none_none (values : vec) (dt : num) (kw : kwargs) :
  select (Seq [None; None]) = Ok (low, Item None)
  ∧ (∀ msg, butterworth_filter butter filtfilt values dt (Seq [None; None]) kw
            ≠ Raise (ValueError msg))
  ∧ butterworth_filter butter filtfilt [Fin 0; Fin 9.81; Fin 0] (Fin 0.01)
      (Seq [None; None]) no_kwargs = Raise TypeError
  ∧ butterworth_filter butter filtfilt [Fin 0; Fin 9.81; Fin 0] (Fin 0.01)
      (Seq [None; None]) (Kwargs None (Some "mid") None None) = Raise TypeError.
Proof.
  split; [done|]. split; [|split; reflexivity].
  intros msg. unfold butterworth_filter. simpl.
  destruct (run_Item_None values dt low kw) as [-> | [-> | ->]]; discriminate.
Qed.

(** C3, as stated, at the pair [(None, 15)]. A pair whose low item is [None]
    does not select a highpass filter: [(None, 15)] selects a lowpass filter
    at 15. *)
Lemma low_none_not_highpass :
  select (Seq [None; Some (Fin 15)]) = Ok (low, Item (Some (Fin 15)))
  ∧ select (Seq [None; Some (Fin 15)]) ≠ Ok (high, Item (Some (Fin 15)))
  ∧ select (Seq [Some (Fin 15); None]) ≠ Ok (low, Item (Some (Fin 15))).
Proof. split; [reflexivity|]. split; discriminate. Qed.

(** C3 as amended. A pair whose low item is [None] selects a lowpass filter
    at the high item [f], and a pair whose high item is [None] selects a
    highpass filter at the low item [f]: with the sampling rate [1 / dt] and
    the padded signal, [butter] is called with the critical frequency
    [f / nyq] and the type ['low'], respectively ['high'], and [filtfilt]
    with its result; a pair of two frequencies selects a bandpass filter. *)
Theorem filter_type_selection (values : vec) (dt : num) (kw : kwargs) (f f1 f2 : num) :
  select (Seq [None; Some f]) = Ok (low, Item (Some f))
  ∧ select (Seq [Some f; None]) = Ok (high, Item (Some f))
  ∧ select (Seq [Some f1; Some f2]) = Ok (band, Both f1 f2)
  ∧ butterworth_filter butter filtfilt values dt (Seq [None; Some f]) kw =
      (let* sampling_rate := py_div 1 dt in
       let nyq := (sampling_rate * 0.5)%num in
       let* '(padded, s_len, f_len) :=
         pad values (kw_remove_gibbs kw) (default 1%nat (kw_gibbs_extra kw))
           (default 50%nat (kw_gibbs_range kw)) in
       let* w := py_div f nyq in
       let* ba := butter (default 4%Z (kw_filter_order kw)) (Wn_scalar w) low in
       let* y := filtfilt ba padded in
       Ok (take (f_len - s_len) (drop s_len y)))
  ∧ butterworth_filter butter filtfilt values dt (Seq [Some f; None]) kw =
      (let* sampling_rate := py_div 1 dt in
       let nyq := (sampling_rate * 0.5)%num in
       let* '(padded, s_len, f_len) :=
         pad values (kw_remove_gibbs kw) (default 1%nat (kw_gibbs_extra kw))
           (default 50%nat (kw_gibbs_range kw)) in
       let* w := py_div f nyq in
       let* ba := butter (default 4%Z (kw_filter_order kw)) (Wn_scalar w) high in
       let* y := filtfilt ba padded in
       Ok (take (f_len - s_len) (drop s_len y))).
Proof.
  repeat split; try reflexivity.
  - unfold butterworth_filter, run; simpl.
    destruct (py_div 1 dt) as [sr|]; simpl; [|done].
    destruct (pad values _ _ _) as [[[vf s] e]|]; simpl; [|done].
    by destruct (py_div f _).
  - unfold butterworth_filter, run; simpl.
    destruct (py_div 1 dt) as [sr|]; simpl; [|done].
    destruct (pad values _ _ _) as [[[vf s] e]|]; simpl; [|done].
    by destruct (py_div f _).
Qed.

(** The filter does look at [dt], but only through [1.0 / dt]. *)
Lemma filter_dt_zero (values : vec) (kw : kwargs) (ft : btype) (c : cut_off_val) :
  run butter filtfilt values (Fin 0) ft c kw = Raise ZeroDivisionError.
Proof. reflexivity. Qed.
End scipy.

End filter_facts.

(** ** The intensity measures *)

Module gm_facts.
Import gm.

Lemma rbind_Ok_inv {A B} (r : result A) (k : A → result B) (b : B) :
  rbind r k = Ok b → ∃ a, r = Ok a ∧ k a = Ok b.
Proof. destruct r as [a|e]; simpl; [eauto|discriminate]. Qed.

Lemma Ok_inj {A} (a b : A) : Ok a = Ok b → a = b.
Proof. by intros [= ->]. Qed.

(** Looks a key up in a dictionary built by assignments. *)
Ltac map_key :=
  repeat first
    [ rewrite lookup_insert_eq
    | rewrite lookup_insert_ne by discriminate
    | match goal with
      | |- context [match ?x with _ => _ end] => destruct x
      end ];
  try reflexivity.

Ltac bind_inv H a Ha :=
  apply rbind_Ok_inv in H as (a & Ha & H); cbv beta in H.

(** *** Finite numbers in increasing order *)

Definition fin_le (x y : num) : Prop :=
  match x, y with
  | Fin a, Fin b => a <= b
  | _, _ => False
  end.

#[global] Instance fin_le_trans : Transitive fin_le.
Proof. intros [a| | |] [b| | |] [c| | |]; simpl; try done. apply Qle_trans. Qed.

Lemma fin_le_nleb (x y : num) : fin_le x y → (x <=? y)%num = true.
Proof.
  destruct x as [a| | |], y as [b| | |]; simpl; try done.
  intros Hab. unfold nleb; simpl.
  by destruct (a ?= b) eqn:E.
Qed.

Lemma StronglySorted_lookup {A} (R : relation A) (l : list A) i j x y :
  StronglySorted R l → (i < j)%nat → l !! i = Some x → l !! j = Some y → R x y.
Proof.
  intros Hs. revert i j. induction Hs as [|z l Hs IH Hall]; intros i j Hij Hi Hj; [done|].
  destruct j as [|j]; [lia|]. destruct i as [|i]; simpl in *.
  - injection Hi as <-. eapply Forall_lookup_1; eauto.
  - eapply (IH i j); [lia|done..].
Qed.

(** The running sums of non-negative rationals increase. *)
Lemma cumsum_from_sorted (l : list Q) (a : Q) :
  Forall (λ q, 0 <= q) l →
  Sorted fin_le (Fin a :: cumsum_from (Fin a) (Fin <$> l)).
Proof.
  revert a. induction l as [|b l IH]; intros a Hl; simpl.
  - repeat constructor.
  - inversion Hl; subst. constructor; [by apply IH|].
    constructor. simpl. lra.
Qed.

Lemma np_cumsum_sorted (l : list Q) :
  Forall (λ q, 0 <= q) l → Sorted fin_le (np_cumsum (Fin <$> l)).
Proof.
  destruct l as [|a l]; simpl; [constructor|].
  intros Hl. inversion Hl; subst. by apply cumsum_from_sorted.
Qed.

Lemma squares_nonneg (Aq : list Q) :
  nsq <$> (Fin <$> Aq) = Fin <$> ((λ a, a * a) <$> Aq)
  ∧ Forall (λ q, 0 <= q) ((λ a, a * a) <$> Aq).
Proof.
  split.
  - rewrite <- !list_fmap_compose. done.
  - rewrite Forall_fmap. apply Forall_true. intros a. simpl. nra.
Qed.

(** The Arias curve of a finite record sampled at [d >= 0] is a sequence of
    finite numbers in increasing order, none of them negative. *)
Lemma arias_curve_sorted (Aq : list Q) (d : Q) :
  0 <= d → Sorted fin_le (arias_curve (Fin <$> Aq) (Fin d))
           ∧ Forall (fin_le (Fin 0)) (arias_curve (Fin <$> Aq) (Fin d)).
Proof.
  intros Hd. unfold arias_curve.
  destruct (squares_nonneg Aq) as [-> Hsq].
  assert (Hpi : 0 < 884279719003555 # 281474976710656) by done.
  split.
  - eapply Sorted_fmap; [|by apply np_cumsum_sorted].
    intros [x| | |] [y| | |]; simpl; try done. intros Hxy.
    apply Qmult_le_compat_r; [|done].
    apply Qmult_le_compat_r; [|done]. apply Qmult_le_compat_r; [done|lra].
  - rewrite Forall_fmap.
    assert (Hcs : ∀ l a, 0 <= a → Forall (λ q, 0 <= q) l →
              Forall (fin_le (Fin 0) ∘ (λ s, s * np_pi * Fin d / Fin (2 * 9.81))%num)
                (cumsum_from (Fin a) (Fin <$> l))).
    { induction l as [|b l IH]; intros a Ha Hl; simpl; [constructor|].
      inversion Hl; subst. constructor; [|apply IH; [lra|done]].
      simpl. apply Qle_shift_div_l; [done|].
      rewrite Qmult_0_l. apply Qmult_le_0_compat; [|done].
      apply Qmult_le_0_compat; lra. }
    destruct ((λ a, a * a) <$> Aq) as [|a l]; simpl; [constructor|].
    inversion Hsq; subst. constructor; [|by apply Hcs].
    simpl. apply Qle_shift_div_l; [done|].
    rewrite Qmult_0_l. apply Qmult_le_0_compat; [|done].
    apply Qmult_le_0_compat; lra.
Qed.

Section library.
Context {complex : Type}.
Context (fft : vec → nat → list complex).
Context (np_abs_complex : complex → num).
Context (np_sqrt : num → num).
Context (np_power : num → num → num).

(** What a successful call has computed, and where [param] holds it. *)
Lemma get_parameters_Ok_inv (Ag : vec) (dt : num) (T : vec) (xi : num)
    (param : gmap string pyval) :
  get_parameters fft np_abs_complex np_sqrt np_power Ag dt T xi = Ok param →
  let t := linspace 0 (Fin (inject_Z (Z.of_nat (length Ag) - 1)) * dt)%num (length Ag) in
  let Aint := arias_curve Ag dt in
  ∃ Arias t1 t2 D75 t1' t2' D95 Td freq Famp Pamp,
    last_item Aint = Ok Arias
    ∧ param !! "Arias" = Some (PyFloat Arias)
    ∧ param !! "Aint" = Some (PyArray2 (zip_with (λ ti Ai, [ti; Ai]) t Aint))
    ∧ significant_duration Aint t 0.75 = Ok (t1, t2, D75)
    ∧ param !! "D_5_75" = Some (PyFloat D75)
    ∧ significant_duration Aint t 0.95 = Ok (t1', t2', D95)
    ∧ param !! "D_5_95" = Some (PyFloat D95)
    ∧ last_item t = Ok Td
    ∧ fourier fft np_abs_complex Ag dt Td
        (np_sqrt (np_trapz (nsq <$> Ag) t / Td)%num) = Ok (freq, Famp, Pamp)
    ∧ param !! "aRMS" = Some (PyFloat (np_sqrt (np_trapz (nsq <$> Ag) t / Td)%num))
    ∧ param !! "FAS" = Some (PyArray2 (zip_with (λ f F, [f; F]) freq Famp))
    ∧ param !! "PAS" = Some (PyArray2 (zip_with (λ f F, [f; F]) freq Famp)).
Proof.
  intros H t Aint. unfold get_parameters in H. cbv zeta in H.
  fold t in H. fold Aint in H.
  bind_inv H Vg HVg. bind_inv H Dg HDg. bind_inv H h Hh.
  bind_inv H Sd HSd. bind_inv H Sv HSv. bind_inv H Sa HSa.
  bind_inv H PGA HPGA. bind_inv H PGV HPGV. bind_inv H PGD HPGD.
  bind_inv H Arias HArias.
  bind_inv H r75 H75. destruct r75 as [[t1 t2] D75].
  bind_inv H r95 H95. destruct r95 as [[t1' t2'] D95].
  destruct (uniform_duration Ag t dt) as [t_treshold Du].
  bind_inv H Td HTd.
  bind_inv H F HF. destruct F as [[freq Famp] Pamp].
  bind_inv H Sa_max HSa_max.
  apply Ok_inj in H.
  exists Arias, t1, t2, D75, t1', t2', D95, Td, freq, Famp, Pamp.
  repeat (split; [first [assumption | rewrite <- H; map_key]|]).
  rewrite <- H. map_key.
Qed.

(** C5. For every record of finite accelerations sampled at [dt >= 0], the
    Arias curve [np.cumsum(Ag ** 2) * np.pi * dt / (2 * 9.81)] never
    decreases, and when [get_parameters] returns, its ['Aint'] holds this
    curve against time and its ['Arias'] the last value of the curve. *)
Theorem arias_curve_monotone (Aq : list Q) (d : Q) (T : vec) (xi : num) :
  0 <= d →
  let Ag := Fin <$> Aq in
  let dt := Fin d in
  let t := linspace 0 (Fin (inject_Z (Z.of_nat (length Ag) - 1)) * dt)%num (length Ag) in
  (∀ i j x y, (i ≤ j)%nat →
     arias_curve Ag dt !! i = Some x → arias_curve Ag dt !! j = Some y →
     (x <=? y)%num = true)
  ∧ (∀ param,
       get_parameters fft np_abs_complex np_sqrt np_power Ag dt T xi = Ok param →
       ∃ Arias,
         last (arias_curve Ag dt) = Some Arias
         ∧ param !! "Arias" = Some (PyFloat Arias)
         ∧ param !! "Aint" =
             Some (PyArray2 (zip_with (λ ti Ai, [ti; Ai]) t (arias_curve Ag dt)))).
Proof.
  intros Hd Ag dt t. split.
  - intros i j x y Hij Hi Hj.
    destruct (arias_curve_sorted Aq d Hd) as [Hs Hpos].
    apply Sorted_StronglySorted in Hs; [|apply _].
    destruct (decide (i = j)) as [->|Hne].
    + assert (x = y) as -> by congruence.
      assert (Hy := Forall_lookup_1 _ _ _ _ Hpos Hj).
      destruct y as [q| | |]; try done.
      apply fin_le_nleb. simpl. lra.
    + apply fin_le_nleb. eapply (StronglySorted_lookup _ _ i j); eauto. lia.
  - intros param Hp.
    destruct (get_parameters_Ok_inv _ _ _ _ _ Hp)
      as (Arias & ? & ? & ? & ? & ? & ? & ? & ? & ? & ? & HA & HpA & HpAint & _).
    exists Arias. split; [|done].
    unfold last_item in HA. by destruct (last _); [injection HA as ->|].
Qed.

(** C4. When [get_parameters] returns, the key ['PAS'] holds the array built
    for ['FAS']: against each positive frequency the Fourier amplitude
    [Famp] itself. The power amplitudes
    [Famp ** 2 / (np.pi * t[-1] * aRMS ** 2)] are computed, as [Pamp], and
    put into the array [PAS], which is then left out of the dictionary. *)
Theorem power_spectrum_key_holds_fourier (Ag : vec) (dt : num) (T : vec) (xi : num)
    (param : gmap string pyval) :
  get_parameters fft np_abs_complex np_sqrt np_power Ag dt T xi = Ok param →
  ∃ Td aRMS freq Famp Pamp,
    param !! "aRMS" = Some (PyFloat aRMS)
    ∧ fourier fft np_abs_complex Ag dt Td aRMS = Ok (freq, Famp, Pamp)
    ∧ Pamp = (λ F, nsq F / (np_pi * Td * nsq aRMS))%num <$> Famp
    ∧ param !! "FAS" = Some (PyArray2 (zip_with (λ f F, [f; F]) freq Famp))
    ∧ param !! "PAS" = Some (PyArray2 (zip_with (λ f F, [f; F]) freq Famp)).
Proof.
  intros Hp.
  destruct (get_parameters_Ok_inv _ _ _ _ _ Hp)
    as (? & ? & ? & ? & ? & ? & ? & Td & freq & Famp & Pamp &
        _ & _ & _ & _ & _ & _ & _ & HTd & HF & HaRMS & HFAS & HPAS).
  eexists Td, _, freq, Famp, Pamp. repeat split; try done.
  unfold fourier in HF. bind_inv HF l2 Hl2. bind_inv HF fr Hfr.
  by injection HF as <- <- <-.
Qed.
End library.

(** [get_parameters] returns on the record of [example]. *)
Lemma example_runs : example.get_parameters = Ok example.param.
Proof.
  assert (H : is_ok example.get_parameters = true) by (vm_compute; reflexivity).
  unfold example.param. by destruct example.get_parameters.
Qed.

(** On the record of [example]. *)
Lemma power_spectrum_key_holds_fourier_witness :
  ∃ Td aRMS freq Famp Pamp,
    example.param !! "aRMS" = Some (PyFloat aRMS)
    ∧ fourier small.fft small.np_abs_complex example.Ag (Fin example.dt) Td aRMS
        = Ok (freq, Famp, Pamp)
    ∧ Pamp = (λ F, nsq F / (np_pi * Td * nsq aRMS))%num <$> Famp
    ∧ example.param !! "FAS" = Some (PyArray2 (zip_with (λ f F, [f; F]) freq Famp))
    ∧ example.param !! "PAS" = Some (PyArray2 (zip_with (λ f F, [f; F]) freq Famp)).
Proof.
  apply (power_spectrum_key_holds_fourier small.fft small.np_abs_complex small.np_sqrt
           small.np_power example.Ag (Fin example.dt) example.T (Fin example.xi)).
  exact example_runs.
Defined.

(** On the record of [example], the one positive frequency is 25 Hz, where
    the Fourier amplitude is 0.02 and the power amplitude
    [0.02 ** 2 / (np.pi * 0.03 * aRMS ** 2)] lies between 0.0023 and 0.0024;
    ['PAS'] holds the former. *)
Lemma example_power_spectrum :
  canon_val <$> (example.param !! "PAS") = Some (PyArray2 [[Fin 25; Fin (1 # 50)]])
  ∧ canon_val <$> (example.param !! "FAS") = Some (PyArray2 [[Fin 25; Fin (1 # 50)]])
  ∧ ∃ Td aRMS freq Famp P,
      example.param !! "aRMS" = Some (PyFloat aRMS)
      ∧ fourier small.fft small.np_abs_complex example.Ag (Fin example.dt) Td aRMS
          = Ok (freq, Famp, [P])
      ∧ canon <$> freq = [Fin 25] ∧ canon <$> Famp = [Fin (1 # 50)]
      ∧ (Fin 0.0023 <? P)%num = true ∧ (P <? Fin 0.0024)%num = true.
Proof.
  split; [vm_compute; reflexivity|]. split; [vm_compute; reflexivity|].
  destruct (get_parameters_Ok_inv _ _ _ _ _ _ _ _ _ example_runs)
    as (? & ? & ? & ? & ? & ? & ? & Td & freq & Famp & Pamp &
        _ & _ & _ & _ & _ & _ & _ & HTd & HF & HaRMS & _).
  vm_compute in HTd. injection HTd as <-.
  set (aRMS := small.np_sqrt _) in *.
  assert (HF' := HF). vm_compute in HF'. injection HF' as <- <- <-.
  eexists _, aRMS, _, _, _. split; [exact HaRMS|]. split; [exact HF|].
  repeat split; vm_compute; reflexivity.
Qed.

(** On the record of [example]. *)
Lemma arias_curve_monotone_witness :
  let Ag := example.Ag in
  let dt := Fin example.dt in
  let t := linspace 0 (Fin (inject_Z (Z.of_nat (length Ag) - 1)) * dt)%num (length Ag) in
  (∀ i j x y, (i ≤ j)%nat →
     arias_curve Ag dt !! i = Some x → arias_curve Ag dt !! j = Some y →
     (x <=? y)%num = true)
  ∧ (∀ param,
       example.get_parameters = Ok param →
       ∃ Arias,
         last (arias_curve Ag dt) = Some Arias
         ∧ param !! "Arias" = Some (PyFloat Arias)
         ∧ param !! "Aint" =
             Some (PyArray2 (zip_with (λ ti Ai, [ti; Ai]) t (arias_curve Ag dt)))).
Proof.
  apply (arias_curve_monotone small.fft small.np_abs_complex small.np_sqrt
           small.np_power example.Aq example.dt example.T (Fin example.xi)).
  unfold example.dt. lra.
Defined.

End gm_facts.
Module dur.
Import gm gm_facts.

(** *** Rounding *)

Lemma rint_bounds (q : Q) : (Qfloor q <= rint q <= Qfloor q + 1)%Z.
Proof.
  unfold rint. destruct (Qcompare _ _); [destruct (Z.even _)|..]; lia.
Qed.

Lemma rint_mono (p q : Q) : p <= q → (rint p <= rint q)%Z.
Proof.
  intros Hpq.
  assert (Hf : (Qfloor p <= Qfloor q)%Z) by by apply Qfloor_resp_le.
  destruct (decide (Qfloor p = Qfloor q)) as [E|NE].
  - unfold rint. rewrite <- E.
    destruct (Qcompare (p - inject_Z (Qfloor p)) (1 # 2)) eqn:Cp;
      destruct (Qcompare (q - inject_Z (Qfloor p)) (1 # 2)) eqn:Cq;
      try (destruct (Z.even (Qfloor p))); try lia.
    all: repeat match goal with
         | H : (_ ?= _) = Eq |- _ => apply Qeq_alt in H
         | H : (_ ?= _) = Lt |- _ => apply Qlt_alt in H
         | H : (_ ?= _) = Gt |- _ => apply Qgt_alt in H
         end.
    all: exfalso; generalize dependent (inject_Z (Qfloor p)); intros; lra.
  - pose proof (rint_bounds p). pose proof (rint_bounds q). lia.
Qed.

Lemma round_to_mono (d : nat) (x y : num) :
  fin_le x y → fin_le (round_to d x) (round_to d y).
Proof.
  destruct x as [a| | |], y as [b| | |]; simpl; try done. intros Hab.
  assert (Hp : 0 < inject_Z (10 ^ Z.of_nat d)).
  { change 0 with (inject_Z 0). rewrite <- Zlt_Qlt. apply Z.pow_pos_nonneg; lia. }
  apply Qmult_le_compat_r; [|apply Qlt_le_weak, Qinv_lt_0_compat, Hp].
  rewrite <- Zle_Qle. apply rint_mono.
  apply Qmult_le_compat_r; [done|lra].
Qed.

Lemma round_to_zero (d : nat) : fin_le (Fin 0) (round_to d (Fin 0)).
Proof.
  unfold round_to, fin_le.
  assert (Hp : 0 < inject_Z (10 ^ Z.of_nat d)).
  { change 0 with (inject_Z 0). rewrite <- Zlt_Qlt. apply Z.pow_pos_nonneg; lia. }
  assert (Hr : (rint 0 <= rint (0 * inject_Z (10 ^ Z.of_nat d)))%Z)
    by (apply rint_mono; lra).
  change (rint 0) with 0%Z in Hr.
  apply Qle_shift_div_l; [done|].
  apply (Qle_trans _ (inject_Z 0)); [|by rewrite <- Zle_Qle].
  generalize (inject_Z (10 ^ Z.of_nat d)). intros c. change (inject_Z 0) with 0. lra.
Qed.

(** *** The time axis *)

Lemma inject_nat_pos (n : nat) : (0 < n)%nat → 0 < inject_Z (Z.of_nat n).
Proof. intros. change 0 with (inject_Z 0). rewrite <- Zlt_Qlt. lia. Qed.

(** [np.linspace(0, (n - 1) * dt, n)] holds the times [i * dt]. *)
Lemma linspace_lookup (n : nat) (d : Q) (i : nat) :
  (i < n)%nat →
  ∃ q, linspace 0 (Fin (inject_Z (Z.of_nat n - 1)) * Fin d)%num n !! i = Some (Fin q)
       ∧ q == inject_Z (Z.of_nat i) * d.
Proof.
  intros Hi. unfold linspace.
  destruct (decide (1 < n)%nat) as [Hn|Hn].
  - assert (Hdiv : ¬ inject_Z (Z.of_nat n - 1) == 0).
    { change 0 with (inject_Z 0). rewrite inject_Z_injective. lia. }
    destruct (decide (i = n - 1)%nat) as [->|Hne].
    + rewrite list_lookup_insert_eq by (rewrite length_fmap, length_seq; lia).
      eexists; split; [done|].
      replace (Z.of_nat (n - 1)) with (Z.of_nat n - 1)%Z by lia. done.
    + rewrite list_lookup_insert_ne by done.
      rewrite list_lookup_fmap, lookup_seq_lt by done. simpl.
      rewrite (Qeq_bool_false _ 0) by done.
      destruct (Fin _ =? 0)%num; simpl; rewrite ?(Qeq_bool_false _ 0) by done;
        (eexists; split; [done|]); field; done.
  - assert (n = 1%nat) as -> by lia. assert (i = 0%nat) as -> by lia.
    simpl. eexists; split; [done|]. simpl. ring.
Qed.

Lemma lookup_sorted {A} (R : relation A) (l : list A) :
  (∀ i j x y, (i < j)%nat → l !! i = Some x → l !! j = Some y → R x y) →
  StronglySorted R l.
Proof.
  induction l as [|z l IH]; intros H; constructor.
  - apply IH. intros i j x y Hij Hi Hj. by apply (H (S i) (S j)); [lia|..].
  - apply Forall_lookup_2. intros j y Hj. by apply (H 0%nat (S j)); [lia|..].
Qed.

Lemma linspace_sorted (n : nat) (d : Q) :
  0 < d →
  let t := linspace 0 (Fin (inject_Z (Z.of_nat n - 1)) * Fin d)%num n in
  StronglySorted fin_le t ∧ Forall (λ x, fin_le x x) t ∧ length t = n.
Proof.
  intros Hd t.
  assert (Hlen : length t = n).
  { unfold t, linspace. case_decide; rewrite ?length_insert, length_fmap, length_seq; done. }
  split; [|split; [|done]].
  - apply lookup_sorted. intros i j x y Hij Hi Hj.
    assert (Hjn : (j < n)%nat) by (rewrite <- Hlen; by eapply lookup_lt_Some).
    destruct (linspace_lookup n d i) as (qi & Hqi & Ei); [lia|].
    destruct (linspace_lookup n d j) as (qj & Hqj & Ej); [lia|].
    fold t in Hqi, Hqj. assert (x = Fin qi) as -> by congruence.
    assert (y = Fin qj) as -> by congruence.
    simpl. rewrite Ei, Ej. apply Qmult_le_compat_r; [|lra].
    rewrite <- Zle_Qle. lia.
  - apply Forall_lookup_2. intros i x Hi.
    assert (Hin : (i < n)%nat) by (rewrite <- Hlen; by eapply lookup_lt_Some).
    destruct (linspace_lookup n d i) as (qi & Hqi & Ei); [lia|].
    fold t in Hqi. assert (x = Fin qi) as -> by congruence. simpl. lra.
Qed.

(** *** Windows *)

Lemma select_mask_cons {A} (b : bool) (m : list bool) (x : A) (l : list A) :
  select_mask (b :: m) (x :: l) =
  if b then x :: select_mask m l else select_mask m l.
Proof.
  unfold select_mask. simpl. rewrite filter_cons. simpl.
  destruct b; case_decide; try done.
Qed.


Lemma select_mask_sublist {A} (m : list bool) (l : list A) :
  select_mask m l `sublist_of` l.
Proof.
  revert l. induction m as [|b m IH]; intros [|x l]; try apply sublist_nil_l.
  rewrite select_mask_cons. destruct b; [by apply sublist_skip|by apply sublist_cons].
Qed.

(** A wider mask selects more. *)
Lemma select_mask_mono {A B} (p q : B → bool) (xs : list B) (l : list A) :
  Forall (λ x, p x = true → q x = true) xs →
  select_mask (p <$> xs) l `sublist_of` select_mask (q <$> xs) l.
Proof.
  intros H. revert l. induction H as [|x xs Hx _ IH]; intros [|y l];
    try apply sublist_nil_l.
  rewrite !fmap_cons, !select_mask_cons.
  destruct (p x) eqn:Ep.
  - rewrite (Hx eq_refl). by apply sublist_skip.
  - destruct (q x); [by apply sublist_cons|done].
Qed.

Lemma zip_with_fmap_same {A B C D} (h : B → C → D) (f : A → B) (g : A → C) (l : list A) :
  zip_with h (f <$> l) (g <$> l) = (λ x, h (f x) (g x)) <$> l.
Proof. induction l as [|x l IH]; csimpl; [done|]. by rewrite IH. Qed.

Lemma sublist_StronglySorted {A} (R : relation A) (l1 l2 : list A) :
  l1 `sublist_of` l2 → StronglySorted R l2 → StronglySorted R l1.
Proof.
  induction 1 as [|x l1 l2 Hsub IH|x l1 l2 Hsub IH]; intros Hs; [done|..].
  - apply StronglySorted_inv in Hs as [Hs Hall]. constructor; [by apply IH|].
    eapply Forall_forall. intros y Hy. eapply Forall_forall; [exact Hall|].
    by eapply elem_of_sublist.
  - apply StronglySorted_inv in Hs as [Hs _]. by apply IH.
Qed.

(** In a sorted list the first item is below, and the last item above,
    every item. *)
Lemma sorted_first_last {A} (R : relation A) (l : list A) (x : A) :
  StronglySorted R l → Forall (λ y, R y y) l → x ∈ l →
  (∀ h, head l = Some h → R h x) ∧ (∀ z, last l = Some z → R x z).
Proof.
  intros Hs. revert x. induction Hs as [|y l Hs IH Hall]; intros x Hrefl Hx.
  { by apply elem_of_nil in Hx. }
  apply Forall_cons in Hrefl as [Hy Hrefl].
  apply elem_of_cons in Hx as [->|Hx].
  - split; [by intros h [= <-]|]. intros z Hz.
    rewrite last_cons in Hz. destruct (last l) as [z'|] eqn:El.
    + injection Hz as <-. eapply Forall_forall; [exact Hall|].
      by apply last_Some_elem_of.
    + by injection Hz as <-.
  - split.
    + intros h [= <-]. eapply Forall_forall; [exact Hall|done].
    + intros z Hz. rewrite last_cons in Hz.
      destruct (last l) as [z'|] eqn:El.
      * injection Hz as <-. by apply (proj2 (IH x Hrefl Hx)).
      * apply last_None in El. subst l. by apply elem_of_nil in Hx.
Qed.

Lemma first_item_head {A} (l : list A) (x : A) : first_item l = Ok x → head l = Some x.
Proof. destruct l; simpl; [done|]. by intros [= ->]. Qed.

Lemma last_item_last {A} (l : list A) (x : A) : last_item l = Ok x → last l = Some x.
Proof. unfold last_item. destruct (last l); [|done]. by intros [= ->]. Qed.

Lemma fin_le_sub (a b a' b' : num) :
  fin_le a' a → fin_le a b → fin_le b b' →
  fin_le (Fin 0) (b - a)%num ∧ fin_le (b - a)%num (b' - a')%num.
Proof.
  destruct a as [a| | |], b as [b| | |], a' as [a'| | |], b' as [b'| | |];
    simpl; try done.
  intros. split; lra.
Qed.

(** The windows of the two significant durations, for the Arias curve of a
    finite record against an increasing time axis: the wider band of
    probabilities gives the longer duration. *)
Lemma significant_duration_mono (Aq : list Q) (d : Q) (t : vec)
    (t1 t2 D75 t1' t2' D95 : num) :
  0 <= d → StronglySorted fin_le t → Forall (λ x, fin_le x x) t →
  significant_duration (arias_curve (Fin <$> Aq) (Fin d)) t 0.75 = Ok (t1, t2, D75) →
  significant_duration (arias_curve (Fin <$> Aq) (Fin d)) t 0.95 = Ok (t1', t2', D95) →
  fin_le (Fin 0) D75 ∧ fin_le D75 D95.
Proof.
  intros Hd Hst Hrefl H75 H95.
  destruct (arias_curve_sorted Aq d Hd) as [_ Hpos].
  set (Aint := arias_curve (Fin <$> Aq) (Fin d)) in *.
  unfold significant_duration in H75, H95.
  bind_inv H75 E HE. bind_inv H95 E' HE'.
  assert (E' = E) as -> by congruence. clear HE'.
  rewrite zip_with_fmap_same in H75, H95.
  set (m75 := (λ x, (x >=? 0.05 * E) && (x <=? 0.75 * E))%num <$> Aint) in *.
  set (m95 := (λ x, (x >=? 0.05 * E) && (x <=? 0.95 * E))%num <$> Aint) in *.
  bind_inv H75 f75 Hf75. bind_inv H75 l75 Hl75. injection H75 as <- <- <-.
  bind_inv H95 f95 Hf95. bind_inv H95 l95 Hl95. injection H95 as <- <- <-.
  apply first_item_head in Hf75, Hf95. apply last_item_last in Hl75, Hl95.
  assert (HE0 : fin_le (Fin 0) E).
  { apply (proj1 (Forall_forall _ _) Hpos).
    apply last_Some_elem_of. by apply last_item_last. }
  assert (Hsub : select_mask m75 t `sublist_of` select_mask m95 t).
  { apply select_mask_mono. eapply Forall_impl; [exact Hpos|].
    intros x Hx. destruct (x >=? 0.05 * E)%num; [|done]. simpl.
    destruct x as [q| | |], E as [e| | |]; try done. simpl in Hx, HE0.
    unfold nleb; simpl.
    destruct (q ?= 0.75 * e) eqn:C75; try done; intros _;
      destruct (q ?= 0.95 * e) eqn:C95; try done;
      repeat match goal with
      | H : (_ ?= _) = Eq |- _ => apply Qeq_alt in H
      | H : (_ ?= _) = Lt |- _ => apply Qlt_alt in H
      | H : (_ ?= _) = Gt |- _ => apply Qgt_alt in H
      end; lra. }
  assert (Hs95 : StronglySorted fin_le (select_mask m95 t))
    by (eapply sublist_StronglySorted; [apply select_mask_sublist|done]).
  assert (Hr95 : Forall (λ x, fin_le x x) (select_mask m95 t)).
  { apply Forall_forall. intros x Hx. apply (proj1 (Forall_forall _ _) Hrefl).
    eapply elem_of_sublist; [exact Hx|apply select_mask_sublist]. }
  assert (Hs75 : StronglySorted fin_le (select_mask m75 t))
    by (eapply sublist_StronglySorted; [exact Hsub|done]).
  assert (Hr75 : Forall (λ x, fin_le x x) (select_mask m75 t)).
  { apply Forall_forall. intros x Hx. apply (proj1 (Forall_forall _ _) Hr95).
    by eapply elem_of_sublist. }
  assert (Hin_f : f75 ∈ select_mask m95 t)
    by (eapply elem_of_sublist; [by apply head_Some_elem_of|done]).
  assert (Hin_l : l75 ∈ select_mask m95 t)
    by (eapply elem_of_sublist; [by apply last_Some_elem_of|done]).
  assert (H1 : fin_le f95 f75)
    by (by apply (proj1 (sorted_first_last _ _ _ Hs95 Hr95 Hin_f))).
  assert (H2 : fin_le l75 l95)
    by (by apply (proj2 (sorted_first_last _ _ _ Hs95 Hr95 Hin_l))).
  assert (H3 : fin_le f75 l75).
  { apply (proj1 (sorted_first_last _ _ l75 Hs75 Hr75 (last_Some_elem_of _ _ Hl75))).
    done. }
  destruct (fin_le_sub (round_to 3 f75) (round_to 3 l75) (round_to 3 f95) (round_to 3 l95))
    as [G1 G2]; try by apply round_to_mono.
  split.
  - etrans; [apply (round_to_zero 3)|]. by apply round_to_mono.
  - by apply round_to_mono.
Qed.

Section library.
Context {complex : Type}.
Context (fft : vec → nat → list complex).
Context (np_abs_complex : complex → num).
Context (np_sqrt : num → num).
Context (np_power : num → num → num).

(** C6. For every record of finite accelerations sampled at [dt > 0] whose
    two windows of significant duration both hold a sample (the two blocks
    return), the durations satisfy [D_5_95 >= D_5_75 >= 0]; each is the
    rounded distance between the rounded times of the first and last samples
    whose Arias intensity lies between 5% and 75%, respectively 95%, of its
    last value, and they are what [get_parameters] returns under ['D_5_75']
    and ['D_5_95']. *)
Theorem significant_durations_ordered (Aq : list Q) (d : Q)
    (t1 t2 D75 t1' t2' D95 : num) :
  0 < d →
  let Ag := Fin <$> Aq in
  let t := linspace 0 (Fin (inject_Z (Z.of_nat (length Ag) - 1)) * Fin d)%num (length Ag) in
  significant_duration (arias_curve Ag (Fin d)) t 0.75 = Ok (t1, t2, D75) →
  significant_duration (arias_curve Ag (Fin d)) t 0.95 = Ok (t1', t2', D95) →
  (0 <=? D75)%num = true
  ∧ (D75 <=? D95)%num = true
  ∧ ∀ T xi param,
      get_parameters fft np_abs_complex np_sqrt np_power Ag (Fin d) T xi = Ok param →
      param !! "D_5_75" = Some (PyFloat D75) ∧ param !! "D_5_95" = Some (PyFloat D95).
Proof.
  intros Hd Ag t H75 H95.
  destruct (linspace_sorted (length Ag) d Hd) as (Hs & Hr & _).
  destruct (significant_duration_mono Aq d _ _ _ _ _ _ _ ltac:(lra) Hs Hr H75 H95)
    as [G1 G2].
  split; [by apply fin_le_nleb|]. split; [by apply fin_le_nleb|].
  intros T xi param Hp.
  destruct (get_parameters_Ok_inv _ _ _ _ _ _ _ _ _ Hp)
    as (? & ? & ? & ? & ? & ? & ? & ? & ? & ? & ? &
        _ & _ & _ & H75' & Hp75 & H95' & Hp95 & _).
  fold Ag t in H75', H95'. rewrite H75 in H75'. rewrite H95 in H95'.
  injection H75' as <- <- <-. injection H95' as <- <- <-. done.
Qed.
End library.

(** On the record of [example], where the durations are 0 and 0.01. *)
Lemma significant_durations_ordered_witness :
  (0 <=? Fin (0 # 1000))%num = true
  ∧ (Fin (0 # 1000) <=? Fin (10 # 1000))%num = true
  ∧ ∀ T xi param,
      get_parameters small.fft small.np_abs_complex small.np_sqrt small.np_power
        example.Ag (Fin example.dt) T xi = Ok param →
      param !! "D_5_75" = Some (PyFloat (Fin (0 # 1000)))
      ∧ param !! "D_5_95" = Some (PyFloat (Fin (10 # 1000))).
Proof.
  eapply (significant_durations_ordered small.fft small.np_abs_complex small.np_sqrt
           small.np_power example.Aq example.dt).
  - unfold example.dt. lra.
  - vm_compute. reflexivity.
  - vm_compute. reflexivity.
Defined.

End dur.

(** ** Finite responses *)

Module sdof_finite.
Import sdof sdof_facts.

Definition pos (x : num) : Prop :=
  match x with
  | Fin q => 0 < q
  | _ => False
  end.

Definition nonneg (x : num) : Prop :=
  match x with
  | Fin q => 0 <= q
  | _ => False
  end.

Lemma pos_finite x : pos x → finite x.
Proof. by destruct x. Qed.

Lemma pos_nonneg x : pos x → nonneg x.
Proof. destruct x; simpl; try done. apply Qlt_le_weak. Qed.

Lemma pos_ne0 (q : Q) : 0 < q → ¬ q == 0.
Proof. intros H E. rewrite E in H. by apply Qlt_irrefl in H. Qed.

Lemma finite_add x y : finite x → finite y → finite (x + y)%num.
Proof. by destruct x, y. Qed.
Lemma finite_sub x y : finite x → finite y → finite (x - y)%num.
Proof. by destruct x, y. Qed.
Lemma finite_mul x y : finite x → finite y → finite (x * y)%num.
Proof. by destruct x, y. Qed.
Lemma finite_neg x : finite x → finite (- x)%num.
Proof. by destruct x. Qed.
Lemma finite_abs x : finite x → finite (nabs x).
Proof. by destruct x. Qed.
Lemma finite_div x y : finite x → pos y → finite (x / y)%num.
Proof.
  destruct x as [a| | |], y as [b| | |]; simpl; try done.
  intros _ Hb. by rewrite (Qeq_bool_false b 0) by by apply pos_ne0.
Qed.
Lemma finite_nmax x y : finite x → finite y → finite (nmax x y).
Proof. destruct x, y; simpl; try done. by destruct (_ <? _)%num. Qed.

Lemma pos_mul x y : pos x → pos y → pos (x * y)%num.
Proof. destruct x, y; simpl; try done. apply Qmult_lt_0_compat. Qed.
Lemma pos_add_nonneg x y : pos x → nonneg y → pos (x + y)%num.
Proof. destruct x, y; simpl; try done. intros. lra. Qed.
Lemma pos_add x y : pos x → pos y → pos (x + y)%num.
Proof. destruct x, y; simpl; try done. intros. lra. Qed.
Lemma nonneg_mul x y : nonneg x → nonneg y → nonneg (x * y)%num.
Proof. destruct x, y; simpl; try done. apply Qmult_le_0_compat. Qed.
Lemma pos_div x y : pos x → pos y → pos (x / y)%num.
Proof.
  destruct x as [a| | |], y as [b| | |]; simpl; try done.
  intros Ha Hb. rewrite (Qeq_bool_false b 0) by by apply pos_ne0.
  simpl. apply Qlt_shift_div_l; [done|]. lra.
Qed.

Lemma pos_nsq x : pos x → pos (nsq x).
Proof. intros. by apply pos_mul. Qed.

Lemma Forall_zip_with_2 {A B C} (P : A → Prop) (Q : B → Prop) (R : C → Prop)
    (f : A → B → C) (l1 : list A) (l2 : list B) :
  (∀ x y, P x → Q y → R (f x y)) →
  Forall P l1 → Forall Q l2 → Forall R (zip_with f l1 l2).
Proof.
  intros Hf H1. revert l2. induction H1 as [|x l1 Hx _ IH]; intros l2 H2; [constructor|].
  destruct H2 as [|y l2 Hy H2]; simpl; constructor; eauto.
Qed.

Ltac beta_compose := unfold compose; cbv beta.

Section coefficients.
Context (Tq : list Q) (d x : Q).
Hypothesis Tpos : Forall (λ t, 0 < t) Tq.
Hypothesis dpos : 0 < d.
Hypothesis xnn : 0 <= x.

Let T : vec := Fin <$> Tq.
Let dt : num := Fin d.
Let xi : num := Fin x.
Let m : num := Fin 1.

Lemma T_pos : Forall pos T.
Proof. unfold T. rewrite Forall_fmap. by eapply Forall_impl. Qed.

Lemma wn_pos : Forall pos (wn T).
Proof.
  unfold wn, fn. rewrite !Forall_fmap.
  eapply Forall_impl; [exact T_pos|]. intros t Ht. beta_compose.
  apply (pos_mul (2 * np_pi)%num); [done|]. by apply (pos_div 1).
Qed.

Lemma k_pos : Forall pos (k T m).
Proof.
  unfold k. rewrite Forall_fmap.
  eapply Forall_impl; [exact wn_pos|]. intros w Hw. beta_compose.
  apply pos_mul; [done|]. by apply pos_nsq.
Qed.

Lemma c_nonneg : Forall nonneg (c T xi m).
Proof.
  unfold c. rewrite Forall_fmap.
  eapply Forall_impl; [exact wn_pos|]. intros w Hw. beta_compose.
  apply nonneg_mul; [|done]. apply pos_nonneg, pos_mul; [done|done].
Qed.

Lemma Gamma_pos : Forall pos (Gamma T).
Proof.
  unfold Gamma, ones. rewrite Forall_fmap. apply Forall_replicate. done.
Qed.

Lemma Beta_pos : Forall pos (Beta dt T).
Proof.
  unfold Beta, Beta0, ones.
  eapply (Forall_zip_with_2 pos (λ _, True)); [| |by apply Forall_true].
  - intros b t Hb _. by destruct (_ >? _)%num.
  - rewrite Forall_fmap. apply Forall_replicate. done.
Qed.

Lemma a1_pos : Forall pos (a1 dt T).
Proof.
  unfold a1. eapply Forall_zip_with_2; [|exact Gamma_pos|exact Beta_pos].
  intros g b Hg Hb. beta_compose. apply pos_div; [done|]. by apply pos_mul.
Qed.

Lemma a2_pos : Forall pos (a2 dt T).
Proof.
  unfold a2. rewrite Forall_fmap. eapply Forall_impl; [exact Beta_pos|].
  intros b Hb. beta_compose. apply (pos_div 1); [done|]. apply pos_mul; [done|].
  by apply pos_nsq.
Qed.

Lemma a3_pos : Forall pos (a3 dt T).
Proof.
  unfold a3. rewrite Forall_fmap. eapply Forall_impl; [exact Beta_pos|].
  intros b Hb. beta_compose. apply (pos_div 1); [done|]. by apply pos_mul.
Qed.

Lemma a4_pos : Forall pos (a4 dt T).
Proof.
  unfold a4, vdiv. eapply Forall_zip_with_2; [|exact Gamma_pos|exact Beta_pos].
  intros g b Hg Hb. by apply pos_div.
Qed.

Lemma a5_pos : Forall pos (a5 dt T).
Proof.
  unfold a5. rewrite Forall_fmap. eapply Forall_impl; [exact Beta_pos|].
  intros b Hb. beta_compose. apply (pos_div 1); [done|]. by apply (pos_mul 2).
Qed.

Lemma a6_finite : Forall finite (a6 dt T).
Proof.
  unfold a6. eapply Forall_zip_with_2; [|exact Gamma_pos|exact Beta_pos].
  intros g b Hg Hb. beta_compose. apply finite_mul; [|done].
  apply finite_sub; [|done]. apply finite_div; [by apply pos_finite|].
  by apply (pos_mul 2).
Qed.

Lemma kf_pos : Forall pos (kf dt T xi m).
Proof.
  unfold kf, vadd, vmul.
  eapply Forall_zip_with_2; [apply pos_add| |].
  - eapply Forall_zip_with_2; [apply pos_add_nonneg|exact k_pos|].
    eapply Forall_zip_with_2; [|exact a1_pos|exact c_nonneg].
    intros. apply nonneg_mul; [by apply pos_nonneg|done].
  - rewrite Forall_fmap. eapply Forall_impl; [exact a2_pos|].
    intros z Hz. beta_compose. by apply pos_mul.
Qed.

Lemma a_finite : Forall finite (a dt T xi m).
Proof.
  unfold a, vadd, vmul.
  eapply Forall_zip_with_2; [apply finite_add| |].
  - rewrite Forall_fmap. eapply Forall_impl; [exact a3_pos|].
    intros z Hz. beta_compose. apply finite_mul; [by apply pos_finite|done].
  - eapply Forall_zip_with_2; [apply finite_mul| |].
    + eapply Forall_impl; [exact a4_pos|apply pos_finite].
    + eapply Forall_impl; [exact c_nonneg|]. by intros [].
Qed.

Lemma b_finite : Forall finite (b dt T xi m).
Proof.
  unfold b, vadd, vmul.
  eapply Forall_zip_with_2; [apply finite_add| |].
  - rewrite Forall_fmap. eapply Forall_impl; [exact a5_pos|].
    intros z Hz. beta_compose. apply finite_mul; [by apply pos_finite|done].
  - eapply Forall_zip_with_2; [apply finite_mul|exact a6_finite|].
    eapply Forall_impl; [exact c_nonneg|]. by intros [].
Qed.
End coefficients.

(** *** The histories *)

Definition all_finite (M : mat) : Prop := Forall (Forall finite) M.

Lemma all_finite_at (M : mat) (i : nat) : all_finite M → Forall finite (at_ M i).
Proof.
  intros HM. unfold at_. rewrite list_lookup_total_alt.
  destruct (M !! i) as [row|] eqn:E; simpl; [|constructor].
  by eapply (Forall_lookup_1 _ _ _ _ HM).
Qed.

Lemma finite_at (l : vec) (i : nat) : Forall finite l → finite (at_ l i).
Proof.
  intros Hl. unfold at_. rewrite list_lookup_total_alt.
  destruct (l !! i) as [y|] eqn:E; simpl; [|done].
  by eapply (Forall_lookup_1 _ _ _ _ Hl).
Qed.

Lemma all_finite_zeros2 (r s : nat) : all_finite (zeros2 r s).
Proof. apply Forall_replicate, Forall_replicate. done. Qed.

Lemma Forall_pos_finite (l : vec) : Forall pos l → Forall finite l.
Proof. intros. eapply Forall_impl; [done|apply pos_finite]. Qed.

Lemma Forall_nonneg_finite (l : vec) : Forall nonneg l → Forall finite l.
Proof. intros. eapply Forall_impl; [done|]. by intros []. Qed.

Definition hist_finite (h : hist) : Prop :=
  all_finite (u h) ∧ all_finite (v h) ∧ all_finite (ac h).

Section run.
Context (Aq Tq : list Q) (d x : Q).
Hypothesis Tpos : Forall (λ t, 0 < t) Tq.
Hypothesis dpos : 0 < d.
Hypothesis xnn : 0 <= x.

Let Ag : vec := Fin <$> Aq.
Let T : vec := Fin <$> Tq.
Let dt : num := Fin d.
Let xi : num := Fin x.
Let m : num := Fin 1.

Lemma Ag_finite : Forall finite Ag.
Proof. unfold Ag. rewrite Forall_fmap. by apply Forall_true. Qed.

Lemma p_finite : Forall finite (p Ag m).
Proof.
  unfold p. rewrite Forall_fmap. eapply Forall_impl; [exact Ag_finite|].
  intros g Hg. beta_compose. by apply finite_mul.
Qed.

Lemma init_finite : hist_finite (init Ag T xi m).
Proof.
  unfold init, hist_finite; simpl. split; [|split].
  - apply Forall_insert; [apply all_finite_zeros2|]. apply Forall_replicate. done.
  - apply Forall_insert; [apply all_finite_zeros2|]. apply Forall_replicate. done.
  - apply Forall_insert; [apply all_finite_zeros2|].
    assert (Hz : ∀ M, all_finite M →
      Forall finite (at_ (<[0%nat := zeros (n2 T)]> M) 0)).
    { intros M HM. apply all_finite_at, Forall_insert; [done|].
      apply Forall_replicate. done. }
    rewrite Forall_fmap. unfold vsub, vmul.
    eapply Forall_zip_with_2.
    + intros y z Hy Hz'. beta_compose. apply finite_div; [|done].
      apply finite_sub; [exact Hy|exact Hz'].
    + rewrite Forall_fmap.
      eapply Forall_zip_with_2;
        [|apply Forall_nonneg_finite; by apply c_nonneg
         |apply Hz, all_finite_zeros2].
      intros y z Hy Hz'. beta_compose. apply finite_sub; [|by apply finite_mul].
      apply finite_at, p_finite.
    + eapply Forall_zip_with_2;
        [apply finite_mul|apply Forall_pos_finite; by apply k_pos
        |apply Hz, all_finite_zeros2].
Qed.

Lemma step_finite (h : hist) (i : nat) :
  hist_finite h → hist_finite (step Ag dt T xi m h i).
Proof.
  intros (Hu & Hv & Hac).
  assert (Fu := all_finite_at _ i Hu). assert (Fv := all_finite_at _ i Hv).
  assert (Fac := all_finite_at _ i Hac).
  unfold step. cbv zeta.
  set (dpf := vadd (_ <$> _) _).
  assert (Fdpf : Forall finite dpf).
  { unfold dpf, vadd, vmul. eapply Forall_zip_with_2; [apply finite_add| |].
    - rewrite Forall_fmap.
      eapply Forall_zip_with_2; [|by apply a_finite|exact Fv].
      intros y z Hy Hz. beta_compose. apply finite_add; [|by apply finite_mul].
      apply finite_sub; apply finite_at, p_finite.
    - eapply Forall_zip_with_2;
        [apply finite_mul|by apply b_finite|exact Fac]. }
  set (du := vdiv dpf _).
  assert (Fdu : Forall finite du).
  { unfold du, vdiv. eapply Forall_zip_with_2;
      [apply finite_div|exact Fdpf|by apply kf_pos]. }
  assert (Fa1 : Forall finite (a1 dt T)) by (apply Forall_pos_finite; by apply a1_pos).
  assert (Fa2 : Forall finite (a2 dt T)) by (apply Forall_pos_finite; by apply a2_pos).
  assert (Fa3 : Forall finite (a3 dt T)) by (apply Forall_pos_finite; by apply a3_pos).
  assert (Fa4 : Forall finite (a4 dt T)) by (apply Forall_pos_finite; by apply a4_pos).
  assert (Fa5 : Forall finite (a5 dt T)) by (apply Forall_pos_finite; by apply a5_pos).
  assert (Fa6 : Forall finite (a6 dt T)) by by apply a6_finite.
  unfold hist_finite; simpl. split; [|split].
  - apply Forall_insert; [done|]. unfold vadd.
    eapply Forall_zip_with_2; [apply finite_add|done..].
  - apply Forall_insert; [done|]. unfold vadd, vsub, vmul.
    repeat first
      [ done
      | eapply Forall_zip_with_2; [first [apply finite_add|apply finite_sub|apply finite_mul]| |] ].
  - apply Forall_insert; [done|]. unfold vadd, vsub, vmul.
    repeat first
      [ done
      | eapply Forall_zip_with_2; [first [apply finite_add|apply finite_sub|apply finite_mul]| |] ].
Qed.

(** With a positive time step, positive periods, a damping ratio that is
    not negative and unit mass, the effective stiffness [kf] is positive:
    the displacement history of a finite record is finite. *)
Lemma sdof_ltha_finite :
  Aq ≠ [] →
  ∃ h, sdof_ltha Ag dt T xi m = Ok h
       ∧ shape (length Aq) (length Tq) (u h) ∧ all_finite (u h).
Proof.
  intros Hne.
  assert (Hn : (0 < length Ag)%nat).
  { unfold Ag. rewrite length_fmap. destruct Aq; [done|simpl; lia]. }
  exists (loop Ag dt T xi m (init Ag T xi m)). split; [|split].
  - unfold sdof_ltha, n1. case_decide; [lia|done].
  - destruct (loop_shape Ag dt T xi m _ (init_shape Ag T xi m Hn)) as (Hu & _).
    unfold Ag, T in Hu. by rewrite !length_fmap in Hu.
  - assert (H : hist_finite (loop Ag dt T xi m (init Ag T xi m))).
    { unfold loop. generalize (seq 0 (n1 Ag - 1)). intros ix.
      generalize init_finite. generalize (init Ag T xi m).
      induction ix as [|i ix IH]; intros h Hh; simpl; [done|].
      apply IH. by apply step_finite. }
    apply H.
Qed.
End run.

End sdof_finite.

(** ** The rotated spectrum *)

Module rotd_facts.
Import rotd sdof_facts sdof_finite gm_facts dur.

(** *** Sorting *)

Lemma nleb_fin (a b : Q) : (Fin a <=? Fin b)%num = true ↔ a <= b.
Proof.
  unfold nleb; simpl. destruct (a ?= b) eqn:E.
  - apply Qeq_alt in E. split; [intros _; lra|done].
  - apply Qlt_alt in E. split; [intros _; lra|done].
  - apply Qgt_alt in E. split; [done|intros; lra].
Qed.

Lemma nltb_fin_false (a b : Q) : (Fin a <? Fin b)%num = false ↔ b <= a.
Proof.
  unfold nltb; simpl. destruct (a ?= b) eqn:E.
  - apply Qeq_alt in E. split; [intros _; lra|done].
  - apply Qlt_alt in E. split; [done|intros; lra].
  - apply Qgt_alt in E. split; [intros _; lra|done].
Qed.

#[global] Instance sort_le_total : Total sort_le.
Proof.
  intros x y. unfold sort_le, sort_leb.
  destruct x as [a| | |], y as [b| | |]; try (by left); try (by right).
  destruct (Qlt_le_dec b a); [right|left]; apply nleb_fin; [lra|done].
Qed.

#[global] Instance sort_le_trans : Transitive sort_le.
Proof.
  intros x y z. unfold sort_le, sort_leb.
  destruct x as [a| | |], y as [b| | |], z as [c| | |]; try done.
  rewrite !nleb_fin. apply Qle_trans.
Qed.

Lemma sort_le_fin (x y : num) : finite x → finite y → sort_le x y → fin_le x y.
Proof.
  destruct x as [a| | |], y as [b| | |]; try done. intros _ _. apply nleb_fin.
Qed.

Lemma fin_le_antisym (x y : num) : fin_le x y → fin_le y x → (x ≈ y)%num.
Proof.
  destruct x as [a| | |], y as [b| | |]; simpl; try done. intros. lra.
Qed.

Lemma sorted_finite (l : vec) :
  StronglySorted sort_le l → Forall finite l → StronglySorted fin_le l.
Proof.
  induction 1 as [|x l Hs IH Hall]; intros Hf; [constructor|].
  apply Forall_cons in Hf as [Hx Hf]. constructor; [by apply IH|].
  apply Forall_forall. intros y Hy. apply sort_le_fin; [done| |].
  - by apply (proj1 (Forall_forall _ _) Hf).
  - by apply (proj1 (Forall_forall _ _) Hall).
Qed.

Lemma np_sort_spec (a : vec) :
  Forall finite a →
  StronglySorted fin_le (np_sort a) ∧ np_sort a ≡ₚ a ∧ Forall finite (np_sort a)
  ∧ Forall (λ x, fin_le x x) (np_sort a).
Proof.
  intros Ha.
  assert (Hp : np_sort a ≡ₚ a) by apply merge_sort_Permutation.
  assert (Hf : Forall finite (np_sort a)) by by rewrite Hp.
  assert (Hs : StronglySorted sort_le (np_sort a))
    by (apply StronglySorted_merge_sort; apply _).
  split; [by apply sorted_finite|split; [done|split; [done|]]].
  eapply Forall_impl; [exact Hf|]. intros [q| | |] Hq; try done. simpl. lra.
Qed.

(** *** Maximum and minimum *)

Lemma foldl_nmax_spec (xs : vec) (x0 : num) :
  finite x0 → Forall finite xs →
  let mx := foldl nmax x0 xs in
  finite mx ∧ mx ∈ x0 :: xs ∧ ∀ y, y ∈ x0 :: xs → fin_le y mx.
Proof.
  revert x0. induction xs as [|x xs IH]; intros x0 H0 Hxs; simpl.
  - split; [done|]. split; [by left|]. intros y Hy.
    apply list_elem_of_singleton in Hy as ->. destruct x0; try done. simpl. lra.
  - apply Forall_cons in Hxs as [Hx Hxs].
    destruct (IH (nmax x0 x) (finite_nmax _ _ H0 Hx) Hxs) as (Hf & Hin & Hub).
    split; [done|]. split.
    + apply elem_of_cons in Hin as [->|Hin]; [|by do 2 right].
      destruct x0 as [a| | |], x as [b| | |]; try done. simpl.
      destruct (Fin a <? Fin b)%num; [right; left|left]; done.
    + intros y Hy.
      apply elem_of_cons in Hy as [->|Hy]; [|apply elem_of_cons in Hy as [->|Hy]].
      * etrans; [|apply Hub; by left].
        destruct x0 as [a| | |], x as [b| | |]; try done.
        simpl. destruct (Fin a <? Fin b)%num eqn:E; simpl; [|lra].
        unfold nltb in E; simpl in E. destruct (a ?= b) eqn:C; try done.
        apply Qlt_alt in C. lra.
      * etrans; [|apply Hub; by left].
        destruct x0 as [a| | |], x as [b| | |]; try done.
        simpl. destruct (Fin a <? Fin b)%num eqn:E; simpl; [lra|].
        by apply nltb_fin_false in E.
      * apply Hub. by right.
Qed.

Lemma foldl_nmin_spec (xs : vec) (x0 : num) :
  finite x0 → Forall finite xs →
  let mn := foldl nmin x0 xs in
  finite mn ∧ mn ∈ x0 :: xs ∧ ∀ y, y ∈ x0 :: xs → fin_le mn y.
Proof.
  revert x0. induction xs as [|x xs IH]; intros x0 H0 Hxs; simpl.
  - split; [done|]. split; [by left|]. intros y Hy.
    apply list_elem_of_singleton in Hy as ->. destruct x0; try done. simpl. lra.
  - apply Forall_cons in Hxs as [Hx Hxs].
    assert (Hm : finite (nmin x0 x)).
    { destruct x0, x; simpl; try done. by destruct (_ <? _)%num. }
    destruct (IH (nmin x0 x) Hm Hxs) as (Hf & Hin & Hlb).
    split; [done|]. split.
    + apply elem_of_cons in Hin as [->|Hin]; [|by do 2 right].
      destruct x0 as [a| | |], x as [b| | |]; try done. simpl.
      destruct (Fin b <? Fin a)%num; [right; left|left]; done.
    + intros y Hy.
      apply elem_of_cons in Hy as [->|Hy]; [|apply elem_of_cons in Hy as [->|Hy]].
      * etrans; [apply Hlb; by left|].
        destruct x0 as [a| | |], x as [b| | |]; try done.
        simpl. destruct (Fin b <? Fin a)%num eqn:E; simpl; [|lra].
        unfold nltb in E; simpl in E. destruct (b ?= a) eqn:C; try done.
        apply Qlt_alt in C. lra.
      * etrans; [apply Hlb; by left|].
        destruct x0 as [a| | |], x as [b| | |]; try done.
        simpl. destruct (Fin b <? Fin a)%num eqn:E; simpl; [lra|].
        by apply nltb_fin_false in E.
      * apply Hlb. by right.
Qed.

(** *** Percentiles *)

Lemma lerp_fin (a b g : Q) :
  ∃ r, lerp (Fin a) (Fin b) (Fin g) = Fin r ∧ r == a + (b - a) * g.
Proof.
  unfold lerp. destruct (_ >=? _)%num; simpl; eexists; (split; [done|ring]).
Qed.

Lemma last_at (l : vec) : l ≠ [] → last l = Some (at_ l (length l - 1)).
Proof.
  intros Hne. rewrite last_lookup. unfold at_.
  replace (pred (length l)) with (length l - 1)%nat by lia.
  apply list_lookup_lookup_total_lt. destruct l; [done|simpl; lia].
Qed.

Lemma head_at (l : vec) : l ≠ [] → head l = Some (at_ l 0).
Proof. by destruct l. Qed.

(** The 100th percentile of finite numbers is the last of them in
    increasing order. *)
Lemma percentile_100 (a : vec) :
  a ≠ [] → Forall finite a →
  ∃ z p, last (np_sort a) = Some z ∧ percentile a (Fin 100) = Ok p ∧ (p ≈ z)%num.
Proof.
  intros Hne Ha. destruct (np_sort_spec a Ha) as (_ & Hp & Hf & _).
  assert (Hlen : length (np_sort a) = length a) by by rewrite Hp.
  assert (Hn : (0 < length a)%nat) by (destruct a; [done|simpl; lia]).
  assert (Hne' : np_sort a ≠ []) by (intros E; rewrite E in Hlen; simpl in Hlen; lia).
  assert (Hz := finite_at _ (length (np_sort a) - 1) Hf).
  destruct (at_ (np_sort a) (length (np_sort a) - 1)) as [z| | |] eqn:Ez; try done.
  exists (Fin z). unfold percentile.
  change (quantile (Fin 100)) with (Ok (A:=Q) (100 # 100)). cbn [rbind].
  unfold quantile_1d. cbv beta iota zeta.
  set (n := Z.of_nat (length a)).
  assert (Habove : Qle_bool (inject_Z (n - 1)) (inject_Z (n - 1) * (100 # 100)) = true).
  { apply Qle_bool_iff. generalize (inject_Z (n - 1)). intros y. lra. }
  rewrite Habove. cbv beta iota.
  change (-1 <? 0)%Z with true. cbv beta iota.
  replace (Z.to_nat (n + -1)) with (length (np_sort a) - 1)%nat by lia.
  rewrite (last_at _ Hne'), Ez.
  destruct (lerp_fin z z (inject_Z (n - 1) * (100 # 100) - inject_Z (-1))) as (r & -> & Hr).
  eexists. split; [done|]. split; [done|]. simpl. rewrite Hr. ring.
Qed.

(** The 0th percentile of finite numbers is the first of them in increasing
    order. *)
Lemma percentile_0 (a : vec) :
  a ≠ [] → Forall finite a →
  ∃ z p, head (np_sort a) = Some z ∧ percentile a (Fin 0) = Ok p ∧ (p ≈ z)%num.
Proof.
  intros Hne Ha. destruct (np_sort_spec a Ha) as (_ & Hp & Hf & _).
  assert (Hlen : length (np_sort a) = length a) by by rewrite Hp.
  assert (Hn : (0 < length a)%nat) by (destruct a; [done|simpl; lia]).
  assert (Hne' : np_sort a ≠ []) by (intros E; rewrite E in Hlen; simpl in Hlen; lia).
  assert (Hz := finite_at _ 0 Hf).
  destruct (at_ (np_sort a) 0) as [z| | |] eqn:Ez; try done.
  assert (Hl := finite_at _ (length (np_sort a) - 1) Hf).
  assert (Hlast := last_at _ Hne').
  destruct (at_ (np_sort a) (length (np_sort a) - 1)) as [zl| | |] eqn:Ezl; try done.
  exists (Fin z). unfold percentile.
  change (quantile (Fin 0)) with (Ok (A:=Q) (0 # 100)). cbn [rbind].
  unfold quantile_1d. cbv beta iota zeta. rewrite Hlast.
  set (n := Z.of_nat (length a)).
  assert (Hv : inject_Z (n - 1) * (0 # 100) == 0) by ring.
  destruct (Qle_bool (inject_Z (n - 1)) (inject_Z (n - 1) * (0 # 100))) eqn:Habove;
    cbv beta iota.
  - apply Qle_bool_iff in Habove. rewrite Hv in Habove.
    change 0 with (inject_Z 0) in Habove. rewrite <- Zle_Qle in Habove.
    assert (length a = 1%nat) as Hone by lia.
    change (-1 <? 0)%Z with true. cbv beta iota.
    replace (Z.to_nat (n + -1)) with 0%nat by lia. rewrite Ez.
    destruct (lerp_fin z z (inject_Z (n - 1) * (0 # 100) - inject_Z (-1)))
      as (r & -> & Hr).
    eexists. split; [by rewrite (head_at _ Hne'), Ez|]. split; [done|]. simpl. rewrite Hr. ring.
  - assert (Hfl : Qfloor (inject_Z (n - 1) * (0 # 100)) = 0%Z)
      by (rewrite Hv; reflexivity).
    rewrite Hfl. change (0 <? 0)%Z with false. change (0 + 1 <? 0)%Z with false.
    cbv beta iota. change (Z.to_nat 0) with 0%nat. rewrite Ez.
    assert (H1 := finite_at _ (Z.to_nat (0 + 1)) Hf).
    destruct (at_ (np_sort a) (Z.to_nat (0 + 1))) as [z1| | |]; try done.
    destruct (lerp_fin z z1 (inject_Z (n - 1) * (0 # 100) - inject_Z 0))
      as (r & -> & Hr).
    eexists. split; [by rewrite (head_at _ Hne'), Ez|]. split; [done|]. simpl. rewrite Hr.
    rewrite Hv. ring.
Qed.

Lemma num_eq_trans (x y z : num) : (x ≈ y)%num → (y ≈ z)%num → (x ≈ z)%num.
Proof. destruct x, y, z; simpl; try done. intros -> ->. reflexivity. Qed.

(** The extreme percentiles are the extremes, for finite numbers. *)
Lemma percentile_extremes (a : vec) :
  a ≠ [] → Forall finite a →
  ∃ p100 p0 mx mn,
    percentile a (Fin 100) = Ok p100 ∧ percentile a (Fin 0) = Ok p0
    ∧ np_max a = Ok mx ∧ np_min a = Ok mn
    ∧ (p100 ≈ mx)%num ∧ (p0 ≈ mn)%num.
Proof.
  intros Hne Ha.
  destruct (percentile_100 a Hne Ha) as (zl & p100 & Hlast & H100 & E100).
  destruct (percentile_0 a Hne Ha) as (z0 & p0 & Hhead & H0 & E0).
  destruct (np_sort_spec a Ha) as (Hs & Hp & Hf & Hr).
  destruct a as [|x0 xs]; [done|]. apply Forall_cons in Ha as [Hx0 Hxs].
  destruct (foldl_nmax_spec xs x0 Hx0 Hxs) as (_ & Hmx_in & Hmx).
  destruct (foldl_nmin_spec xs x0 Hx0 Hxs) as (_ & Hmn_in & Hmn).
  exists p100, p0, (foldl nmax x0 xs), (foldl nmin x0 xs).
  repeat split; try done.
  - eapply num_eq_trans; [exact E100|]. apply fin_le_antisym.
    + apply Hmx. rewrite <- Hp. by apply last_Some_elem_of.
    + apply (proj2 (sorted_first_last _ _ (foldl nmax x0 xs) Hs Hr ltac:(by rewrite Hp))).
      done.
  - eapply num_eq_trans; [exact E0|]. apply fin_le_antisym.
    + apply (proj1 (sorted_first_last _ _ (foldl nmin x0 xs) Hs Hr ltac:(by rewrite Hp))).
      done.
    + apply Hmn. rewrite <- Hp. by apply head_Some_elem_of.
Qed.

(** *** Loops *)

Lemma for_each_insert {B} (g : nat → result B) (P : B → Prop)
    (js : list nat) (a0 : list B) :
  (∀ j, j ∈ js → ∃ row, g j = Ok row ∧ P row) → Forall P a0 →
  ∃ a,
    for_each js (λ a j, let* row := g j in Ok (<[j := row]> a)) a0 = Ok a
    ∧ length a = length a0 ∧ Forall P a
    ∧ (∀ i, i ∉ js → a !! i = a0 !! i)
    ∧ (NoDup js → ∀ j, j ∈ js → (j < length a0)%nat →
         ∃ row, g j = Ok row ∧ a !! j = Some row).
Proof.
  revert a0. induction js as [|j js IH]; intros a0 Hg H0; simpl.
  - exists a0. repeat split; try done. intros _ j Hj. by apply elem_of_nil in Hj.
  - destruct (Hg j) as (row & Hrow & HP); [by left|]. rewrite Hrow. simpl.
    destruct (IH (<[j := row]> a0)) as (a & Ha & Hlen & HF & Hout & Hin).
    { intros j' Hj'. apply Hg. by right. }
    { by apply Forall_insert. }
    exists a. rewrite length_insert in Hlen. repeat split; try done.
    + intros i Hi. apply not_elem_of_cons in Hi as [Hij Hi].
      rewrite (Hout i Hi). by apply list_lookup_insert_ne.
    + intros Hnd j' Hj' Hlt. apply NoDup_cons in Hnd as [Hj Hnd].
      apply elem_of_cons in Hj' as [->|Hj'].
      * exists row. split; [done|]. rewrite (Hout j Hj).
        by apply list_lookup_insert_eq.
      * apply (Hin Hnd j' Hj'). by rewrite length_insert.
Qed.

(** *** The matrix of rotated peaks *)

Definition good_row (s : nat) (row : vec) : Prop := length row = s ∧ Forall finite row.

Lemma good_rows (r s : nat) (M : mat) :
  shape r s M → all_finite M → Forall (good_row s) M.
Proof. intros [_ Hl] Hf. apply Forall_and. done. Qed.

Lemma good_row_nmax (s : nat) (r1 r2 : vec) :
  good_row s r1 → good_row s r2 → good_row s (zip_with nmax r1 r2).
Proof.
  intros [L1 F1] [L2 F2]. split; [rewrite length_zip_with; lia|].
  eapply Forall_zip_with_2; [apply finite_nmax|done..].
Qed.

Lemma good_row_foldl_nmax (s : nat) (rs : mat) (r0 : vec) :
  good_row s r0 → Forall (good_row s) rs → good_row s (foldl (zip_with nmax) r0 rs).
Proof.
  revert r0. induction rs as [|r rs IH]; intros r0 H0 Hrs; simpl; [done|].
  apply Forall_cons in Hrs as [Hr Hrs]. apply IH; [|done]. by apply good_row_nmax.
Qed.

(** *** What the rows of [Rot_Disp] and [Rot_Acc] hold *)

(** [x] is the greatest, respectively the least, item of [l]. *)
Definition is_max (x : num) (l : vec) : Prop :=
  x ∈ l ∧ ∀ y, y ∈ l → (y <=? x)%num = true.
Definition is_min (x : num) (l : vec) : Prop :=
  x ∈ l ∧ ∀ y, y ∈ l → (x <=? y)%num = true.

Lemma np_max_is_max (l : vec) (mx : num) :
  Forall finite l → np_max l = Ok mx → is_max mx l.
Proof.
  intros Hl H. destruct l as [|x0 xs]; [done|]. simpl in H. apply Ok_inj in H. subst mx.
  apply Forall_cons in Hl as [H0 Hxs].
  destruct (foldl_nmax_spec xs x0 H0 Hxs) as (_ & Hin & Hub).
  split; [done|]. intros y Hy. by apply fin_le_nleb, Hub.
Qed.

Lemma np_min_is_min (l : vec) (mn : num) :
  Forall finite l → np_min l = Ok mn → is_min mn l.
Proof.
  intros Hl H. destruct l as [|x0 xs]; [done|]. simpl in H. apply Ok_inj in H. subst mn.
  apply Forall_cons in Hl as [H0 Hxs].
  destruct (foldl_nmin_spec xs x0 H0 Hxs) as (_ & Hin & Hlb).
  split; [done|]. intros y Hy. by apply fin_le_nleb, Hlb.
Qed.

Lemma at_lookup {A} `{Inhabited A} (l : list A) (i : nat) (x : A) :
  l !! i = Some x → at_ l i = x.
Proof. apply list_lookup_total_correct. Qed.

(** The maximum along the first axis, column by column. *)
Lemma at_zip_with (f : num → num → num) (r1 r2 : vec) (j : nat) :
  (j < length r1)%nat → (j < length r2)%nat →
  at_ (zip_with f r1 r2) j = f (at_ r1 j) (at_ r2 j).
Proof.
  intros H1 H2. unfold at_.
  destruct (lookup_lt_is_Some_2 r1 j H1) as [x Hx].
  destruct (lookup_lt_is_Some_2 r2 j H2) as [y Hy].
  rewrite (list_lookup_total_correct _ _ _ Hx), (list_lookup_total_correct _ _ _ Hy).
  apply list_lookup_total_correct. by rewrite lookup_zip_with, Hx, Hy.
Qed.

Lemma at_foldl_zip_with (f : num → num → num) (s : nat) (rs : mat) (r0 : vec) (j : nat) :
  length r0 = s → Forall (λ r, length r = s) rs → (j < s)%nat →
  at_ (foldl (zip_with f) r0 rs) j = foldl f (at_ r0 j) (col rs j).
Proof.
  revert r0. induction rs as [|r rs IH]; intros r0 H0 Hrs Hj; simpl; [done|].
  apply Forall_cons in Hrs as [Hr Hrs].
  rewrite IH; [|rewrite length_zip_with; lia|done|done].
  by rewrite at_zip_with by lia.
Qed.

Section library.
Context (cos_deg sin_deg : nat → num).
Hypothesis cos_finite : ∀ theta, finite (cos_deg theta).
Hypothesis sin_finite : ∀ theta, finite (sin_deg theta).

Lemma rot_disp_row_good (r s : nat) (u1 u2 : mat) (theta : nat) :
  (0 < r)%nat → shape r s u1 → shape r s u2 → all_finite u1 → all_finite u2 →
  ∃ row, rot_disp_row cos_deg sin_deg u1 u2 theta = Ok row ∧ good_row s row.
Proof.
  intros Hr S1 S2 F1 F2. unfold rot_disp_row.
  set (F := λ r1 r2 : vec,
    nabs <$> vadd ((λ x, x * cos_deg theta)%num <$> r1)
                  ((λ x, x * sin_deg theta)%num <$> r2)).
  assert (HF : Forall (good_row s) (zip_with F u1 u2)).
  { eapply Forall_zip_with_2; [|by eapply good_rows..].
    intros r1 r2 [L1 G1] [L2 G2]. unfold F, vadd. split.
    - rewrite length_fmap, length_zip_with, !length_fmap. lia.
    - rewrite Forall_fmap.
      eapply Forall_zip_with_2.
      + intros y z Hy Hz. beta_compose. apply finite_abs, finite_add; [exact Hy|exact Hz].
      + rewrite Forall_fmap. eapply Forall_impl; [exact G1|].
        intros y Hy. beta_compose. by apply finite_mul.
      + rewrite Forall_fmap. eapply Forall_impl; [exact G2|].
        intros y Hy. beta_compose. by apply finite_mul. }
  destruct S1 as [L1 _], S2 as [L2 _].
  destruct u1 as [|r1 u1]; [simpl in L1; lia|].
  destruct u2 as [|r2 u2]; [simpl in L2; lia|].
  simpl in HF |- *. apply Forall_cons in HF as [H0 HF].
  eexists. split; [done|]. by apply good_row_foldl_nmax.
Qed.

Lemma Rot_Acc_good (RD : mat) (Tq : list Q) :
  Forall (λ t, 0 < t) Tq →
  Forall (good_row (length Tq)) RD →
  Forall (good_row (length Tq)) (Rot_Acc RD (Fin <$> Tq)).
Proof.
  intros Tpos HRD. unfold Rot_Acc. rewrite Forall_fmap.
  eapply Forall_impl; [exact HRD|]. intros row [L G]. beta_compose. split.
  - rewrite length_zip_with, length_fmap. lia.
  - eapply Forall_zip_with_2; [|exact G|apply (T_pos Tq Tpos)].
    intros y t Hy Ht. beta_compose. apply finite_mul; [done|].
    apply pos_finite, pos_nsq. by apply (pos_div (2 * np_pi)%num).
Qed.

Lemma col_good (M : mat) (s j : nat) :
  Forall (good_row s) M → length (col M j) = length M ∧ Forall finite (col M j).
Proof.
  intros HM. unfold col. split; [by rewrite length_fmap|].
  rewrite Forall_fmap. eapply Forall_impl; [exact HM|].
  intros row [_ G]. beta_compose. by apply finite_at.
Qed.

(** The displacement rotated to the angle [theta], in absolute value, at
    the period of index [j], over the time steps:
    [|u1[t][j] * cos(theta) + u2[t][j] * sin(theta)|]. *)
Definition rotated (u1 u2 : mat) (j theta : nat) : vec :=
  (λ t, nabs (at_ (at_ u1 t) j * cos_deg theta + at_ (at_ u2 t) j * sin_deg theta)%num)
    <$> seq 0 (length u1).

Lemma rot_disp_row_max (r s : nat) (u1 u2 : mat) (theta j : nat) (row : vec) :
  (0 < r)%nat → shape r s u1 → shape r s u2 → all_finite u1 → all_finite u2 →
  rot_disp_row cos_deg sin_deg u1 u2 theta = Ok row → (j < s)%nat →
  ∃ rd, row !! j = Some rd ∧ finite rd ∧ is_max rd (rotated u1 u2 j theta).
Proof.
  intros Hr S1 S2 F1 F2 Hrow Hj. unfold rot_disp_row in Hrow.
  set (F := λ r1 r2 : vec,
    nabs <$> vadd ((λ x, x * cos_deg theta)%num <$> r1)
                  ((λ x, x * sin_deg theta)%num <$> r2)) in Hrow.
  assert (HF : Forall (good_row s) (zip_with F u1 u2)).
  { eapply Forall_zip_with_2; [|by eapply good_rows..].
    intros r1 r2 [L1 G1] [L2 G2]. unfold F, vadd. split.
    - rewrite length_fmap, length_zip_with, !length_fmap. lia.
    - rewrite Forall_fmap.
      eapply Forall_zip_with_2.
      + intros y z Hy Hz. beta_compose. apply finite_abs, finite_add; [exact Hy|exact Hz].
      + rewrite Forall_fmap. eapply Forall_impl; [exact G1|].
        intros y Hy. beta_compose. by apply finite_mul.
      + rewrite Forall_fmap. eapply Forall_impl; [exact G2|].
        intros y Hy. beta_compose. by apply finite_mul. }
  assert (Hcol : col (zip_with F u1 u2) j = rotated u1 u2 j theta).
  { destruct S1 as [L1 R1], S2 as [L2 R2]. unfold col, rotated.
    apply list_eq. intros t. rewrite !list_lookup_fmap, lookup_zip_with.
    destruct (decide (t < r)%nat) as [Ht|Ht].
    - destruct (lookup_lt_is_Some_2 u1 t) as [r1 E1]; [lia|].
      destruct (lookup_lt_is_Some_2 u2 t) as [r2 E2]; [lia|].
      rewrite E1, E2, lookup_seq_lt by lia. simpl. f_equal.
      rewrite (at_lookup u1 t r1 E1), (at_lookup u2 t r2 E2).
      assert (Lr1 := Forall_lookup_1 _ _ _ _ R1 E1).
      assert (Lr2 := Forall_lookup_1 _ _ _ _ R2 E2). simpl in Lr1, Lr2.
      destruct (lookup_lt_is_Some_2 r1 j) as [x Ex]; [lia|].
      destruct (lookup_lt_is_Some_2 r2 j) as [y Ey]; [lia|].
      rewrite (at_lookup r1 j x Ex), (at_lookup r2 j y Ey).
      apply at_lookup. unfold F, vadd.
      by rewrite list_lookup_fmap, lookup_zip_with, !list_lookup_fmap, Ex, Ey.
    - rewrite (lookup_ge_None_2 u1) by lia. simpl.
      by rewrite lookup_seq_ge by lia. }
  destruct (zip_with F u1 u2) as [|m0 ms] eqn:EM; [done|].
  simpl in Hrow. apply Ok_inj in Hrow. subst row.
  apply Forall_cons in HF as [[L0 G0] Hms].
  assert (Hat := at_foldl_zip_with nmax s ms m0 j L0
                   (Forall_impl _ _ _ Hms (λ _ H, proj1 H)) Hj).
  assert (Hlen : length (foldl (zip_with nmax) m0 ms) = s)
    by (apply (good_row_foldl_nmax s ms m0); [done|done]).
  destruct (foldl_nmax_spec (col ms j) (at_ m0 j)) as (Hfin & Hin & Hub).
  { by apply finite_at. }
  { unfold col. rewrite Forall_fmap. eapply Forall_impl; [exact Hms|].
    intros row [_ G]. beta_compose. by apply finite_at. }
  cbv zeta in Hfin, Hin, Hub. rewrite <- Hat in Hfin, Hin, Hub.
  exists (at_ (foldl (zip_with nmax) m0 ms) j). split; [|split; [done|]].
  - apply list_lookup_lookup_total_lt. lia.
  - rewrite <- Hcol. change (col (m0 :: ms) j) with (at_ m0 j :: col ms j).
    split; [done|]. intros y Hy. by apply fin_le_nleb, Hub.
Qed.

(** The entries of [Rot_Acc]. *)
Lemma col_Rot_Acc (RD : mat) (T row : vec) (theta j : nat) (rd Tj : num) :
  RD !! theta = Some row → row !! j = Some rd → T !! j = Some Tj →
  col (Rot_Acc RD T) j !! theta = Some (rd * nsq (2 * np_pi / Tj))%num.
Proof.
  intros HR Hrd HT. unfold col, Rot_Acc.
  rewrite !list_lookup_fmap, HR. simpl. f_equal.
  apply list_lookup_total_correct. by rewrite lookup_zip_with, Hrd, HT.
Qed.
(** C7. For every pair of finite components of one length, every time step
    [dt > 0], every grid of strictly positive periods and every damping
    ratio that is not negative, both solver runs return and the matrix
    [Rot_Disp] holds, in its 180 rows, the rotated peak displacements of the
    angles 0 .. 179: at the angle [theta] and the period [T[j]] the greatest
    of [|u1[t][j] * cos(theta) + u2[t][j] * sin(theta)|] over the time
    steps [t].  [Rot_Acc] holds this peak times [(2 * pi / T[j]) ** 2], the
    rotated pseudo-acceleration, and [RotDxx_spectrum] with percentile 100
    returns, at each period, the greatest of the 180 rotated
    pseudo-accelerations, with percentile 0 the least of them. *)
Theorem rotd_extreme_percentiles (A1 A2 Tq : list Q) (d x : Q) :
  A1 ≠ [] → length A1 = length A2 → 0 < d → Forall (λ t, 0 < t) Tq → 0 <= x →
  let Ag1 := Fin <$> A1 in
  let Ag2 := Fin <$> A2 in
  let T := Fin <$> Tq in
  ∃ h1 h2 RD Sa100 Sa0,
    sdof.sdof_ltha Ag1 (Fin d) T (Fin x) 1 = Ok h1
    ∧ sdof.sdof_ltha Ag2 (Fin d) T (Fin x) 1 = Ok h2
    ∧ Rot_Disp cos_deg sin_deg (sdof.u h1) (sdof.u h2) (length T) = Ok RD
    ∧ length RD = 180%nat
    ∧ (∀ theta, (theta < 180)%nat →
         ∃ row, rot_disp_row cos_deg sin_deg (sdof.u h1) (sdof.u h2) theta = Ok row
                ∧ RD !! theta = Some row)
    ∧ RotDxx_spectrum cos_deg sin_deg Ag1 Ag2 (Fin d) T (Fin x) (Fin 100) = Ok Sa100
    ∧ RotDxx_spectrum cos_deg sin_deg Ag1 Ag2 (Fin d) T (Fin x) (Fin 0) = Ok Sa0
    ∧ ∀ j, (j < length Tq)%nat →
        ∃ p100 p0 mx mn,
          Sa100 !! j = Some p100 ∧ Sa0 !! j = Some p0
          ∧ length (col (Rot_Acc RD T) j) = 180%nat
          ∧ np_max (col (Rot_Acc RD T) j) = Ok mx
          ∧ np_min (col (Rot_Acc RD T) j) = Ok mn
          ∧ (p100 ≈ mx)%num ∧ (p0 ≈ mn)%num
          ∧ is_max mx (col (Rot_Acc RD T) j) ∧ is_min mn (col (Rot_Acc RD T) j)
          ∧ ∀ theta, (theta < 180)%nat →
              ∃ rd Tj,
                T !! j = Some Tj
                ∧ is_max rd (rotated (sdof.u h1) (sdof.u h2) j theta)
                ∧ col (Rot_Acc RD T) j !! theta
                  = Some (rd * nsq (2 * np_pi / Tj))%num.
Proof.
  intros Hne Hlen Hd Tpos Hx Ag1 Ag2 T.
  assert (Hne2 : A2 ≠ []) by (intros ->; destruct A1; simpl in Hlen; done).
  destruct (sdof_ltha_finite A1 Tq d x Tpos Hd Hx Hne) as (h1 & H1 & S1 & F1).
  destruct (sdof_ltha_finite A2 Tq d x Tpos Hd Hx Hne2) as (h2 & H2 & S2 & F2).
  rewrite <- Hlen in S2.
  assert (Hn : (0 < length A1)%nat) by (destruct A1; [done|simpl; lia]).
  assert (LT : length T = length Tq) by (unfold T; by rewrite length_fmap).
  destruct (for_each_insert (rot_disp_row cos_deg sin_deg (sdof.u h1) (sdof.u h2))
              (good_row (length Tq)) (seq 0 180) (zeros2 180 (length Tq)))
    as (RD & HRD & LRD & GRD & _ & Hrows).
  { intros theta _. by eapply rot_disp_row_good. }
  { eapply good_rows; [apply shape_zeros2|apply all_finite_zeros2]. }
  assert (L180 : length RD = 180%nat)
    by (rewrite LRD; unfold zeros2; by rewrite length_replicate).
  assert (GRA := Rot_Acc_good RD Tq Tpos GRD). fold T in GRA.
  assert (Hcols : ∀ j, ∃ p100 p0 mx mn,
    percentile (col (Rot_Acc RD T) j) (Fin 100) = Ok p100
    ∧ percentile (col (Rot_Acc RD T) j) (Fin 0) = Ok p0
    ∧ length (col (Rot_Acc RD T) j) = 180%nat
    ∧ np_max (col (Rot_Acc RD T) j) = Ok mx ∧ np_min (col (Rot_Acc RD T) j) = Ok mn
    ∧ (p100 ≈ mx)%num ∧ (p0 ≈ mn)%num
    ∧ is_max mx (col (Rot_Acc RD T) j) ∧ is_min mn (col (Rot_Acc RD T) j)).
  { intros j. destruct (col_good _ _ j GRA) as [Lc Fc].
    assert (Lc' : length (col (Rot_Acc RD T) j) = 180%nat)
      by (rewrite Lc; unfold Rot_Acc; by rewrite length_fmap).
    destruct (percentile_extremes (col (Rot_Acc RD T) j))
      as (p100 & p0 & mx & mn & Q100 & Q0 & Qmx & Qmn & E100 & E0);
      [intros E; rewrite E in Lc'; done|done|].
    exists p100, p0, mx, mn. repeat split; try done.
    - by apply (np_max_is_max _ _ Fc Qmx).
    - by apply (np_max_is_max _ _ Fc Qmx).
    - by apply (np_min_is_min _ _ Fc Qmn).
    - by apply (np_min_is_min _ _ Fc Qmn). }
  assert (Hrun : ∀ xx qq,
    quantile xx = Ok qq →
    RotDxx_spectrum cos_deg sin_deg Ag1 Ag2 (Fin d) T (Fin x) xx
    = Ok ((λ j, quantile_1d (col (Rot_Acc RD T) j) qq) <$> seq 0 (length Tq))).
  { intros xx qq Hqq. unfold RotDxx_spectrum.
    rewrite decide_True by (unfold Ag1, Ag2; by rewrite !length_fmap).
    fold Ag1 Ag2 T. change (Fin 1) with (1 : num) in H1, H2.
    unfold Ag1, Ag2, T in *. rewrite H1. cbn [rbind]. rewrite H2. cbn [rbind].
    unfold Rot_Disp. rewrite length_fmap, HRD. cbn [rbind].
    unfold percentile_axis0. rewrite Hqq. done. }
  eexists h1, h2, RD, _, _.
  split; [exact H1|]. split; [exact H2|]. split; [by rewrite LT|].
  split; [done|]. split.
  { intros theta Ht. apply Hrows; [apply NoDup_seq| |].
    - apply list_elem_of_In, in_seq. lia.
    - unfold zeros2. rewrite length_replicate. done. }
  split; [by apply (Hrun (Fin 100) (100 # 100))|].
  split; [by apply (Hrun (Fin 0) (0 # 100))|].
  intros j Hj.
  destruct (Hcols j)
    as (p100 & p0 & mx & mn & P100 & P0 & Lc & Hmx & Hmn & E100 & E0 & Mmx & Mmn).
  exists p100, p0, mx, mn.
  rewrite !list_lookup_fmap, lookup_seq_lt by done. simpl.
  unfold percentile in P100, P0.
  change (quantile (Fin 100)) with (Ok (A:=Q) (100 # 100)) in P100.
  change (quantile (Fin 0)) with (Ok (A:=Q) (0 # 100)) in P0.
  cbn [rbind] in P100, P0. injection P100 as ->. injection P0 as ->.
  do 9 (split; [done|]).
  intros theta Ht.
  destruct (Hrows (NoDup_seq 0 180) theta) as (row & Hrow & HRD').
  { apply list_elem_of_In, in_seq. lia. }
  { unfold zeros2. rewrite length_replicate. done. }
  destruct (rot_disp_row_max (length A1) (length Tq) _ _ theta j row Hn S1 S2 F1 F2
              Hrow Hj) as (rd & Hrd & _ & Mrd).
  destruct (lookup_lt_is_Some_2 T j) as [Tj HTj]; [lia|].
  exists rd, Tj. split; [done|]. split; [done|].
  by eapply col_Rot_Acc.
Qed.
End library.

Lemma small_cos_finite (theta : nat) : finite (small.cos_deg theta).
Proof. unfold small.cos_deg. by case_decide. Qed.

Lemma small_sin_finite (theta : nat) : finite (small.sin_deg theta).
Proof. done. Qed.

(** The record of [example] with a second component, and Bhaskara's sine. *)
Lemma rotd_extreme_percentiles_witness :
  let Ag1 := Fin <$> example.Aq in
  let Ag2 := Fin <$> [0; 1; 2; 1] in
  let T := Fin <$> example.Tq in
  ∃ h1 h2 RD Sa100 Sa0,
    sdof.sdof_ltha Ag1 (Fin example.dt) T (Fin example.xi) 1 = Ok h1
    ∧ sdof.sdof_ltha Ag2 (Fin example.dt) T (Fin example.xi) 1 = Ok h2
    ∧ Rot_Disp small.cos_deg small.sin_deg (sdof.u h1) (sdof.u h2) (length T) = Ok RD
    ∧ length RD = 180%nat
    ∧ (∀ theta, (theta < 180)%nat →
         ∃ row, rot_disp_row small.cos_deg small.sin_deg (sdof.u h1) (sdof.u h2) theta
                  = Ok row
                ∧ RD !! theta = Some row)
    ∧ RotDxx_spectrum small.cos_deg small.sin_deg Ag1 Ag2 (Fin example.dt) T
        (Fin example.xi) (Fin 100) = Ok Sa100
    ∧ RotDxx_spectrum small.cos_deg small.sin_deg Ag1 Ag2 (Fin example.dt) T
        (Fin example.xi) (Fin 0) = Ok Sa0
    ∧ ∀ j, (j < length example.Tq)%nat →
        ∃ p100 p0 mx mn,
          Sa100 !! j = Some p100 ∧ Sa0 !! j = Some p0
          ∧ length (col (Rot_Acc RD T) j) = 180%nat
          ∧ np_max (col (Rot_Acc RD T) j) = Ok mx
          ∧ np_min (col (Rot_Acc RD T) j) = Ok mn
          ∧ (p100 ≈ mx)%num ∧ (p0 ≈ mn)%num
          ∧ is_max mx (col (Rot_Acc RD T) j) ∧ is_min mn (col (Rot_Acc RD T) j)
          ∧ ∀ theta, (theta < 180)%nat →
              ∃ rd Tj,
                T !! j = Some Tj
                ∧ is_max rd
                    (rotated small.cos_deg small.sin_deg (sdof.u h1) (sdof.u h2) j theta)
                ∧ col (Rot_Acc RD T) j !! theta
                  = Some (rd * nsq (2 * np_pi / Tj))%num.
Proof.
  apply (rotd_extreme_percentiles small.cos_deg small.sin_deg small_cos_finite
           small_sin_finite example.Aq [0; 1; 2; 1] example.Tq example.dt example.xi).
  - discriminate.
  - reflexivity.
  - reflexivity.
  - repeat constructor.
  - discriminate.
Defined.

End rotd_facts.

(** ** The time step *)

(** ** The steps of [get_parameters], forwards *)

Module gm_run.
Import gm gm_facts sdof_facts.

(** *** Lists *)

Lemma select_mask_false {A} (mask : list bool) (x : list A) :
  Forall (λ b, b = false) mask → select_mask mask x = [].
Proof.
  revert x. induction mask as [|b mask IH]; intros [|x0 x] Hm; try done.
  apply Forall_cons in Hm as [-> Hm]. rewrite dur.select_mask_cons. by apply IH.
Qed.



Lemma last_item_Ok {A} (l : list A) : l ≠ [] → ∃ x, last_item l = Ok x.
Proof.
  intros Hl. unfold last_item. destruct (last l) eqn:E; [eauto|].
  by apply last_None in E.
Qed.

Lemma length_linspace (start stop : num) (n : nat) : length (linspace start stop n) = n.
Proof.
  unfold linspace. case_decide; rewrite ?length_insert, length_fmap, length_seq; done.
Qed.

Lemma length_cumsum_from (acc : num) (x : vec) : length (cumsum_from acc x) = length x.
Proof. revert acc. induction x as [|y x IH]; intros acc; simpl; [done|]. by rewrite IH. Qed.

Lemma length_np_cumsum (x : vec) : length (np_cumsum x) = length x.
Proof. destruct x as [|y x]; simpl; [done|]. by rewrite length_cumsum_from. Qed.

Lemma length_np_diff (x : vec) : length (np_diff x) = (length x - 1)%nat.
Proof. unfold np_diff. rewrite length_zip_with, length_drop. lia. Qed.

(** [cumtrapz(y, x, initial=0)] of two arrays of one length [n >= 1]
    returns an array of this length. *)
Lemma cumtrapz_Ok (y x : vec) :
  length x = length y → y ≠ [] →
  ∃ z, cumtrapz y x = Ok z ∧ length z = length y.
Proof.
  intros Hl Hy. assert (0 < length y)%nat by (destruct y; [done|simpl; lia]).
  unfold cumtrapz. rewrite length_np_diff, decide_False by lia.
  eexists. split; [done|]. simpl.
  unfold trapezoids. rewrite length_np_cumsum, length_zip_with, length_np_diff,
    length_zip_with, length_drop. lia.
Qed.

Lemma np_max_Ok (x : vec) : x ≠ [] → ∃ mx, np_max x = Ok mx.
Proof. destruct x; [done|]. simpl. eauto. Qed.

Lemma np_max_axis0_Ok (a : mat) : a ≠ [] → ∃ mx, np_max_axis0 a = Ok mx.
Proof. destruct a; [done|]. simpl. eauto. Qed.

(** The two blocks of the significant durations raise nothing but the
    [IndexError] of [Aint[-1]], [timed[0]] and [timed[-1]]. *)
Lemma significant_duration_raises (Aint t : vec) (hi : num) (e : exn) :
  significant_duration Aint t hi = Raise e → e = IndexError.
Proof.
  unfold significant_duration, last_item, first_item.
  destruct (last Aint); simpl; [|by intros [= <-]].
  destruct (select_mask _ t) as [|t0 timed]; simpl; [by intros [= <-]|].
  destruct (last (t0 :: timed)); simpl; [done|by intros [= <-]].
Qed.

(** Below a negative last value [L] of the Arias curve no sample lies
    between [0.05 * L] and [hi * L] for [hi > 0.05]: the window is empty
    and [timed[0]] raises. *)
Lemma significant_duration_negative (Aint t : vec) (hi L : Q) :
  last_item Aint = Ok (Fin L) → L < 0 → 0.05 < hi →
  significant_duration Aint t (Fin hi) = Raise IndexError.
Proof.
  intros HL Hneg Hhi. unfold significant_duration. rewrite HL. cbn [rbind].
  rewrite dur.zip_with_fmap_same, select_mask_false; [done|].
  rewrite Forall_fmap. apply Forall_true. intros x. unfold compose. cbv beta.
  destruct x as [a| | |]; try reflexivity.
  destruct (Fin a >=? 0.05 * Fin L)%num eqn:E1; [|done].
  destruct (Fin a <=? Fin hi * Fin L)%num eqn:E2; [|done].
  exfalso. unfold ngeb in E1. cbn [nmul] in E1, E2.
  apply rotd_facts.nleb_fin in E1, E2. nra.
Qed.

Section library.
Context {complex : Type}.
Context (fft : vec → nat → list complex).
Context (np_abs_complex : complex → num).
Context (np_sqrt : num → num).
Context (np_power : num → num → num).

(** On a record that is not empty, the steps up to the Arias intensity
    return, whatever the numbers are. *)
Lemma get_parameters_spectra_Ok (Ag : vec) (dt : num) (T : vec) (xi : num) :
  Ag ≠ [] →
  let T' := filter (λ Tj, (Tj =? 0)%num ≠ true) T in
  let t := linspace 0 (Fin (inject_Z (Z.of_nat (length Ag) - 1)) * dt)%num (length Ag) in
  ∃ Vg Dg h Sd Sv Sa PGA PGV PGD Arias,
    cumtrapz Ag t = Ok Vg ∧ cumtrapz Vg t = Ok Dg
    ∧ sdof.sdof_ltha Ag dt T' xi 1 = Ok h
    ∧ np_max_axis0 ((λ row : vec, nabs <$> row) <$> sdof.u h) = Ok Sd
    ∧ np_max_axis0 ((λ row : vec, nabs <$> row) <$> sdof.v h) = Ok Sv
    ∧ np_max_axis0 ((λ row : vec, nabs <$> row) <$> sdof.ac_tot h) = Ok Sa
    ∧ np_max (nabs <$> Ag) = Ok PGA ∧ np_max (nabs <$> Vg) = Ok PGV
    ∧ np_max (nabs <$> Dg) = Ok PGD
    ∧ last_item (arias_curve Ag dt) = Ok Arias.
Proof.
  intros Hne T' t.
  assert (Hn : (0 < length Ag)%nat) by (destruct Ag; [done|simpl; lia]).
  assert (Lt : length t = length Ag) by apply length_linspace.
  destruct (cumtrapz_Ok Ag t Lt Hne) as (Vg & HVg & LVg).
  assert (HneV : Vg ≠ []) by (intros ->; simpl in LVg; lia).
  destruct (cumtrapz_Ok Vg t ltac:(lia) HneV) as (Dg & HDg & LDg).
  assert (HneD : Dg ≠ []) by (intros ->; simpl in LDg; lia).
  assert (Hh : sdof.sdof_ltha Ag dt T' xi 1
               = Ok (sdof.loop Ag dt T' xi 1 (sdof.init Ag T' xi 1))).
  { unfold sdof.sdof_ltha, sdof.n1. by rewrite decide_False by lia. }
  destruct (loop_shape Ag dt T' xi 1 _ (init_shape Ag T' xi 1 Hn))
    as ([Lu _] & [Lv _] & _ & [Ltot _]).
  set (h := sdof.loop Ag dt T' xi 1 (sdof.init Ag T' xi 1)) in *.
  assert (Hrows : ∀ M : mat, length M = length Ag →
            ∃ mx, np_max_axis0 ((λ row : vec, nabs <$> row) <$> M) = Ok mx).
  { intros M LM. apply np_max_axis0_Ok. intros E.
    apply (f_equal length) in E. rewrite length_fmap in E. simpl in E. lia. }
  destruct (Hrows _ Lu) as [Sd HSd]. destruct (Hrows _ Lv) as [Sv HSv].
  destruct (Hrows _ Ltot) as [Sa HSa].
  assert (Habs : ∀ x : vec, x ≠ [] → ∃ mx, np_max (nabs <$> x) = Ok mx).
  { intros x Hx. apply np_max_Ok. by destruct x. }
  destruct (Habs _ Hne) as [PGA HPGA]. destruct (Habs _ HneV) as [PGV HPGV].
  destruct (Habs _ HneD) as [PGD HPGD].
  destruct (last_item_Ok (arias_curve Ag dt)) as [Arias HArias].
  { unfold arias_curve. intros E. apply (f_equal length) in E.
    rewrite length_fmap, length_np_cumsum, length_fmap in E. simpl in E. lia. }
  by exists Vg, Dg, h, Sd, Sv, Sa, PGA, PGV, PGD, Arias.
Qed.

Ltac rewrite_steps H :=
  lazymatch type of H with
  | _ ∧ _ =>
      let E := fresh "E" in
      destruct H as [E H]; rewrite E; cbn [rbind]; clear E; rewrite_steps H
  | _ => rewrite H; cbn [rbind]; clear H
  end.

Ltac run_spectra Hne :=
  let H := fresh "H" in
  match goal with
  | |- get_parameters _ _ _ _ ?Ag ?dt ?T ?xi = _ =>
      destruct (get_parameters_spectra_Ok Ag dt T xi Hne)
        as (?Vg & ?Dg & ?h & ?Sd & ?Sv & ?Sa & ?PGA & ?PGV & ?PGD & ?Arias & H)
  end;
  cbv zeta in H; unfold get_parameters; cbv zeta; rewrite_steps H.

(** A failure of the window to 75% is the failure of the call. *)
Lemma get_parameters_raise_75 (Ag : vec) (dt : num) (T : vec) (xi : num) (e : exn) :
  Ag ≠ [] →
  let t := linspace 0 (Fin (inject_Z (Z.of_nat (length Ag) - 1)) * dt)%num (length Ag) in
  significant_duration (arias_curve Ag dt) t 0.75 = Raise e →
  get_parameters fft np_abs_complex np_sqrt np_power Ag dt T xi = Raise e.
Proof.
  intros Hne t H75. unfold t in H75. run_spectra Hne. by rewrite H75.
Qed.

(** So is a failure of the window to 95%, and of the Fourier spectrum. *)
Lemma get_parameters_raise_95 (Ag : vec) (dt : num) (T : vec) (xi : num)
    (r : num * num * num) (e : exn) :
  Ag ≠ [] →
  let t := linspace 0 (Fin (inject_Z (Z.of_nat (length Ag) - 1)) * dt)%num (length Ag) in
  significant_duration (arias_curve Ag dt) t 0.75 = Ok r →
  significant_duration (arias_curve Ag dt) t 0.95 = Raise e →
  get_parameters fft np_abs_complex np_sqrt np_power Ag dt T xi = Raise e.
Proof.
  intros Hne t H75 H95. unfold t in H75, H95. run_spectra Hne.
  rewrite H75. cbn [rbind]. destruct r as [[t1 t2] D]. by rewrite H95.
Qed.

Lemma get_parameters_raise_fourier (Ag : vec) (dt : num) (T : vec) (xi : num)
    (r r' : num * num * num) (Td : num) (e : exn) :
  Ag ≠ [] →
  let t := linspace 0 (Fin (inject_Z (Z.of_nat (length Ag) - 1)) * dt)%num (length Ag) in
  significant_duration (arias_curve Ag dt) t 0.75 = Ok r →
  significant_duration (arias_curve Ag dt) t 0.95 = Ok r' →
  last_item t = Ok Td →
  (∀ aRMS, fourier fft np_abs_complex Ag dt Td aRMS = Raise e) →
  get_parameters fft np_abs_complex np_sqrt np_power Ag dt T xi = Raise e.
Proof.
  intros Hne t H75 H95 HTd HF. unfold t in H75, H95, HTd. run_spectra Hne.
  rewrite H75. cbn [rbind]. destruct r as [[t1 t2] D].
  rewrite H95. cbn [rbind]. destruct r' as [[t1' t2'] D'].
  destruct (uniform_duration _ _ _) as [tu Du].
  rewrite HTd. cbn [rbind]. by rewrite HF.
Qed.

(** With [dt = 0] the call fails, at the latest in [np.fft.fftfreq(N, dt)],
    which divides [1.0] by [N * dt]. *)
Lemma get_parameters_zero_dt (Ag : vec) (dt : num) (T : vec) (xi : num) :
  Ag ≠ [] → (dt =? 0)%num = true →
  get_parameters fft np_abs_complex np_sqrt np_power Ag dt T xi = Raise IndexError
  ∨ get_parameters fft np_abs_complex np_sqrt np_power Ag dt T xi = Raise ZeroDivisionError.
Proof.
  intros Hne Hdt.
  set (t := linspace 0 (Fin (inject_Z (Z.of_nat (length Ag) - 1)) * dt)%num (length Ag)).
  destruct (significant_duration (arias_curve Ag dt) t 0.75) as [r|e] eqn:H75.
  2: { left. rewrite (significant_duration_raises _ _ _ _ H75) in H75.
       by apply get_parameters_raise_75. }
  destruct (significant_duration (arias_curve Ag dt) t 0.95) as [r'|e] eqn:H95.
  2: { left. rewrite (significant_duration_raises _ _ _ _ H95) in H95.
       by eapply get_parameters_raise_95. }
  right.
  destruct (last_item_Ok t) as [Td HTd].
  { intros E. apply (f_equal length) in E. unfold t in E. rewrite length_linspace in E.
    destruct Ag; [done|simpl in E; lia]. }
  eapply get_parameters_raise_fourier; try done.
  intros aRMS. unfold fourier, filter.ceil_log2.
  rewrite decide_False by (destruct Ag; [done|simpl; lia]). cbn [rbind].
  unfold fftfreq, py_div.
  destruct dt as [q| | |]; try discriminate.
  assert (Hq : q == 0).
  { unfold neqb in Hdt; simpl in Hdt. destruct (q ?= 0) eqn:C; try discriminate.
    by apply Qeq_alt. }
  assert (Hz : (Fin (inject_Z (Z.of_nat (2 ^ Nat.log2_up (length Ag)))) * Fin q =? 0)%num
               = true).
  { unfold neqb; simpl.
    assert (E : inject_Z (Z.of_nat (2 ^ Nat.log2_up (length Ag))) * q == 0)
      by (rewrite Hq; ring).
    apply Qeq_alt in E. by rewrite E. }
  by rewrite Hz.
Qed.

(** With a negative last value of the Arias curve, which takes a negative
    [dt], the call fails in [timed[0]]. *)
Lemma get_parameters_negative_arias (Ag : vec) (dt : num) (T : vec) (xi : num) (L : Q) :
  last_item (arias_curve Ag dt) = Ok (Fin L) → L < 0 →
  get_parameters fft np_abs_complex np_sqrt np_power Ag dt T xi = Raise IndexError.
Proof.
  intros HL Hneg.
  assert (Hne : Ag ≠ []) by (by intros ->).
  apply get_parameters_raise_75; [done|].
  by apply (significant_duration_negative _ _ 0.75 L).
Qed.
End library.

End gm_run.

Module dt_facts.
Import sdof sdof_facts gm_facts rotd rotd_facts gm_run.

(** C8, as stated, at [dt = -0.01] and at [dt = 0]. With a negative time
    step the solver does not fail: it returns finite histories; with [dt =
    0] it returns histories of NaN. *)
Lemma sdof_ltha_accepts_nonpositive_dt :
  (Fin (-0.01) <=? 0)%num = true
  ∧ (∃ h, sdof_ltha [Fin 0; Fin 9.81; Fin 0] (Fin (-0.01)) [Fin 0.5] (Fin 0.05) (Fin 1) = Ok h
          ∧ is_fin <$> col (u h) 0 = [true; true; true])
  ∧ (∃ h, sdof_ltha [Fin 0; Fin 9.81; Fin 0] (Fin 0) [Fin 0.5] (Fin 0.05) (Fin 1) = Ok h
          ∧ col (u h) 0 = [Fin 0; NaN; NaN]).
Proof.
  split; [reflexivity|]. split; eexists; (split; [reflexivity|]); vm_compute; reflexivity.
Qed.

(** [RotDxx_spectrum] returns for every time step: with a first component
    that is not empty and a percentile that [np.percentile] accepts, it
    returns one value for each period. *)
Lemma RotDxx_spectrum_returns (cos_deg sin_deg : nat → num) (Ag1 Ag2 : vec) (dt : num)
    (T : vec) (xi xx : num) :
  Ag1 ≠ [] → is_ok (quantile xx) = true →
  ∃ Sa, RotDxx_spectrum cos_deg sin_deg Ag1 Ag2 dt T xi xx = Ok Sa
        ∧ length Sa = length T.
Proof.
  intros Hne Hq. unfold RotDxx_spectrum.
  assert (Hn : (0 < length Ag1)%nat) by (destruct Ag1; [done|simpl; lia]).
  set (pair := if decide (length Ag1 = length Ag2) then (Ag1, Ag2)
               else if decide (length Ag2 < length Ag1)%nat
                 then (Ag1, Ag2 ++ zeros (length Ag1 - length Ag2))
                 else (Ag1 ++ zeros (length Ag2 - length Ag1), Ag2)).
  assert (Hp : (0 < length pair.1)%nat ∧ (0 < length pair.2)%nat).
  { unfold pair, zeros. repeat case_decide; simpl;
      rewrite ?length_app, ?length_replicate; lia. }
  destruct pair as [B1 B2]. simpl in Hp. destruct Hp as [L1 L2]. cbv zeta.
  assert (Hs : ∀ B : vec, (0 < length B)%nat →
            ∃ h, sdof.sdof_ltha B dt T xi 1 = Ok h ∧ (0 < length (u h))%nat).
  { intros B LB. exists (loop B dt T xi 1 (init B T xi 1)). split.
    - unfold sdof_ltha, n1. by rewrite decide_False by lia.
    - destruct (loop_shape B dt T xi 1 _ (init_shape B T xi 1 LB)) as ([Lu _] & _).
      lia. }
  destruct (Hs B1 L1) as (h1 & -> & U1). destruct (Hs B2 L2) as (h2 & -> & U2).
  cbn [rbind].
  destruct (for_each_insert (rot_disp_row cos_deg sin_deg (u h1) (u h2))
              (λ _, True) (seq 0 180) (zeros2 180 (length T)))
    as (RD & HRD & _).
  { intros theta _. unfold rot_disp_row.
    destruct (u h1) as [|r1 u1]; [simpl in U1; lia|].
    destruct (u h2) as [|r2 u2]; [simpl in U2; lia|]. simpl. eauto. }
  { by apply Forall_true. }
  unfold Rot_Disp. rewrite HRD. cbn [rbind].
  unfold percentile_axis0. destruct (quantile xx) as [qq|]; [|done]. cbn [rbind].
  eexists. split; [done|]. by rewrite length_fmap, length_seq.
Qed.

(** C8 as amended. No operation checks the sign of the time step; none has
    a validation of [dt] that could raise.  For every non-empty record and
    every [dt <= 0]: the solver returns its four histories, of the shape
    of any other call; [RotDxx_spectrum] returns one value per period,
    whatever the second component and the percentile in [0, 100]; the
    filter fails at [dt = 0] with the [ZeroDivisionError] of [1.0 / dt] and
    at [dt < 0] goes on with the negative Nyquist frequency
    [1.0 / dt * 0.5]; the baseline corrector hands the times
    [np.linspace(0, (n - 1) * dt, n)] to [np.polyfit] as they are;
    [get_parameters] fails at [dt = 0] with an [IndexError] of the
    significant durations or, at the latest, with the [ZeroDivisionError]
    of [np.fft.fftfreq(N, dt)], and whenever the last value of the Arias
    curve is a negative number, as it is on the record of [example] at
    [dt = -0.01], with the [IndexError] of [timed[0]]. *)
Theorem time_step_not_validated (Ag : vec) (dt : num) (T : vec) (xi m : num) :
  Ag ≠ [] → (dt <=? 0)%num = true →
  (∃ h, sdof_ltha Ag dt T xi m = Ok h ∧ hist_shape (length Ag) (length T) h)
  ∧ (∀ (cos_deg sin_deg : nat → num) (Ag2 : vec) (xx : num),
       is_ok (quantile xx) = true →
       ∃ Sa, RotDxx_spectrum cos_deg sin_deg Ag Ag2 dt T xi xx = Ok Sa
             ∧ length Sa = length T)
  ∧ (∀ (coeffs : Type) (butter : Z → filter.Wn → filter.btype → result coeffs)
       (filtfilt : coeffs → vec → result vec) values ft cut kw,
       filter.run butter filtfilt values (Fin 0) ft cut kw = Raise ZeroDivisionError
       ∧ ((dt <? 0)%num = true →
          filter.run butter filtfilt values dt ft cut kw
          = (let* '(padded, s_len, f_len) :=
               filter.pad values (filter.kw_remove_gibbs kw)
                 (default 1%nat (filter.kw_gibbs_extra kw))
                 (default 50%nat (filter.kw_gibbs_range kw)) in
             let* wp := filter.normalise cut (1 / dt * 0.5)%num in
             let* ba := butter (default 4%Z (filter.kw_filter_order kw)) wp ft in
             let* filtered := filtfilt ba padded in
             Ok (take (f_len - s_len) (drop s_len filtered)))))
  ∧ (∀ (poly : Type) (polyfit : vec → vec → nat → result poly)
       (polyval : poly → vec → vec) values,
       let t :=
         linspace 0 (Fin (inject_Z (Z.of_nat (length values) - 1)) * dt)%num
           (length values) in
       baseline.baseline_correction polyfit polyval values dt "Constant" =
         (let* P := polyfit t values 0%nat in Ok (vsub values (polyval P t))))
  ∧ (∀ (complex : Type) (fft : vec → nat → list complex)
       (np_abs_complex : complex → num) (np_sqrt : num → num)
       (np_power : num → num → num),
       ((dt =? 0)%num = true →
        gm.get_parameters fft np_abs_complex np_sqrt np_power Ag dt T xi
          = Raise IndexError
        ∨ gm.get_parameters fft np_abs_complex np_sqrt np_power Ag dt T xi
          = Raise ZeroDivisionError)
       ∧ (∀ L, last (gm.arias_curve Ag dt) = Some (Fin L) → L < 0 →
          gm.get_parameters fft np_abs_complex np_sqrt np_power Ag dt T xi
          = Raise IndexError)).
Proof.
  intros Hne Hdt.
  assert (Hn : (0 < length Ag)%nat) by (destruct Ag; [done|simpl; lia]).
  split; [|split; [|split; [|split]]].
  - exists (loop Ag dt T xi m (init Ag T xi m)). split.
    + unfold sdof_ltha, n1. case_decide; [lia|done].
    + apply loop_shape. by apply init_shape.
  - intros. by apply RotDxx_spectrum_returns.
  - intros. split; [reflexivity|]. intros Hneg.
    unfold filter.run, py_div. cbv zeta.
    assert ((dt =? 0)%num = false) as ->; [|reflexivity].
    destruct dt as [q| | |]; try done. unfold nltb, neqb in *. simpl in *.
    by destruct (q ?= 0).
  - reflexivity.
  - intros. split.
    + intros H0. by apply get_parameters_zero_dt.
    + intros L HL Hneg. apply (get_parameters_negative_arias _ _ _ _ _ _ _ _ L); [|done].
      unfold last_item. by rewrite HL.
Qed.

(** On the record of [example], at [dt = 0] and at [dt = -0.01]. *)
Lemma get_parameters_nonpositive_dt_example :
  gm.get_parameters small.fft small.np_abs_complex small.np_sqrt small.np_power
    example.Ag (Fin 0) example.T (Fin example.xi) = Raise ZeroDivisionError
  ∧ gm.get_parameters small.fft small.np_abs_complex small.np_sqrt small.np_power
      example.Ag (Fin (-0.01)) example.T (Fin example.xi) = Raise IndexError.
Proof. split; vm_compute; reflexivity. Qed.

(** At [dt = -0.01]. *)
Lemma time_step_not_validated_witness :
  (∃ h, sdof_ltha [Fin 0; Fin 9.81; Fin 0] (Fin (-0.01)) [Fin 0.5] (Fin 0.05) (Fin 1) = Ok h
        ∧ hist_shape (length [Fin 0; Fin 9.81; Fin 0]) (length [Fin 0.5]) h)
  ∧ (∀ (cos_deg sin_deg : nat → num) (Ag2 : vec) (xx : num),
       is_ok (quantile xx) = true →
       ∃ Sa, RotDxx_spectrum cos_deg sin_deg [Fin 0; Fin 9.81; Fin 0] Ag2 (Fin (-0.01))
               [Fin 0.5] (Fin 0.05) xx = Ok Sa
             ∧ length Sa = length [Fin 0.5])
  ∧ (∀ (coeffs : Type) (butter : Z → filter.Wn → filter.btype → result coeffs)
       (filtfilt : coeffs → vec → result vec) values ft cut kw,
       filter.run butter filtfilt values (Fin 0) ft cut kw = Raise ZeroDivisionError
       ∧ ((Fin (-0.01) <? 0)%num = true →
          filter.run butter filtfilt values (Fin (-0.01)) ft cut kw
          = (let* '(padded, s_len, f_len) :=
               filter.pad values (filter.kw_remove_gibbs kw)
                 (default 1%nat (filter.kw_gibbs_extra kw))
                 (default 50%nat (filter.kw_gibbs_range kw)) in
             let* wp := filter.normalise cut (1 / Fin (-0.01) * 0.5)%num in
             let* ba := butter (default 4%Z (filter.kw_filter_order kw)) wp ft in
             let* filtered := filtfilt ba padded in
             Ok (take (f_len - s_len) (drop s_len filtered)))))
  ∧ (∀ (poly : Type) (polyfit : vec → vec → nat → result poly)
       (polyval : poly → vec → vec) values,
       let t :=
         linspace 0 (Fin (inject_Z (Z.of_nat (length values) - 1)) * Fin (-0.01))%num
           (length values) in
       baseline.baseline_correction polyfit polyval values (Fin (-0.01)) "Constant" =
         (let* P := polyfit t values 0%nat in Ok (vsub values (polyval P t))))
  ∧ (∀ (complex : Type) (fft : vec → nat → list complex)
       (np_abs_complex : complex → num) (np_sqrt : num → num)
       (np_power : num → num → num),
       ((Fin (-0.01) =? 0)%num = true →
        gm.get_parameters fft np_abs_complex np_sqrt np_power [Fin 0; Fin 9.81; Fin 0]
          (Fin (-0.01)) [Fin 0.5] (Fin 0.05) = Raise IndexError
        ∨ gm.get_parameters fft np_abs_complex np_sqrt np_power [Fin 0; Fin 9.81; Fin 0]
            (Fin (-0.01)) [Fin 0.5] (Fin 0.05) = Raise ZeroDivisionError)
       ∧ (∀ L, last (gm.arias_curve [Fin 0; Fin 9.81; Fin 0] (Fin (-0.01))) = Some (Fin L) →
          L < 0 →
          gm.get_parameters fft np_abs_complex np_sqrt np_power [Fin 0; Fin 9.81; Fin 0]
            (Fin (-0.01)) [Fin 0.5] (Fin 0.05) = Raise IndexError)).
Proof.
  apply (time_step_not_validated [Fin 0; Fin 9.81; Fin 0] (Fin (-0.01)) [Fin 0.5]
           (Fin 0.05) (Fin 1)).
  - discriminate.
  - reflexivity.
Defined.

End dt_facts.

(** ** The first total acceleration, in binary64 *)

Module sdof64_facts.
Import sdof64.
#[local] Set Warnings "-inexact-float".

(** *** Operations that are exact *)

Lemma bounded_inv (m : positive) (e : Z) :
  SpecFloat.bounded prec emax m e = true →
  SpecFloat.fexp prec emax (Zpos (SpecFloat.digits2_pos m) + e) = e
  ∧ (e <= emax - prec)%Z.
Proof.
  unfold SpecFloat.bounded, SpecFloat.canonical_mantissa. intros H.
  apply andb_prop in H as [H1 H2]. split; [by apply Z.eqb_eq|by apply Z.leb_le].
Qed.

(** Rounding a mantissa and an exponent that are those of a binary64 number
    gives this number. *)
Lemma round_exact (s : bool) (m : positive) (e : Z) :
  SpecFloat.bounded prec emax m e = true →
  SpecFloat.binary_round_aux prec emax s (Zpos m) e SpecFloat.loc_Exact
  = S754_finite s m e.
Proof.
  intros H. destruct (bounded_inv m e H) as [Hf He].
  unfold SpecFloat.binary_round_aux, SpecFloat.shr_fexp.
  cbn [SpecFloat.Zdigits2 SpecFloat.shr_record_of_loc].
  rewrite Hf, Z.sub_diag.
  cbn [SpecFloat.shr SpecFloat.shr_m SpecFloat.loc_of_shr_record
       SpecFloat.round_nearest_even SpecFloat.Zdigits2].
  unfold SpecFloat.shr_fexp. cbn [SpecFloat.Zdigits2 SpecFloat.shr_record_of_loc].
  rewrite Hf, Z.sub_diag.
  cbn [SpecFloat.shr SpecFloat.shr_m]. apply Z.leb_le in He. by rewrite He.
Qed.

Lemma digits2_pos_shift52 (m : positive) :
  Zpos (SpecFloat.digits2_pos (Pos.mul 4503599627370496 m))
  = (Zpos (SpecFloat.digits2_pos m) + 52)%Z.
Proof. simpl. rewrite Pos.mul_1_l, !Pos2Z.inj_succ. lia. Qed.

Lemma mul_shift52 (m : positive) : Pos.mul 4503599627370496 m = Pos.iter xO m 52.
Proof. reflexivity. Qed.

Lemma shr_shift52 (m : positive) :
  SpecFloat.iter_pos SpecFloat.shr_1 52
    {| SpecFloat.shr_m := Zpos (Pos.iter xO m 52);
       SpecFloat.shr_r := false; SpecFloat.shr_s := false |}
  = {| SpecFloat.shr_m := Zpos m; SpecFloat.shr_r := false; SpecFloat.shr_s := false |}.
Proof. reflexivity. Qed.

(** So does rounding the mantissa times [2 ** 52] at the exponent less 52:
    the product of a number with 1 or -1. *)
Lemma round_shift52 (s : bool) (m : positive) (e : Z) :
  SpecFloat.bounded prec emax m e = true →
  SpecFloat.binary_round_aux prec emax s (Zpos (Pos.mul 4503599627370496 m)) (-52 + e)
    SpecFloat.loc_Exact
  = S754_finite s m e.
Proof.
  intros H. destruct (bounded_inv m e H) as [Hf He].
  unfold SpecFloat.binary_round_aux. unfold SpecFloat.shr_fexp at 1.
  cbn [SpecFloat.Zdigits2]. rewrite digits2_pos_shift52.
  replace (Zpos (SpecFloat.digits2_pos m) + 52 + (-52 + e))%Z
    with (Zpos (SpecFloat.digits2_pos m) + e)%Z by lia.
  rewrite Hf. replace (e - (-52 + e))%Z with 52%Z by lia.
  cbn [SpecFloat.shr_record_of_loc SpecFloat.shr]. rewrite mul_shift52, shr_shift52.
  replace (-52 + e + 52)%Z with e by lia.
  cbn [SpecFloat.shr_m SpecFloat.shr_r SpecFloat.shr_s SpecFloat.loc_of_shr_record
       SpecFloat.round_nearest_even].
  unfold SpecFloat.shr_fexp. cbn [SpecFloat.Zdigits2 SpecFloat.shr_record_of_loc].
  rewrite Hf, Z.sub_diag.
  cbn [SpecFloat.shr SpecFloat.shr_m]. apply Z.leb_le in He. by rewrite He.
Qed.

Lemma div_eucl_mul (a b : Z) : (0 < b)%Z → Z.div_eucl (a * b) b = (a, 0%Z).
Proof.
  intros Hb. assert (H1 := Z.div_mul a b ltac:(lia)).
  assert (H2 := Z.mod_mul a b ltac:(lia)).
  unfold Z.div, Z.modulo in H1, H2. destruct (Z.div_eucl (a * b) b) as [q r].
  simpl in H1, H2. by subst.
Qed.

(** [-1 * x] is the opposite of [x]. *)
Lemma SFmul_opp_one (x : spec_float) :
  SpecFloat.valid_binary prec emax x = true →
  SF64mul (S754_finite true 4503599627370496 (-52)) x = SpecFloat.SFopp x.
Proof.
  destruct x as [s|s| |s m e]; try reflexivity. intros H. simpl in H.
  unfold SF64mul, SpecFloat.SFmul. cbn [xorb SpecFloat.SFopp].
  replace (if s then false else true) with (negb s) by by destruct s.
  by apply round_shift52.
Qed.

(** [x / 1] is [x]. *)
Lemma SFdiv_one (x : spec_float) :
  SpecFloat.valid_binary prec emax x = true →
  SF64div x (S754_finite false 4503599627370496 (-52)) = x.
Proof.
  destruct x as [s|s| |s m e]; try (by destruct s); try done. intros H. simpl in H.
  destruct (bounded_inv m e H) as [Hf He].
  unfold SF64div, SpecFloat.SFdiv, SpecFloat.SFdiv_core_binary. rewrite xorb_false_r.
  change (SpecFloat.Zdigits2 (Zpos 4503599627370496)) with 53%Z.
  cbn [SpecFloat.Zdigits2].
  set (d := Zpos (SpecFloat.digits2_pos m)) in *.
  assert (Hd : (0 < d)%Z) by (unfold d; lia).
  unfold SpecFloat.fexp, SpecFloat.emin, prec, emax in Hf, He |- *.
  destruct (Z.eq_dec e (-1074)%Z) as [->|Hne].
  - replace (Z.min (Z.max (d + -1074 - (53 + -52) - 53) (3 - 1024 - 53)) (-1074 - -52))
      with (-1074)%Z by lia.
    change (-1074 - -52 - -1074)%Z with 52%Z.
    replace (Z.shiftl (Zpos m) 52) with (Zpos m * Zpos 4503599627370496)%Z
      by (rewrite Z.shiftl_mul_pow2 by lia; reflexivity).
    rewrite div_eucl_mul by lia.
    change (SpecFloat.new_location (Zpos 4503599627370496) 0) with SpecFloat.loc_Exact.
    by apply round_exact.
  - replace (Z.min (Z.max (d + e - (53 + -52) - 53) (3 - 1024 - 53)) (e - -52))
      with (e - 1)%Z by lia.
    replace (e - -52 - (e - 1))%Z with 53%Z by lia.
    replace (Z.shiftl (Zpos m) 53) with (Zpos (xO m) * Zpos 4503599627370496)%Z
      by (rewrite Z.shiftl_mul_pow2 by lia;
          change (2 ^ 53)%Z with (2 * 4503599627370496)%Z; lia).
    rewrite div_eucl_mul by lia.
    change (SpecFloat.new_location (Zpos 4503599627370496) 0) with SpecFloat.loc_Exact.
    assert (Hd53 : d = 53%Z) by lia.
    unfold SpecFloat.binary_round_aux. unfold SpecFloat.shr_fexp at 1.
    cbn [SpecFloat.Zdigits2 SpecFloat.digits2_pos].
    rewrite Pos2Z.inj_succ. fold d.
    unfold SpecFloat.fexp, SpecFloat.emin, prec, emax.
    replace (Z.max (Z.succ d + (e - 1) - 53) (3 - 1024 - 53) - (e - 1))%Z with 1%Z by lia.
    cbn [SpecFloat.shr_record_of_loc SpecFloat.shr SpecFloat.iter_pos SpecFloat.shr_1 orb].
    cbn [SpecFloat.shr_m SpecFloat.shr_r SpecFloat.shr_s SpecFloat.loc_of_shr_record
         SpecFloat.round_nearest_even].
    replace (e - 1 + 1)%Z with e by lia.
    unfold SpecFloat.shr_fexp. cbn [SpecFloat.Zdigits2 SpecFloat.shr_record_of_loc].
    fold d. unfold SpecFloat.fexp, SpecFloat.emin, prec, emax. rewrite Hf, Z.sub_diag.
    cbn [SpecFloat.shr SpecFloat.shr_m]. apply Z.leb_le in He. by rewrite He.
Qed.

(** [-x + x] is [+0] for a number [x] other than zero. *)
Lemma SFadd_opp (s : bool) (m : positive) (e : Z) :
  SF64add (S754_finite (negb s) m e) (S754_finite s m e) = S754_zero false.
Proof.
  unfold SF64add, SpecFloat.SFadd. rewrite Z.min_id.
  unfold SpecFloat.shl_align. rewrite Z.sub_diag. cbn [fst].
  replace (SpecFloat.cond_Zopp (negb s) (Zpos m) + SpecFloat.cond_Zopp s (Zpos m))%Z
    with 0%Z by (destruct s; simpl; lia).
  reflexivity.
Qed.

(** A finite number is a zero or has a mantissa and an exponent. *)
Definition SFfinite (x : spec_float) : Prop :=
  match x with
  | S754_zero _ | S754_finite _ _ _ => True
  | _ => False
  end.

Lemma is_finite_SF (x : float) : is_finite x = true → SFfinite (Prim2SF x).
Proof.
  unfold is_finite, Prim2SF. intros H.
  apply negb_true_iff, orb_false_iff in H as [-> ->].
  destruct (is_zero x); [done|].
  destruct (Z.frexp x) as [r ex].
  destruct (SpecFloat.shr_fexp _ _ _ _ _) as [sh e'].
  by destruct (SpecFloat.shr_m sh).
Qed.

(** The first relative and total acceleration for the mass 1:
    [(-1 * a0 - c * 0 - k * 0) / 1] is a zero when [a0] is one and [-a0]
    otherwise, and adding [a0] gives [+0]. *)
Lemma first_sample_SF (X C K : spec_float) :
  SpecFloat.valid_binary prec emax X = true →
  SFfinite X → SFfinite C → SFfinite K →
  let ac0 :=
    SF64div
      (SF64sub
         (SF64sub (SF64mul (S754_finite true 4503599627370496 (-52)) X)
                  (SF64mul C (S754_zero false)))
         (SF64mul K (S754_zero false)))
      (S754_finite false 4503599627370496 (-52)) in
  SpecFloat.SFeqb ac0 (SpecFloat.SFopp X) = true
  ∧ SF64add ac0 X = S754_zero false.
Proof.
  intros HX FX FC FK. rewrite (SFmul_opp_one X HX).
  assert (HC : ∃ sc, SF64mul C (S754_zero false) = S754_zero sc)
    by (destruct C; try done; eexists; reflexivity).
  assert (HK : ∃ sk, SF64mul K (S754_zero false) = S754_zero sk)
    by (destruct K; try done; eexists; reflexivity).
  destruct HC as [sc ->], HK as [sk ->].
  destruct X as [s| | |s m e]; try done.
  - destruct s, sc, sk; split; reflexivity.
  - cbn [SpecFloat.SFopp]. cbv zeta.
    change (SF64sub (SF64sub (S754_finite (negb s) m e) (S754_zero sc)) (S754_zero sk))
      with (S754_finite (negb s) m e).
    rewrite (SFdiv_one (S754_finite (negb s) m e) HX). split; [|apply SFadd_opp].
    unfold SpecFloat.SFeqb, SpecFloat.SFcompare.
    rewrite Z.compare_refl, Pos.compare_cont_refl. by destruct (negb s).
Qed.

Lemma first_sample_float (a0 cj kj : float) :
  is_finite a0 = true → is_finite cj = true → is_finite kj = true →
  let ac0 := (((- (1)) * a0 - cj * 0 - kj * 0) / 1)%float in
  (ac0 =? - a0)%float = true ∧ (ac0 + a0)%float = 0%float.
Proof.
  intros Ha Hc Hk ac0.
  destruct (first_sample_SF (Prim2SF a0) (Prim2SF cj) (Prim2SF kj))
    as [E1 E2]; [apply Prim2SF_valid|by apply is_finite_SF..|].
  cbv zeta in E1, E2.
  assert (Hac0 : Prim2SF ac0 =
    SF64div
      (SF64sub
         (SF64sub (SF64mul (S754_finite true 4503599627370496 (-52)) (Prim2SF a0))
                  (SF64mul (Prim2SF cj) (S754_zero false)))
         (SF64mul (Prim2SF kj) (S754_zero false)))
      (S754_finite false 4503599627370496 (-52))).
  { unfold ac0. by rewrite FloatAxioms.div_spec, !FloatAxioms.sub_spec, !FloatAxioms.mul_spec. }
  split.
  - by rewrite FloatAxioms.eqb_spec, FloatAxioms.opp_spec, Hac0.
  - apply Prim2SF_inj. by rewrite FloatAxioms.add_spec, Hac0.
Qed.

(** *** The first row of the histories *)

Section run.
Context (float_pow np_power : float → float → float).
Context (Ag : fvec) (dt : float) (T : fvec) (xi m : float).

Lemma step_row0_b64 h i :
  at_ (ac_tot (step float_pow np_power Ag dt T xi m h i)) 0 = at_ (ac_tot h) 0
  ∧ at_ (ac (step float_pow np_power Ag dt T xi m h i)) 0 = at_ (ac h) 0.
Proof.
  unfold step, at_; simpl. split; apply list_lookup_total_insert_ne; lia.
Qed.

Lemma loop_row0_b64 h :
  at_ (ac_tot (loop float_pow np_power Ag dt T xi m h)) 0 = at_ (ac_tot h) 0
  ∧ at_ (ac (loop float_pow np_power Ag dt T xi m h)) 0 = at_ (ac h) 0.
Proof.
  unfold loop. generalize (seq 0 (n1 Ag - 1)). intros ix. revert h.
  induction ix as [|i ix IH]; intros h; simpl; [done|].
  destruct (IH (step float_pow np_power Ag dt T xi m h i)) as [-> ->].
  apply step_row0_b64.
Qed.

Lemma loop_length_b64 h :
  length (ac_tot (loop float_pow np_power Ag dt T xi m h)) = length (ac_tot h)
  ∧ length (ac (loop float_pow np_power Ag dt T xi m h)) = length (ac h).
Proof.
  unfold loop. generalize (seq 0 (n1 Ag - 1)). intros ix. revert h.
  induction ix as [|i ix IH]; intros h; simpl; [done|].
  destruct (IH (step float_pow np_power Ag dt T xi m h i)) as [-> ->].
  unfold step; simpl. by rewrite !length_insert.
Qed.

Lemma init_row0_b64 :
  (0 < length Ag)%nat →
  let ac0 := (λ x, x / m)%float <$>
      vsub ((λ x, at_ (p Ag m) 0 - x)%float <$> vmul (c T xi m) (zeros (length T)))
           (vmul (k np_power T m) (zeros (length T))) in
  at_ (ac (init np_power Ag T xi m)) 0 = ac0
  ∧ at_ (ac_tot (init np_power Ag T xi m)) 0 = (λ x, x + at_ Ag 0)%float <$> ac0
  ∧ length (ac (init np_power Ag T xi m)) = length Ag
  ∧ length (ac_tot (init np_power Ag T xi m)) = length Ag.
Proof.
  intros Hn ac0. unfold init, n1, n2, at_; simpl.
  assert (Hz : (0 < length (zeros2 (length Ag) (length T)))%nat)
    by (unfold zeros2; rewrite length_replicate; lia).
  rewrite !list_lookup_total_insert_eq by done.
  rewrite !length_insert. unfold zeros2. by rewrite !length_replicate.
Qed.
End run.

(** C10 as amended.  With the mass 1, which every caller passes, a first
    sample that is finite and periods and a damping ratio for which the
    stiffness [k = m * wn ** 2] and the damping coefficient
    [c = 2 * m * wn * xi] are finite, [sdof_ltha] returns, in binary64,
    histories whose first relative acceleration equals [-Ag[0]] and whose
    first total acceleration is [0.0], at every period: multiplying by 1 and
    by -1 and dividing by 1 are exact, [c * 0] and [k * 0] are zeros, and
    [-Ag[0] + Ag[0]] is [0.0]. *)
Theorem first_total_acceleration_zero_unit_mass
    (float_pow np_power : float → float → float)
    (a0 : float) (rest : fvec) (dt : float) (T : fvec) (xi : float) :
  is_finite a0 = true →
  Forall (λ x, is_finite x = true) (k np_power T 1) →
  Forall (λ x, is_finite x = true) (c T xi 1) →
  ∃ h row_ac,
    sdof_ltha float_pow np_power (a0 :: rest) dt T xi 1 = Ok h
    ∧ ac h !! 0%nat = Some row_ac ∧ length row_ac = length T
    ∧ Forall (λ x, (x =? - a0)%float = true) row_ac
    ∧ ac_tot h !! 0%nat = Some (zeros (length T)).
Proof.
  intros Ha Hk Hc. set (Ag := a0 :: rest).
  assert (Hn : (0 < length Ag)%nat) by (simpl; lia).
  set (h := loop float_pow np_power Ag dt T xi 1 (init np_power Ag T xi 1)).
  destruct (loop_row0_b64 float_pow np_power Ag dt T xi 1 (init np_power Ag T xi 1))
    as [Rtot Rac].
  destruct (loop_length_b64 float_pow np_power Ag dt T xi 1 (init np_power Ag T xi 1))
    as [Ltot Lac].
  destruct (init_row0_b64 np_power Ag T xi 1 Hn) as (Iac & Itot & LIac & LItot).
  fold h in Rtot, Rac, Ltot, Lac.
  rewrite Itot in Rtot. rewrite Iac in Rac. rewrite LItot in Ltot. rewrite LIac in Lac.
  set (row := (λ x, x / 1)%float <$>
      vsub ((λ x, at_ (p Ag 1) 0 - x)%float <$>
              vmul (c T xi 1) (zeros (length T)))
           (vmul (k np_power T 1) (zeros (length T)))) in *.
  assert (Lk : length (k np_power T 1) = length T)
    by (unfold k, wn, fn; by rewrite !length_fmap).
  assert (Lc : length (c T xi 1) = length T)
    by (unfold c, wn, fn; by rewrite !length_fmap).
  assert (Lrow : length row = length T).
  { unfold row, vsub, vmul, zeros.
    rewrite length_fmap, length_zip_with, length_fmap, !length_zip_with,
      !length_replicate. lia. }
  assert (Hrow : ∀ j x, row !! j = Some x →
            (x =? - a0)%float = true ∧ (x + a0)%float = 0%float).
  { intros j x Hx. unfold row, vsub, vmul in Hx.
    apply list_lookup_fmap_Some in Hx as (y & -> & Hy).
    apply lookup_zip_with_Some in Hy as (y1 & y2 & -> & Hy1 & Hy2).
    apply list_lookup_fmap_Some in Hy1 as (y3 & -> & Hy3).
    apply lookup_zip_with_Some in Hy3 as (cj & z1 & -> & Hcj & Hz1).
    apply lookup_zip_with_Some in Hy2 as (kj & z2 & -> & Hkj & Hz2).
    apply lookup_replicate in Hz1 as [-> _]. apply lookup_replicate in Hz2 as [-> _].
    assert (Fc := Forall_lookup_1 _ _ _ _ Hc Hcj).
    assert (Fk := Forall_lookup_1 _ _ _ _ Hk Hkj). simpl in Fc, Fk.
    change (at_ (p Ag 1) 0) with (- (1) * a0)%float.
    by apply first_sample_float. }
  assert (Eac : ac h !! 0%nat = Some (at_ (ac h) 0))
    by (apply list_lookup_lookup_total_lt; lia).
  assert (Etot : ac_tot h !! 0%nat = Some (at_ (ac_tot h) 0))
    by (apply list_lookup_lookup_total_lt; lia).
  rewrite Rac in Eac. rewrite Rtot in Etot.
  exists h, row.
  split; [unfold sdof_ltha, n1; case_decide; [lia|done]|].
  split; [done|]. split; [done|]. split.
  - apply Forall_lookup_2. intros j x Hx. by apply (Hrow j x).
  - rewrite Etot. f_equal. apply list_eq. intros j. unfold zeros.
    rewrite list_lookup_fmap.
    destruct (row !! j) as [x|] eqn:Hx; simpl.
    + destruct (Hrow j x Hx) as [_ E]. change (at_ Ag 0) with a0. rewrite E.
      symmetry. apply lookup_replicate_2. apply lookup_lt_Some in Hx. lia.
    + symmetry. apply lookup_replicate_None. apply lookup_ge_None in Hx. lia.
Qed.

(** A record starting at 9.81 with two periods. *)
Lemma first_total_acceleration_zero_unit_mass_witness :
  ∃ h row_ac,
    sdof_ltha square_pow square_pow (9.81 :: [0; -9.81])%float 0.01 [0.5; 0.01]%float
      0.05 1 = Ok h
    ∧ ac h !! 0%nat = Some row_ac ∧ length row_ac = length [0.5; 0.01]%float
    ∧ Forall (λ x, (x =? - 9.81)%float = true) row_ac
    ∧ ac_tot h !! 0%nat = Some (zeros (length [0.5; 0.01]%float)).
Proof.
  apply (first_total_acceleration_zero_unit_mass square_pow square_pow 9.81%float
           [0; -9.81]%float 0.01%float [0.5; 0.01]%float 0.05%float).
  - reflexivity.
  - repeat constructor.
  - repeat constructor.
Defined.

(** C10, as stated, in binary64.  With the mass 3 and a first sample of 0.1
    the first relative acceleration is [-0.30000000000000004 / 3], which is
    not [-0.1]: the first total acceleration is [-2 ** -56], about
    -1.39e-17.  With the mass 1 and the period 1e-160 the stiffness is
    infinite and [k * u[0]] a NaN, and with the mass 0 the quotient is
    [0 / 0]: the first total acceleration is a NaN.  None of the three is
    zero. *)
Lemma first_total_acceleration_not_zero :
  (∃ h, sdof_ltha square_pow square_pow [0.1; 0]%float 0.01 [0.5]%float 0.05 3 = Ok h
        ∧ ac_tot h !! 0%nat = Some [(-0x1p-56)%float]
        ∧ ((-0x1p-56) =? 0)%float = false)
  ∧ (∃ h, sdof_ltha square_pow square_pow [0.1; 0]%float 0.01 [1e-160]%float 0.05 1 = Ok h
          ∧ ac_tot h !! 0%nat = Some [nan]
          ∧ is_finite (1 / 1e-160)%float = true ∧ (nan =? 0)%float = false)
  ∧ (∃ h, sdof_ltha square_pow square_pow [0.1; 0]%float 0.01 [0.5]%float 0.05 0 = Ok h
          ∧ ac_tot h !! 0%nat = Some [nan]).
Proof.
  repeat split; eexists; (split; [reflexivity|]); repeat split; vm_compute; reflexivity.
Qed.

End sdof64_facts.


(** * Further properties *)

(** ** The solver: initial conditions and independence of the periods *)

Module sdof_more.
Import sdof sdof_facts.



Section rest.
Context (Ag : vec) (dt : num) (T : vec) (xi m : num).


End rest.




(** *** One period at a time *)

Section one_period.
Context (Ag : vec) (dt : num) (T : vec) (xi m : num) (j : nat) (Tj : num).
Hypothesis HT : T !! j = Some Tj.











End one_period.


End sdof_more.

(** ** The filter: validation, padding and trimming *)

Module filter_more.
Import filter filter_facts gm_facts.

Section scipy.
Context {coeffs : Type}.
Context (butter : Z → Wn → btype → result coeffs).
Context (filtfilt : coeffs → vec → result vec).






End scipy.





End filter_more.

(** ** The baseline correction *)

Module baseline_more.
Import baseline gm_facts.

Section numpy.
Context {poly : Type}.
Context (polyfit : vec → vec → nat → result poly).
Context (polyval : poly → vec → vec).


End numpy.



End baseline_more.

(** ** The parameters of a record: errors, shapes and edge cases *)

Module gm_more.
Import gm gm_facts sdof_facts gm_run.

(** *** Lists *)









(** Whether a period of the grid equals [x]. *)
Definition present (x : num) (T : vec) : Prop := Exists (λ Tj, (Tj =? x)%num = true) T.

#[global] Instance present_dec (x : num) (T : vec) : Decision (present x T).
Proof. unfold present. apply _. Defined.




Section library.
Context {complex : Type}.
Context (fft : vec → nat → list complex).
Context (np_abs_complex : complex → num).
Context (np_sqrt : num → num).
Context (np_power : num → num → num).












End library.

(** *** On the records of [example] and [example2] *)














End gm_more.

(** ** The rotated spectrum: the percentile is checked last *)

Module rotd_more.
Import sdof sdof_facts gm_facts rotd rotd_facts.



End rotd_more.
